(** * Lab_2_4_LR2: linear regression, regression metrics and one-hot encoding

    A shallow embedding of [src/Lab_2_4_LR2.py] together with the properties
    its specification states about it.

    Modelling conventions.
    - A float64 is an exact rational ([Q]): rounding, overflow and signed
      zeros are outside the model.  The special values that numpy produces
      from finite data ([nan], [inf]) are the extra constructors of
      [npfloat].
    - A two-dimensional numpy array is its list of rows together with its
      column count, so that an array with no rows keeps its shape.
    - Python exceptions are values of [exn]; a method of [LinearRegressor]
      is a function on the object's state that returns either an exception
      or a value, with the state it leaves behind.
    - Cells of the feature table given to [one_hot_encode] keep their own
      type (a string or a number), as in an array of dtype [object]. *)

From Stdlib Require Import String Ascii ZArith QArith Qabs Lia Lqa Bool
  Arith PeanoNat Setoid Morphisms List Permutation Sorted.
From Stdlib Require OrderedTypeEx.
Import ListNotations.

Local Open Scope Q_scope.

(* ================================================================= *)
(** ** Exceptions *)

Inductive value_error : Type :=
| MethodNotAvailable (method : string)   (* "Method ... not available ..." *)
| ModelNotFitted                         (* "Model is not yet fitted" *)
| MatmulMismatch                         (* core dimensions of [@] differ *)
| BroadcastMismatch                      (* operands could not be broadcast *)
| NegativeDimensions.                    (* a negative array size was asked for *)

Inductive exn : Type :=
| ValueError (why : value_error)
| ZeroDivisionError
| IndexError
| TypeError.

(** The result of a computation that may raise. *)
Definition result (A : Type) : Type := (exn + A)%type.

Definition ok {A} (a : A) : result A := inr a.
Definition raise {A} (e : exn) : result A := inl e.

Definition rbind {A B} (r : result A) (k : A -> result B) : result B :=
  match r with
  | inl e => inl e
  | inr a => k a
  end.

(** A computation on a mutable state of type [S]: it may raise, and leaves a
    state behind either way. *)
Definition Eff (S A : Type) : Type := S -> result A * S.

Definition ret {S A} (a : A) : Eff S A := fun s => (ok a, s).

Definition bind {S A B} (c : Eff S A) (k : A -> Eff S B) : Eff S B :=
  fun s => match c s with
           | (inl e, s') => (inl e, s')
           | (inr a, s') => k a s'
           end.

Definition throw {S A} (e : exn) : Eff S A := fun s => (raise e, s).

Definition lift {S A} (r : result A) : Eff S A := fun s => (r, s).

Declare Scope eff_scope.
Delimit Scope eff_scope with eff.
Notation "x <- c ;; k" := (bind c (fun x => k))
  (at level 61, c at next level, right associativity) : eff_scope.
Notation "c ;; k" := (bind c (fun _ => k))
  (at level 61, right associativity) : eff_scope.
Local Open Scope eff_scope.

(** [for x in xs: body x] *)
Fixpoint for_each {S A} (xs : list A) (body : A -> Eff S unit) : Eff S unit :=
  match xs with
  | [] => ret tt
  | x :: xs' => body x ;; for_each xs' body
  end.

(** [[f(x) for x in xs]], built by [append] in a loop. *)
Fixpoint collect {S A B} (xs : list A) (f : A -> Eff S B) : Eff S (list B) :=
  match xs with
  | [] => ret []
  | x :: xs' => v <- f x ;; vs <- collect xs' f ;; ret (v :: vs)
  end.

(** [for x in xs: acc = body(acc, x)] *)
Fixpoint for_fold {S A B} (xs : list A) (acc : B) (body : B -> A -> Eff S B)
  : Eff S B :=
  match xs with
  | [] => ret acc
  | x :: xs' => acc' <- body acc x ;; for_fold xs' acc' body
  end.

(* ================================================================= *)
(** ** Arrays *)

(** A 2-D array: [ncols] is [shape[1]], [length rows] is [shape[0]]. *)
Record array2 (A : Type) : Type := mk2 { ncols : nat; rows : list (list A) }.
Arguments mk2 {A} ncols rows.
Arguments ncols {A} a.
Arguments rows {A} a.

Definition nrows {A} (M : array2 A) : nat := length (rows M).

(** numpy arrays are rectangular by construction. *)
Definition wf {A} (M : array2 A) : Prop :=
  Forall (fun r => length r = ncols M) (rows M).

(** What [fit] and [predict] accept for [X]: [np.ndim(X)] is 1 or 2. *)
Inductive ndarray : Type :=
| Arr1 (v : list Q)
| Arr2 (M : array2 Q).

Definition np_ndim (X : ndarray) : nat :=
  match X with Arr1 _ => 1%nat | Arr2 _ => 2%nat end.

(** [X.reshape(-1, 1)] on a 1-D array. *)
Definition reshape_col (v : list Q) : array2 Q :=
  mk2 1 (map (fun x => [x]) v).

(* ----------------------------------------------------------------- *)
(** *** Vectors *)

Definition vsum (v : list Q) : Q := fold_right Qplus 0 v.

Fixpoint dot (u v : list Q) : Q :=
  match u, v with
  | a :: u', b :: v' => a * b + dot u' v'
  | _, _ => 0
  end.

Definition scale (c : Q) (v : list Q) : list Q := map (Qmult c) v.

Fixpoint vadd (u v : list Q) : list Q :=
  match u, v with
  | a :: u', b :: v' => (a + b) :: vadd u' v'
  | _, _ => []
  end.

Fixpoint vsub (u v : list Q) : list Q :=
  match u, v with
  | a :: u', b :: v' => (a - b) :: vsub u' v'
  | _, _ => []
  end.

Definition is_zero (v : list Q) : bool := forallb (fun x => Qeq_bool x 0) v.

(** Equality of float vectors, entry by entry. *)
Definition veq (u v : list Q) : Prop := Forall2 Qeq u v.

(** Elementwise binary operation of two 1-D arrays under numpy's
    broadcasting rule: equal lengths, or one operand of length one. *)
Definition broadcast1 (f : Q -> Q -> Q) (u v : list Q) : result (list Q) :=
  if Nat.eqb (length u) (length v) then ok (map (fun p => f (fst p) (snd p)) (combine u v))
  else match u, v with
       | [a], _ => ok (map (fun b => f a b) v)
       | _, [b] => ok (map (fun a => f a b) u)
       | _, _ => raise (ValueError BroadcastMismatch)
       end.

(* ----------------------------------------------------------------- *)
(** *** Matrices *)

(** Column [j] of a list of rows. *)
Definition column (j : nat) (rs : list (list Q)) : list Q :=
  map (fun r => nth j r 0) rs.

Definition columns (M : array2 Q) : list (list Q) :=
  map (fun j => column j (rows M)) (seq 0 (ncols M)).

(** [X.T] *)
Definition transpose (M : array2 Q) : array2 Q := mk2 (nrows M) (columns M).

(** [A @ B] for two 2-D arrays. *)
Definition matmul (A B : array2 Q) : result (array2 Q) :=
  if Nat.eqb (ncols A) (nrows B)
  then ok (mk2 (ncols B) (map (fun a => map (dot a) (columns B)) (rows A)))
  else raise (ValueError MatmulMismatch).

(** [A @ v] for a 2-D array and a 1-D array. *)
Definition matvec (A : array2 Q) (v : list Q) : result (list Q) :=
  if Nat.eqb (ncols A) (length v)
  then ok (map (fun a => dot a v) (rows A))
  else raise (ValueError MatmulMismatch).

(** [np.insert(X, 0, 1, axis=1)] *)
Definition np_insert_col0 (c : Q) (M : array2 Q) : array2 Q :=
  mk2 (S (ncols M)) (map (cons c) (rows M)).

(** [np.c_[np.ones(X.shape[0]), X]] *)
Definition np_c_ones (M : array2 Q) : array2 Q :=
  mk2 (S (ncols M)) (map (cons 1) (rows M)).

(* ----------------------------------------------------------------- *)
(** *** The Moore-Penrose pseudo-inverse

    [np.linalg.pinv] is computed here by Greville's column recursion, which
    needs field operations only and is therefore exact on rationals.  With
    [A_k] the first [k] columns of [A] and [a] its next column:
      [d = pinv(A_k) a],  [c = a - A_k d],
      [b = c / (c.c)] when [c] is not zero,
      [b = (d^T pinv(A_k)) / (1 + d.d)] otherwise,
    and [pinv(A_(k+1))] is [pinv(A_k) - d b] with the row [b] appended.
    That the result is the pseudo-inverse, that is satisfies the four Penrose
    equations [is_pinv], is proved for every rectangular array in
    [pinv_is_pinv].

    numpy computes the pseudo-inverse from a singular value decomposition,
    in which it sets to zero the singular values that are not above [1e-15]
    times the largest one.  On a matrix with a singular value that small
    and not zero it returns the pseudo-inverse of a truncated matrix, not
    the one defined here.  What is proved of [pinv] holds of
    [np.linalg.pinv] where it depends on the shape of the result only, or
    on symmetries that a truncation keeps; a property that needs the values
    is stated under [pinv_cutoff_clear], and all of them are up to
    rounding. *)

(** [sum_j coeffs_j * vecs_j], a vector of length [m]. *)
Fixpoint lincomb (m : nat) (coeffs : list Q) (vecs : list (list Q)) : list Q :=
  match coeffs, vecs with
  | k :: coeffs', v :: vecs' => vadd (scale k v) (lincomb m coeffs' vecs')
  | _, _ => repeat 0 m
  end.

(** Every stored entry is kept in lowest terms. *)
Definition lowest (v : list Q) : list Q := map Qred v.

Definition greville_step (m : nat) (st : list (list Q) * list (list Q)) (a : list Q)
  : list (list Q) * list (list Q) :=
  let '(cols, P) := st in
  let d := lowest (map (fun p => dot p a) P) in
  let c := lowest (vsub a (lincomb m d cols)) in
  let b := lowest (if is_zero c
                   then scale (/ (1 + dot d d)) (lincomb m d P)
                   else scale (/ dot c c) c) in
  (cols ++ [lowest a], map (fun p => lowest (vsub p (scale (dot p a) b))) P ++ [b]).

Definition greville (m : nat) (cols : list (list Q)) : list (list Q) :=
  snd (fold_left (greville_step m) cols ([], [])).

(** [np.linalg.pinv(A)]: an array of shape [(ncols A, nrows A)]. *)
Definition pinv (A : array2 Q) : array2 Q :=
  mk2 (nrows A) (greville (nrows A) (columns A)).

(** Equality of two arrays: same shape, equal entries. *)
Definition mat_eqb (A B : array2 Q) : bool :=
  Nat.eqb (ncols A) (ncols B) &&
  Nat.eqb (nrows A) (nrows B) &&
  forallb (fun p => Nat.eqb (length (fst p)) (length (snd p)) &&
                    forallb (fun q => Qeq_bool (fst q) (snd q)) (combine (fst p) (snd p)))
          (combine (rows A) (rows B)).

Definition mat_eqb_r (A : result (array2 Q)) (B : array2 Q) : bool :=
  match A with inr A' => mat_eqb A' B | inl _ => false end.

(** The four Penrose equations, which determine the pseudo-inverse:
    [A P A = A], [P A P = P], and [A P] and [P A] are symmetric. *)
Definition is_pinv (A P : array2 Q) : bool :=
  match matmul A P, matmul P A with
  | inr AP, inr PA =>
      mat_eqb_r (matmul AP A) A &&
      mat_eqb_r (matmul PA P) P &&
      mat_eqb (transpose AP) AP &&
      mat_eqb (transpose PA) PA
  | _, _ => false
  end.

(** The same equations on the data of the recursion, used to prove
    [pinv_is_pinv]: [A P v] and [r^T A P] for a matrix [A] given by its
    columns and a matrix [P] given by its rows, all vectors of length [m]. *)
Definition apply_AP (m : nat) (cols P : list (list Q)) (v : list Q) : list Q :=
  lincomb m (map (fun p => dot p v) P) cols.

Definition apply_PA (m : nat) (cols P : list (list Q)) (r : list Q) : list Q :=
  lincomb m (map (fun a => dot r a) cols) P.

(** The Penrose equations in that form: [A P A = A] column by column,
    [P A P = P] row by row, and the symmetry of [A P] and of [P A] as
    bilinear forms. *)
Record penrose (m : nat) (cols P : list (list Q)) : Prop := {
  pen_len : length P = length cols;
  pen_cols : Forall (fun a => length a = m) cols;
  pen_rows : Forall (fun p => length p = m) P;
  pen1 : Forall (fun a => veq (apply_AP m cols P a) a) cols;
  pen2 : Forall (fun p => veq (apply_PA m cols P p) p) P;
  pen3 : forall u v, length u = m -> length v = m ->
           dot u (apply_AP m cols P v) == dot (apply_AP m cols P u) v;
  pen4 : forall x y, length x = length cols -> length y = length cols ->
           dot (lincomb m x P) (lincomb m y cols)
           == dot (lincomb m y P) (lincomb m x cols)
}.

(** The rows of the next pseudo-inverse, for a last row [b]. *)
Definition step_rows (P : list (list Q)) (a b : list Q) : list (list Q) :=
  map (fun p => vsub p (scale (dot p a) b)) P ++ [b].

(** [greville_step] without the reduction of the fractions. *)
Definition step0 (m : nat) (cols P : list (list Q)) (a : list Q)
  : list (list Q) * list (list Q) :=
  let d := map (fun p => dot p a) P in
  let c := vsub a (lincomb m d cols) in
  (cols ++ [a],
   step_rows P a (if is_zero c
                  then scale (/ (1 + dot d d)) (lincomb m d P)
                  else scale (/ dot c c) c)).

(** The unit vector [e_i] of length [n]. *)
Fixpoint unit_vec (n i : nat) : list Q :=
  match n with
  | O => []
  | S n' => match i with
            | O => 1 :: repeat 0 n'
            | S i' => 0 :: unit_vec n' i'
            end
  end.

(* ================================================================= *)
(** ** Floats with numpy's special values *)

Inductive npfloat : Type :=
| Fin (q : Q)
| PInf
| NInf
| NaN.

Definition np_neg (x : npfloat) : npfloat :=
  match x with
  | Fin a => Fin (- a)
  | PInf => NInf
  | NInf => PInf
  | NaN => NaN
  end.

Definition np_add (x y : npfloat) : npfloat :=
  match x, y with
  | NaN, _ | _, NaN => NaN
  | Fin a, Fin b => Fin (a + b)
  | PInf, NInf | NInf, PInf => NaN
  | PInf, _ | _, PInf => PInf
  | NInf, _ | _, NInf => NInf
  end.

Definition np_sub (x y : npfloat) : npfloat := np_add x (np_neg y).

(** The sign of a rational as a float factor of an infinity. *)
Definition signed_inf (s : comparison) (pos : npfloat) : npfloat :=
  match s with
  | Gt => pos
  | Lt => np_neg pos
  | Eq => NaN
  end.

Definition np_mul (x y : npfloat) : npfloat :=
  match x, y with
  | NaN, _ | _, NaN => NaN
  | Fin a, Fin b => Fin (a * b)
  | Fin a, PInf | PInf, Fin a => signed_inf (a ?= 0) PInf
  | Fin a, NInf | NInf, Fin a => signed_inf (a ?= 0) NInf
  | PInf, PInf | NInf, NInf => PInf
  | PInf, NInf | NInf, PInf => NInf
  end.

(** Division of numpy scalars: a zero divisor gives [nan] or an infinity
    (with a warning), never an exception.  Zero divisors are taken as [+0.0]. *)
Definition np_div (x y : npfloat) : npfloat :=
  match x, y with
  | NaN, _ | _, NaN => NaN
  | Fin a, Fin b => if Qeq_bool b 0 then signed_inf (a ?= 0) PInf else Fin (a / b)
  | Fin _, _ => Fin 0
  | PInf, Fin b => if Qle_bool 0 b then PInf else NInf
  | NInf, Fin b => if Qle_bool 0 b then NInf else PInf
  | _, _ => NaN
  end.

(** [np.sum] of an array of floats. *)
Definition np_sum (v : list npfloat) : npfloat := fold_right np_add (Fin 0) v.

(** [np.mean] of a 1-D array: [nan] (with a warning) when it is empty. *)
Definition np_mean (v : list Q) : npfloat :=
  np_div (Fin (vsum v)) (Fin (inject_Z (Z.of_nat (length v)))).

(** [x] is the finite float [q]. *)
Definition np_is (x : npfloat) (q : Q) : Prop :=
  match x with
  | Fin a => a == q
  | _ => False
  end.

(** The value of [np.sqrt] at a non-negative rational, kept as its radicand:
    [Sqrt a] and [Sqrt b] are the same number exactly when [a == b]. *)
Record surd : Type := Sqrt { radicand : Q }.

Definition np_sqrt (q : Q) : surd := Sqrt q.

(** Python's [a / n] for a float and an [int]. *)
Definition py_div (a : Q) (n : nat) : result Q :=
  match n with
  | O => raise ZeroDivisionError
  | S _ => ok (a / inject_Z (Z.of_nat n))
  end.

(** [a[i]] on a 1-D array, for an index that is not negative. *)
Definition getitem (a : list Q) (i : nat) : result Q :=
  match nth_error a i with
  | Some x => ok x
  | None => raise IndexError
  end.

(** [a -= g] on a 1-D array [a]: [g] is broadcast to the shape of [a]. *)
Definition isub (a g : list Q) : result (list Q) :=
  if Nat.eqb (length g) (length a) then ok (vsub a g)
  else match g with
       | [w] => ok (map (fun x => x - w) a)
       | _ => raise (ValueError BroadcastMismatch)
       end.

(** [X[:, 1:]] *)
Definition drop_col0 (M : array2 Q) : array2 Q :=
  mk2 (ncols M - 1) (map (skipn 1) (rows M)).

(** [M ** j], elementwise. *)
Definition np_pow (M : array2 Q) (j : nat) : array2 Q :=
  mk2 (ncols M) (map (map (fun x => x ^ Z.of_nat j)) (rows M)).

(* ================================================================= *)
(** ** class LinearRegressor *)

Module LinearRegressor.

(** The attributes of an instance; [None] is Python's [None]. *)
Record t : Type := mk {
  coefficients : option (list Q);
  intercept : option Q
}.

(** The instance [self] and what has been printed so far: a line
    ["Epoch e: MSE = v"] is the pair [(e, v)]. *)
Record world : Type := World {
  self : t;
  stdout : list (nat * npfloat)
}.

Definition M (A : Type) : Type := Eff world A.

Definition get_self : M t := fun w => (ok (self w), w).

Definition set_coefficients (c : list Q) : M unit :=
  fun w => (ok tt, World (mk (Some c) (intercept (self w))) (stdout w)).

Definition set_intercept (b : Q) : M unit :=
  fun w => (ok tt, World (mk (coefficients (self w)) (Some b)) (stdout w)).

Definition print (line : nat * npfloat) : M unit :=
  fun w => (ok tt, World (self w) (stdout w ++ [line])).

Definition __init__ : t := mk None None.

Definition predict (X : ndarray) : M (list Q) :=
  s <- get_self ;;
  match coefficients s, intercept s with
  | Some w, Some b =>
      match X with
      | Arr1 x =>
          w1 <- lift (getitem w 1) ;;
          ret (map (fun xi => w1 * xi + b) x)
      | Arr2 X =>
          Xw <- lift (matvec X w) ;;
          ret (map (fun v => v + b) Xw)
      end
  | _, _ => throw (ValueError ModelNotFitted)
  end.

Definition fit_multiple (X : ndarray) (y : list Q) : M unit :=
  let X := match X with Arr1 x => reshape_col x | Arr2 X => X end in
  let X := np_c_ones X in
  let XT := transpose X in
  beta <- lift (rbind (matmul XT X) (fun G =>
                rbind (matmul (pinv G) XT) (fun H => matvec H y))) ;;
  b <- lift (getitem beta 0) ;;
  let w := skipn 1 beta in
  set_intercept b ;;
  set_coefficients w.

(** One pass of the loop of [fit_gradient_descent]. *)
Definition gd_epoch (X : array2 Q) (y : list Q) (learning_rate : Q) (m : nat)
    (epoch : nat) : M unit :=
  predictions <- predict (Arr2 (drop_col0 X)) ;;
  error <- lift (broadcast1 Qminus predictions y) ;;
  gradient_w <- collect (seq 1 (np_ndim (Arr2 X) - 1)) (fun j =>
      k <- lift (py_div (2 * learning_rate) m) ;;
      Xe <- lift (matvec (np_pow (transpose X) j) error) ;;
      ret (k * vsum Xe)) ;;
  k <- lift (py_div 2 m) ;;
  let gradient_b := k * vsum error in
  s <- get_self ;;
  b <- match intercept s with Some b => ret b | None => throw TypeError end ;;
  set_intercept (b - learning_rate * gradient_b) ;;
  s <- get_self ;;
  w <- match coefficients s with Some w => ret w | None => throw TypeError end ;;
  w' <- lift (isub w gradient_w) ;;
  set_coefficients w' ;;
  if Nat.eqb (epoch mod 1000) 0
  then print (epoch, np_mean (map (fun e => e ^ 2) error))
  else ret tt.

(** [rnd] is the sequence of numbers that [np.random.rand] draws. *)
Definition fit_gradient_descent (X : ndarray) (y : list Q) (learning_rate : Q)
    (iterations : Z) (rnd : nat -> Q) : M unit :=
  let m := length y in
  X <- match X with Arr1 _ => throw IndexError | Arr2 X => ret X end ;;
  p <- match ncols X with
       | O => throw (ValueError NegativeDimensions)
       | S p => ret p
       end ;;
  set_coefficients (map (fun i => rnd i * 0.01) (seq 0 p)) ;;
  set_intercept (rnd p * 0.01) ;;
  for_each (seq 0 (Z.to_nat iterations)) (gd_epoch X y learning_rate m).

Definition fit (X : ndarray) (y : list Q) (method : string) (learning_rate : Q)
    (iterations : Z) (rnd : nat -> Q) : M unit :=
  if negb (existsb (String.eqb method) ["least_squares"; "gradient_descent"]%string)
  then throw (ValueError (MethodNotAvailable method))
  else
    let X := match X with Arr1 x => reshape_col x | Arr2 X => X end in
    let X_with_bias := np_insert_col0 1 X in
    if String.eqb method "least_squares"
    then fit_multiple (Arr2 X_with_bias) y
    else if String.eqb method "gradient_descent"
    then fit_gradient_descent (Arr2 X_with_bias) y learning_rate iterations rnd
    else ret tt.

End LinearRegressor.

(* ================================================================= *)
(** ** evaluate_regression *)

(** The returned dictionary, by key. *)
Record metrics : Type := Metrics { R2 : npfloat; RMSE : surd; MAE : Q }.

Definition evaluate_regression (y_true y_pred : list Q) : result metrics :=
  let N := length y_true in
  rbind (broadcast1 Qminus y_true y_pred) (fun residual =>
  let RSS := vsum (map (fun e => e ^ 2) residual) in
  let data_mean := np_mean y_true in
  let TSS := np_sum (map (fun yi => let d := np_sub (Fin yi) data_mean in np_mul d d)
                         y_true) in
  let r_squared := np_sub (Fin 1) (np_div (Fin RSS) TSS) in
  rbind (py_div 1 N) (fun k =>
  let rmse := np_sqrt (k * vsum (map (fun e => e ^ 2) residual)) in
  rbind (py_div 1 N) (fun k' =>
  let mae := k' * vsum (map Qabs residual) in
  ok (Metrics r_squared rmse mae)))).

(* ================================================================= *)
(** ** one_hot_encode *)

(** A cell of the feature table: a category label or a number.  The tables
    are arrays of dtype object, whose cells are Python strings and floats
    and keep their own type, or of dtype float64 (numbers only).  An array
    of a fixed-width string dtype is not one of them: numpy would store
    into it every number as its decimal string. *)
Inductive cell : Type :=
| Str (s : string)
| Num (q : Q).

(** Python's ordering of two cells; a string and a number do not compare. *)
Definition cell_compare (a b : cell) : result comparison :=
  match a, b with
  | Str s, Str t => ok (String.compare s t)
  | Num p, Num q => ok (p ?= q)
  | _, _ => raise TypeError
  end.

Fixpoint insert_unique (x : cell) (l : list cell) : result (list cell) :=
  match l with
  | [] => ok [x]
  | y :: l' =>
      rbind (cell_compare x y) (fun c =>
      match c with
      | Lt => ok (x :: l)
      | Eq => ok l
      | Gt => rbind (insert_unique x l') (fun r => ok (y :: r))
      end)
  end.

(** [np.unique]: the distinct values, in increasing order. *)
Fixpoint np_unique (col : list cell) : result (list cell) :=
  match col with
  | [] => ok []
  | x :: col' => rbind (np_unique col') (insert_unique x)
  end.

(** [np.searchsorted(a, v)] for one value: the first position of the sorted
    array [a] whose entry is not below [v]. *)
Fixpoint searchsorted (a : list cell) (v : cell) : result nat :=
  match a with
  | [] => ok O
  | u :: a' =>
      rbind (cell_compare u v) (fun c =>
      match c with
      | Lt => rbind (searchsorted a' v) (fun r => ok (S r))
      | _ => ok O
      end)
  end.

(** Row [r] of the identity matrix of size [k]: a single 1, at position [r]. *)
Definition unit_row (k r : nat) : list cell :=
  map (fun j => Num (if Nat.eqb j r then 1 else 0)) (seq 0 k).

(** [np.eye(k)[r]] *)
Definition eye_row (k r : nat) : result (list cell) :=
  if Nat.ltb r k then ok (unit_row k r) else raise IndexError.

Fixpoint map_result {A B} (f : A -> result B) (l : list A) : result (list B) :=
  match l with
  | [] => ok []
  | x :: l' => rbind (f x) (fun y => rbind (map_result f l') (fun ys => ok (y :: ys)))
  end.

(** An integer index into an axis of size [n]; negative ones count from the end. *)
Definition axis_index (n : nat) (i : Z) : result nat :=
  if ((0 <=? i) && (i <? Z.of_nat n))%Z then ok (Z.to_nat i)
  else if ((- Z.of_nat n <=? i) && (i <? 0))%Z then ok (Z.to_nat (Z.of_nat n + i))
  else raise IndexError.

(** The position a slice bound [i] denotes on an axis of size [n]. *)
Definition slice_bound (n : nat) (i : Z) : nat :=
  if (i <? 0)%Z then Z.to_nat (Z.max 0 (Z.of_nat n + i))
  else Z.to_nat (Z.min i (Z.of_nat n)).

Definition cell0 : cell := Num 0.

(** [X[:, index]] *)
Definition getcol (X : array2 cell) (index : Z) : result (list cell) :=
  rbind (axis_index (ncols X) index) (fun j =>
  ok (map (fun r => nth j r cell0) (rows X))).

(** [np.delete(X, index, axis=1)] *)
Definition np_delete (X : array2 cell) (index : Z) : result (array2 cell) :=
  rbind (axis_index (ncols X) index) (fun j =>
  ok (mk2 (ncols X - 1) (map (fun r => firstn j r ++ skipn (S j) r) (rows X)))).

(** [np.concatenate((X[:, :index], one_hot, X[:, index:]), axis=1)], where
    [one_hot] has [k] columns and as many rows as [X].  [X] has dtype object
    or float64, and so has the result: the entries of the float64 block
    [one_hot] stay the numbers they are.  (Joined to an array of a
    fixed-width string dtype they would become the strings '1.0' and
    '0.0'.) *)
Definition splice (X : array2 cell) (index : Z) (k : nat) (one_hot : list (list cell))
  : array2 cell :=
  let j := slice_bound (ncols X) index in
  mk2 (j + k + (ncols X - j))
      (map (fun p => firstn j (fst p) ++ snd p ++ skipn j (fst p))
           (combine (rows X) one_hot)).

(** [sorted(l, reverse=True)] *)
Fixpoint insert_desc (x : Z) (l : list Z) : list Z :=
  match l with
  | [] => [x]
  | y :: l' => if (y <=? x)%Z then x :: l else y :: insert_desc x l'
  end.

Definition sorted_reverse (l : list Z) : list Z := fold_right insert_desc [] l.

(** Arrays are objects: a variable holds a reference into the store, and
    every numpy call that builds an array allocates a new one. *)
Definition ref : Type := nat.
Definition store : Type := list (array2 cell).

(** The array a reference denotes in a store. *)
Definition deref (r : ref) (h : store) : array2 cell := nth r h (mk2 0 []).

Definition load (r : ref) : Eff store (array2 cell) :=
  fun h => (ok (deref r h), h).

Definition alloc (a : array2 cell) : Eff store ref :=
  fun h => (ok (length h), h ++ [a]).

(** The indicator block of a categorical column, with its column count. *)
Definition indicator (categorical_column : list cell) (drop_first : bool)
  : result (nat * list (list cell)) :=
  rbind (np_unique categorical_column) (fun unique_values =>
  let k := length unique_values in
  rbind (map_result (searchsorted unique_values) categorical_column) (fun ranks =>
  rbind (map_result (eye_row k) ranks) (fun one_hot =>
  if drop_first then ok ((k - 1)%nat, map (skipn 1) one_hot)
  else ok (k, one_hot)))).

Definition one_hot_encode (X : ref) (categorical_indices : list Z) (drop_first : bool)
  : Eff store ref :=
  a <- load X ;;
  X_transformed <- alloc a ;;
  for_fold (sorted_reverse categorical_indices) X_transformed
    (fun X_transformed index =>
       a <- load X_transformed ;;
       categorical_column <- lift (getcol a index) ;;
       one_hot <- lift (indicator categorical_column drop_first) ;;
       d <- lift (np_delete a index) ;;
       X_transformed <- alloc d ;;
       a <- load X_transformed ;;
       alloc (splice a index (fst one_hot) (snd one_hot))).

(* ================================================================= *)
(** ** Vocabulary of the specification *)

(** The rank of a label among the sorted levels "a", "b", "c". *)
Definition abc_rank (c : cell) : nat :=
  match c with
  | Str s => if String.eqb s "a" then 0 else if String.eqb s "b" then 1 else 2
  | Num _ => 2
  end.

(** Membership in the levels "a", "b", "c". *)
Definition is_abc (c : cell) : Prop :=
  c = Str "a" \/ c = Str "b" \/ c = Str "c".

Definition has_level (s : string) (col : list cell) : bool :=
  existsb (fun c => match c with Str t => String.eqb s t | Num _ => false end) col.

(** Residual = prediction - target, per row of the feature matrix [X], for
    the coefficients [w] and the intercept [b]. *)
Definition residuals (X : array2 Q) (w : list Q) (b : Q) (y : list Q) : list Q :=
  map (fun p => dot (fst p) w + b - snd p) (combine (rows X) y).

(** [sum_i r_i * (sum_k x_ik)] *)
Definition weighted_row_sums (X : array2 Q) (r : list Q) : Q :=
  vsum (map (fun p => vsum (fst p) * snd p) (combine (rows X) r)).

(** What an epoch of gradient descent does to a model [(w, b)], as the
    specification words it, for a given scalar [step]: the intercept loses
    [learning_rate * (2/m) * sum(residual)] and every coefficient loses
    [step].  [X] is the feature matrix handed to [fit], [m] the number of
    targets. *)
Definition epoch_update (X : array2 Q) (y : list Q) (learning_rate : Q)
    (epoch : nat) (w : list Q) (b : Q) (step : Q) : Prop :=
  let m := inject_Z (Z.of_nat (length y)) in
  forall out, exists w' b' out',
    LinearRegressor.gd_epoch (np_insert_col0 1 X) y learning_rate (length y) epoch
      (LinearRegressor.World (LinearRegressor.mk (Some w) (Some b)) out)
    = (ok tt, LinearRegressor.World (LinearRegressor.mk (Some w') (Some b')) out') /\
    b' == b - learning_rate * (2 / m * vsum (residuals X w b y)) /\
    Forall2 (fun wk' wk => wk' == wk - step) w' w.

(** The step the specification gives: [(2 * learning_rate / m) * sum(residual)]. *)
Definition stated_step (X : array2 Q) (y : list Q) (learning_rate : Q)
    (w : list Q) (b : Q) : Q :=
  2 * learning_rate / inject_Z (Z.of_nat (length y)) * vsum (residuals X w b y).

(** The step the code takes: the sum of all entries of [X_with_bias.T @ residual]. *)
Definition summed_step (X : array2 Q) (y : list Q) (learning_rate : Q)
    (w : list Q) (b : Q) : Q :=
  let r := residuals X w b y in
  2 * learning_rate / inject_Z (Z.of_nat (length y)) * (vsum r + weighted_row_sums X r).

(** The normal equation as the specification words it:
    [beta = pinv(A^T A) A^T y] for a design matrix [A]. *)
Definition normal_equation (A : array2 Q) (y : list Q) : result (list Q) :=
  rbind (matmul (transpose A) A) (fun G =>
  rbind (matmul (pinv G) (transpose A)) (fun H => matvec H y)).



(** The model that [fit_gradient_descent] starts from, for [p] coefficients:
    [np.random.rand(p) * 0.01] and [np.random.rand() * 0.01], the draws being
    [rnd 0], ..., [rnd p]. *)
Definition gd_initial (rnd : nat -> Q) (p : nat) : LinearRegressor.t :=
  LinearRegressor.mk (Some (map (fun i => rnd i * 0.01) (seq 0 p)))
                     (Some (rnd p * 0.01)).

(** The epochs of a fit of [n] iterations at which a line is printed. *)
Definition printed_epochs (n : nat) : list nat :=
  filter (fun epoch => Nat.eqb (epoch mod 1000) 0) (seq 0 n).

(** The arithmetic mean, the sum of squares and the sum of squared
    deviations from the mean, on rationals. *)
Definition mean_of (y : list Q) : Q := vsum y / inject_Z (Z.of_nat (length y)).

Definition sum_squares (v : list Q) : Q := vsum (map (fun e => e ^ 2) v).

Definition total_sum_squares (y : list Q) : Q :=
  vsum (map (fun yi => (yi + - mean_of y) * (yi + - mean_of y)) y).

(** A vector whose entries are all the same number. *)
Definition constant (y : list Q) : Prop :=
  forall a b, In a y -> In b y -> a == b.

(** One pass of the loop of [one_hot_encode], on the array [X_transformed]
    refers to. *)
Definition encode_step (drop_first : bool) (X_transformed : ref) (index : Z)
  : Eff store ref :=
  a <- load X_transformed ;;
  categorical_column <- lift (getcol a index) ;;
  one_hot <- lift (indicator categorical_column drop_first) ;;
  d <- lift (np_delete a index) ;;
  X_transformed <- alloc d ;;
  a <- load X_transformed ;;
  alloc (splice a index (fst one_hot) (snd one_hot)).

(** Whether a cell holds a string. *)
Definition is_str (c : cell) : bool :=
  match c with Str _ => true | Num _ => false end.

(** The order of cells: [u] below [v], and [u] equal to [v] (for numbers,
    as floats: the same number). *)
Definition cell_lt (u v : cell) : Prop := cell_compare u v = ok Lt.
Definition cell_eq (u v : cell) : Prop := cell_compare u v = ok Eq.

(** The rank of a value among sorted levels. *)
Definition level_rank (levels : list cell) (v : cell) : nat :=
  match searchsorted levels v with inr r => r | inl _ => O end.

(** The indicator entries of a row whose categorical value is [v]. *)
Definition indicator_row (levels : list cell) (drop_first : bool) (v : cell)
  : list cell :=
  let row := unit_row (length levels) (level_rank levels v) in
  if drop_first then skipn 1 row else row.

(** What a pass of the loop makes of an array, as a function of the array. *)
Definition encode_column (drop_first : bool) (a : array2 cell) (index : Z)
  : result (array2 cell) :=
  rbind (getcol a index) (fun categorical_column =>
  rbind (indicator categorical_column drop_first) (fun one_hot =>
  rbind (np_delete a index) (fun d =>
  ok (splice d index (fst one_hot) (snd one_hot))))).

(** What the caller of [one_hot_encode] sees of a run: the exception, or the
    content of the array returned. *)
Definition outcome (run : result ref * store) : result (array2 cell) :=
  match fst run with
  | inl e => inl e
  | inr X' => inr (deref X' (snd run))
  end.

(** The passes for a list of indices, one after the other, each on what
    the one before made; an exception ends them. *)
Definition encode_columns (drop_first : bool) (a : array2 cell) (indices : list Z)
  : result (array2 cell) :=
  fold_left (fun r index => rbind r (fun a' => encode_column drop_first a' index))
            indices (ok a).

(** For a matrix given by its columns [C]: the column of the Gram matrix
    [A^T A] that belongs to a column [cb] of [A], and row [i] of [A]. *)
Definition gram_column (C : list (list Q)) (cb : list Q) : list Q :=
  map (fun ca => dot ca cb) C.

Definition row_at (C : list (list Q)) (i : nat) : list Q :=
  map (fun c => nth i c 0) C.

(** The Gram matrix [A^T A], and the trace of a square array. *)
Definition gram (A : array2 Q) : array2 Q :=
  mk2 (ncols A) (map (fun a => map (dot a) (columns A)) (columns A)).

Definition trace (M : array2 Q) : Q :=
  vsum (map (fun i => nth i (nth i (rows M) []) 0) (seq 0 (ncols M))).

(** [np.linalg.pinv] sets to zero the singular values that are not above
    [1e-15] times the largest one.  For the Gram matrix [G = A^T A], which
    is symmetric and positive semi-definite, the singular values are the
    eigenvalues: the largest is at most [trace G], and the inverse of the
    smallest one that is not zero is at most [trace (pinv G)].  When
    [trace G * trace (pinv G) < 1e15], every singular value that is not zero
    is therefore above the cutoff, and what [np.linalg.pinv] returns is the
    pseudo-inverse itself, up to rounding. *)
Definition pinv_cutoff_clear (A : array2 Q) : Prop :=
  trace (gram A) * trace (pinv (gram A)) < inject_Z (10 ^ 15).

(** C7 as the specification words it, for the column that [index]
    designates in the array [X] refers to: [one_hot_encode] returns an
    array in which that column is replaced, where it stood, by three
    indicator columns, the row of the identity matrix at the rank of the
    label (by the last two of them under [drop_first]); the other columns
    keep their places, and [X] is unchanged. *)
Definition replaced_by_indicators (h : store) (X : ref) (index : Z)
    (drop_first : bool) : Prop :=
  exists (j : nat) (X' : ref) (h' : store),
    axis_index (ncols (deref X h)) index = ok j /\
    one_hot_encode X [index] drop_first h = (ok X', h') /\
    deref X' h'
    = mk2 (ncols (deref X h) + if drop_first then 1 else 2)
          (map (fun r => firstn j r
                         ++ (if drop_first
                             then skipn 1 (unit_row 3 (abc_rank (nth j r cell0)))
                             else unit_row 3 (abc_rank (nth j r cell0)))
                         ++ skipn (S j) r)
               (rows (deref X h))) /\
    deref X h' = deref X h.

(* ================================================================= *)
(** * Properties *)

Import LinearRegressor.

(* ----------------------------------------------------------------- *)
(** ** [fit]: the method argument *)

(** C5. Whatever the state of the model and the data, [fit] with a method
    other than "least_squares" and "gradient_descent" raises the
    [ValueError] "Method ... not available" (the InvalidArgument kind) as
    its first action: the fitted intercept and coefficients, and the output
    printed so far, are exactly what they were. *)
Theorem fit_unknown_method_raises :
  forall (w : world) (X : ndarray) (y : list Q) (method : string)
         (learning_rate : Q) (iterations : Z) (rnd : nat -> Q),
    method <> "least_squares"%string ->
    method <> "gradient_descent"%string ->
    fit X y method learning_rate iterations rnd w
    = (raise (ValueError (MethodNotAvailable method)), w).
Proof.
  intros w X y method lr it rnd Hls Hgd.
  unfold fit. cbn [existsb].
  apply String.eqb_neq in Hls, Hgd.
  rewrite Hls, Hgd. reflexivity.
Qed.

Lemma fit_unknown_method_raises_witness :
  let w := World (mk (Some [2]) (Some 3)) [] in
  fit (Arr1 [0; 1]) [3; 5] "bogus" 0.01 1000 (fun _ => 0) w
  = (raise (ValueError (MethodNotAvailable "bogus")), w).
Proof.
  intro w.
  apply (fit_unknown_method_raises w (Arr1 [0; 1]) [3; 5] "bogus");
    discriminate.
Defined.

(* ----------------------------------------------------------------- *)
(** ** [predict] on a model that is not fitted *)

(** C6. On a model whose coefficients or intercept are still [None],
    [predict] raises the [ValueError] "Model is not yet fitted" (the
    NotFitted kind) for every input, and changes nothing. *)
Theorem predict_unfitted_raises :
  forall (w : world) (X : ndarray),
    coefficients (self w) = None \/ intercept (self w) = None ->
    predict X w = (raise (ValueError ModelNotFitted), w).
Proof.
  intros w X H. unfold predict, bind, get_self. cbn.
  destruct H as [H | H]; rewrite H.
  - reflexivity.
  - destruct (coefficients (self w)); reflexivity.
Qed.

Lemma predict_unfitted_raises_witness :
  predict (Arr2 (mk2 1 [[1]; [2]])) (World __init__ [])
  = (raise (ValueError ModelNotFitted), World __init__ []).
Proof.
  apply (predict_unfitted_raises (World __init__ [])).
  left. reflexivity.
Defined.

(* ----------------------------------------------------------------- *)
(** ** The store *)

Lemma deref_alloc_old (h : store) (a : array2 cell) (r : ref) :
  (r < length h)%nat -> deref r (h ++ [a]) = deref r h.
Proof. intro H. unfold deref. now rewrite app_nth1. Qed.

Lemma deref_alloc_new (h : store) (a : array2 cell) :
  deref (length h) (h ++ [a]) = a.
Proof. unfold deref. now rewrite nth_middle. Qed.

(* ----------------------------------------------------------------- *)
(** ** [one_hot_encode] with no categorical column *)

(** C9. With an empty list of categorical indices [one_hot_encode] returns
    a new array (a reference that was not in use, hence not that of [X])
    whose content equals that of [X]; [X] and every other array of the
    store are left as they were. *)
Theorem one_hot_encode_no_indices :
  forall (h : store) (X : ref) (drop_first : bool),
    (X < length h)%nat ->
    exists (X' : ref) (h' : store),
      one_hot_encode X [] drop_first h = (ok X', h') /\
      X' <> X /\
      deref X' h' = deref X h /\
      (forall r : ref, (r < length h)%nat -> deref r h' = deref r h).
Proof.
  intros h X drop_first HX.
  exists (length h), (h ++ [deref X h]).
  split; [reflexivity | split; [lia | split]].
  - apply deref_alloc_new.
  - intros r Hr. now apply deref_alloc_old.
Qed.

Lemma one_hot_encode_no_indices_witness :
  let X := mk2 2 [[Str "a"; Num 1]; [Str "b"; Num 2]] in
  exists (X' : ref) (h' : store),
    one_hot_encode 0%nat [] true [X] = (ok X', h') /\
    X' <> 0%nat /\
    deref X' h' = deref 0%nat [X] /\
    (forall r : ref, (r < length [X])%nat -> deref r h' = deref r [X]).
Proof.
  intro X. apply (one_hot_encode_no_indices [X] 0%nat true).
  simpl. lia.
Defined.

(* ----------------------------------------------------------------- *)
(** ** [one_hot_encode] of one column *)

Lemma slice_bound_le (n : nat) (i : Z) : (slice_bound n i <= n)%nat.
Proof. unfold slice_bound. destruct (i <? 0)%Z eqn:E; lia. Qed.

Lemma slice_bound_nat (n j : nat) :
  (j <= n)%nat -> slice_bound n (Z.of_nat j) = j.
Proof.
  intro H. unfold slice_bound.
  destruct (Z.of_nat j <? 0)%Z eqn:E; lia.
Qed.

Lemma axis_index_nat (n j : nat) :
  (j < n)%nat -> axis_index n (Z.of_nat j) = ok j.
Proof.
  intro H. unfold axis_index.
  replace ((0 <=? Z.of_nat j)%Z && (Z.of_nat j <? Z.of_nat n)%Z) with true.
  - now rewrite Nat2Z.id.
  - symmetry. apply andb_true_iff. split; lia.
Qed.

Lemma combine_map_same {A B C} (f : A -> B) (g : A -> C) (l : list A) :
  combine (map f l) (map g l) = map (fun x => (f x, g x)) l.
Proof. induction l as [|x l IH]; simpl; [reflexivity | now rewrite IH]. Qed.

(** The store after encoding a single column: the copy of [X], the array
    without the column, and the array with the indicator block. *)
Lemma one_hot_encode_single (h : store) (X : ref) (index : Z) (drop_first : bool)
    (j : nat) (k : nat) (one_hot : list (list cell)) :
  let a := deref X h in
  let col := map (fun r => nth j r cell0) (rows a) in
  let d := mk2 (ncols a - 1) (map (fun r => firstn j r ++ skipn (S j) r) (rows a)) in
  axis_index (ncols a) index = ok j ->
  indicator col drop_first = ok (k, one_hot) ->
  one_hot_encode X [index] drop_first h
  = (ok (S (S (length h))), h ++ [a; d; splice d index k one_hot]).
Proof.
  intros a col d Hj Hind.
  assert (Hlen : length (h ++ [a]) = S (length h))
    by (rewrite length_app; simpl; lia).
  assert (Hd : deref (S (length h)) ((h ++ [a]) ++ [d]) = d)
    by (rewrite <- Hlen; apply deref_alloc_new).
  unfold one_hot_encode, sorted_reverse. cbn [fold_right insert_desc for_fold].
  unfold bind, load, alloc, lift, ret, ok.
  rewrite deref_alloc_new. fold a.
  unfold getcol, np_delete. rewrite Hj. cbn [rbind ok]. fold col d.
  rewrite Hind. unfold ok. rewrite Hlen, Hd. cbn [fst snd].
  f_equal.
  - f_equal. rewrite length_app, Hlen. simpl. lia.
  - rewrite <- !app_assoc. reflexivity.
Qed.

(** Where the arrays of [one_hot_encode_single] are found afterwards. *)
Lemma deref_after_single (h : store) (X : ref) (a d e : array2 cell) :
  (X < length h)%nat ->
  deref (S (S (length h))) (h ++ [a; d; e]) = e /\
  deref X (h ++ [a; d; e]) = deref X h.
Proof.
  intro HX. unfold deref. split.
  - rewrite app_nth2 by lia.
    replace (S (S (length h)) - length h)%nat with 2%nat by lia. reflexivity.
  - now rewrite app_nth1.
Qed.

(* ----------------------------------------------------------------- *)
(** ** A column with a single level *)

Lemma string_compare_refl (s : string) : String.compare s s = Eq.
Proof.
  pose proof (String.compare_antisym s s) as H.
  destruct (String.compare s s); simpl in H; congruence.
Qed.

Lemma cell_compare_Eq_sym (a b : cell) :
  cell_compare a b = ok Eq -> cell_compare b a = ok Eq.
Proof.
  destruct a as [s|p], b as [t|q]; simpl; try discriminate; intro H;
    injection H as H; unfold ok; f_equal.
  - apply String.compare_eq_iff in H. subst. apply string_compare_refl.
  - apply Qeq_alt in H. apply Qeq_alt. now symmetry.
Qed.

Lemma cell_compare_Eq_trans (a b c : cell) :
  cell_compare a b = ok Eq -> cell_compare b c = ok Eq -> cell_compare a c = ok Eq.
Proof.
  destruct a as [s|p], b as [t|q], c as [u|r]; simpl; try discriminate;
    intros H1 H2; injection H1 as H1; injection H2 as H2; unfold ok; f_equal.
  - apply String.compare_eq_iff in H1, H2. subst. apply string_compare_refl.
  - apply Qeq_alt in H1, H2. apply Qeq_alt. now rewrite H1.
Qed.

Lemma np_unique_single_level (col : list cell) (v : cell) :
  col <> [] ->
  Forall (fun c => cell_compare c v = ok Eq) col ->
  exists u, np_unique col = ok [u] /\ cell_compare u v = ok Eq.
Proof.
  induction col as [|x col IH]; intros Hne Hall; [congruence|].
  inversion Hall as [|x' col' Hx Hcol]; subst.
  destruct col as [|x2 col].
  - exists x. split; [reflexivity | assumption].
  - destruct IH as [u [Hu Huv]]; [discriminate | assumption |].
    exists u. split; [|assumption].
    change (np_unique (x :: x2 :: col))
      with (rbind (np_unique (x2 :: col)) (insert_unique x)).
    rewrite Hu. cbn [rbind ok insert_unique].
    rewrite (cell_compare_Eq_trans x v u Hx (cell_compare_Eq_sym _ _ Huv)).
    reflexivity.
Qed.

Lemma map_result_const {A B} (f : A -> result B) (b : B) (l : list A) :
  Forall (fun x => f x = ok b) l ->
  map_result f l = ok (map (fun _ => b) l).
Proof.
  induction 1 as [|x l Hx Hl IH]; simpl; [reflexivity|].
  rewrite Hx, IH. reflexivity.
Qed.

Lemma indicator_single_level (col : list cell) (v : cell) :
  col <> [] ->
  Forall (fun c => cell_compare c v = ok Eq) col ->
  indicator col true = ok (0%nat, map (fun _ => []) col).
Proof.
  intros Hne Hall.
  destruct (np_unique_single_level col v Hne Hall) as [u [Hu Huv]].
  unfold indicator. rewrite Hu. cbn [rbind ok length].
  rewrite (map_result_const (searchsorted [u]) 0%nat).
  - cbn [rbind ok]. rewrite (map_result_const (eye_row 1) [Num 1]).
    + cbn [rbind ok]. rewrite !map_map. reflexivity.
    + apply Forall_forall. intros x Hx. apply in_map_iff in Hx.
      destruct Hx as [_ [<- _]]. reflexivity.
  - apply Forall_forall. intros x Hx.
    rewrite Forall_forall in Hall. specialize (Hall x Hx).
    cbn [searchsorted].
    rewrite (cell_compare_Eq_trans u v x Huv (cell_compare_Eq_sym _ _ Hall)).
    reflexivity.
Qed.

(** Splicing an empty block gives the array back. *)
Lemma splice_empty (d : array2 cell) (index : Z) (col : list cell) :
  length col = nrows d ->
  splice d index 0 (map (fun _ => []) col) = d.
Proof.
  intro Hlen. destruct d as [c rs]. unfold splice, nrows in *. cbn [ncols rows] in *.
  f_equal.
  - pose proof (slice_bound_le c index). lia.
  - revert col Hlen. induction rs as [|r rs IH]; intros [|x col] Hlen;
      simpl in *; try reflexivity; try discriminate.
    rewrite firstn_skipn. f_equal. apply IH. lia.
Qed.

(** C8. When the categorical column holds a single value (in at least one
    row), [one_hot_encode] with [drop_first=True] does not raise, and the
    array it returns is the input without that column: the feature
    contributes no output column.  The input array is unchanged. *)
Theorem one_hot_encode_single_level_drop_first :
  forall (h : store) (X : ref) (index : Z) (j : nat) (v : cell),
    (X < length h)%nat ->
    axis_index (ncols (deref X h)) index = ok j ->
    rows (deref X h) <> [] ->
    (forall r, In r (rows (deref X h)) -> cell_compare (nth j r cell0) v = ok Eq) ->
    exists (X' : ref) (h' : store),
      one_hot_encode X [index] true h = (ok X', h') /\
      deref X' h' = mk2 (ncols (deref X h) - 1)
                        (map (fun r => firstn j r ++ skipn (S j) r) (rows (deref X h))) /\
      deref X h' = deref X h.
Proof.
  intros h X index j v HX Hj Hne Hall.
  set (a := deref X h) in *.
  set (col := map (fun r => nth j r cell0) (rows a)).
  set (d := mk2 (ncols a - 1) (map (fun r => firstn j r ++ skipn (S j) r) (rows a))).
  assert (Hind : indicator col true = ok (0%nat, map (fun _ => []) col)).
  { apply indicator_single_level with (v := v).
    - subst col. destruct (rows a); [congruence | discriminate].
    - subst col. apply Forall_forall. intros c Hc. apply in_map_iff in Hc.
      destruct Hc as [r [<- Hr]]. now apply Hall. }
  pose proof (one_hot_encode_single h X index true j _ _ Hj Hind) as Hrun.
  fold a d in Hrun.
  rewrite splice_empty in Hrun
    by (subst col d; unfold nrows; cbn [rows]; now rewrite !length_map).
  eexists _, _. split; [exact Hrun|].
  apply deref_after_single. exact HX.
Qed.

Lemma one_hot_encode_single_level_drop_first_witness :
  let X := mk2 2 [[Num 1; Str "x"]; [Num 2; Str "x"]]%string in
  exists (X' : ref) (h' : store),
    one_hot_encode 0%nat [1%Z] true [X] = (ok X', h') /\
    deref X' h' = mk2 1 [[Num 1]; [Num 2]] /\
    deref 0%nat h' = X.
Proof.
  intro X.
  apply (one_hot_encode_single_level_drop_first [X] 0%nat 1%Z 1%nat (Str "x")).
  - simpl. lia.
  - reflexivity.
  - discriminate.
  - intros r [<- | [<- | []]]; reflexivity.
Defined.

(* ----------------------------------------------------------------- *)
(** ** A column with the levels "a", "b", "c" *)

Lemma has_level_In (s : string) (col : list cell) :
  In (Str s) col -> has_level s col = true.
Proof.
  intro H. apply existsb_exists. exists (Str s). split; [assumption|].
  apply String.eqb_refl.
Qed.

Lemma np_unique_abc (col : list cell) :
  Forall is_abc col ->
  np_unique col = ok ((if has_level "a" col then [Str "a"] else []) ++
                      (if has_level "b" col then [Str "b"] else []) ++
                      (if has_level "c" col then [Str "c"] else [])).
Proof.
  induction 1 as [|x col Hx Hcol IH]; [reflexivity|].
  cbn [np_unique]. rewrite IH.
  destruct Hx as [-> | [-> | ->]];
    destruct (has_level "a" col) eqn:Ea, (has_level "b" col) eqn:Eb,
             (has_level "c" col) eqn:Ec;
    unfold has_level in *; cbn [existsb]; rewrite ?Ea, ?Eb, ?Ec; reflexivity.
Qed.

Lemma searchsorted_abc (col : list cell) :
  Forall is_abc col ->
  map_result (searchsorted [Str "a"; Str "b"; Str "c"]) col = ok (map abc_rank col).
Proof.
  induction 1 as [|x col Hx Hcol IH]; [reflexivity|].
  cbn [map_result]. rewrite IH.
  destruct Hx as [-> | [-> | ->]]; reflexivity.
Qed.

Lemma eye_rows_abc (col : list cell) :
  map_result (eye_row 3) (map abc_rank col)
  = ok (map (fun c => unit_row 3 (abc_rank c)) col).
Proof.
  induction col as [|x col IH]; [reflexivity|].
  cbn [map map_result]. rewrite IH.
  assert (H : (abc_rank x < 3)%nat).
  { destruct x as [s|q]; simpl; [|lia].
    destruct (String.eqb s "a"); [lia|]. destruct (String.eqb s "b"); lia. }
  unfold eye_row. apply Nat.ltb_lt in H. rewrite H. reflexivity.
Qed.

Lemma indicator_abc (col : list cell) (drop_first : bool) :
  (forall c, In c col <-> is_abc c) ->
  indicator col drop_first
  = ok (if drop_first
        then (2%nat, map (fun c => skipn 1 (unit_row 3 (abc_rank c))) col)
        else (3%nat, map (fun c => unit_row 3 (abc_rank c)) col)).
Proof.
  intro H.
  assert (Hall : Forall is_abc col) by (apply Forall_forall; intros c Hc; now apply H).
  unfold indicator. rewrite (np_unique_abc col Hall).
  rewrite !has_level_In by (apply H; unfold is_abc; auto).
  cbn [app rbind ok length].
  rewrite (searchsorted_abc col Hall). cbn [rbind ok].
  rewrite eye_rows_abc. cbn [rbind ok].
  destruct drop_first; [|reflexivity].
  rewrite map_map. reflexivity.
Qed.

(** Splicing a block into the place of the deleted column [j]. *)
Lemma splice_at_deleted (a : array2 cell) (j k : nat) (f : cell -> list cell) :
  wf a -> (j < ncols a)%nat ->
  splice (mk2 (ncols a - 1) (map (fun r => firstn j r ++ skipn (S j) r) (rows a)))
         (Z.of_nat j) k
         (map f (map (fun r => nth j r cell0) (rows a)))
  = mk2 (j + k + (ncols a - 1 - j))
        (map (fun r => firstn j r ++ f (nth j r cell0) ++ skipn (S j) r) (rows a)).
Proof.
  intros Hwf Hj. unfold splice. cbn [ncols rows].
  rewrite slice_bound_nat by lia. f_equal.
  rewrite (map_map (fun r => nth j r cell0) f), combine_map_same, map_map.
  apply map_ext_in. intros r Hr. cbn [fst snd].
  unfold wf in Hwf. rewrite Forall_forall in Hwf. specialize (Hwf r Hr).
  assert (Hl : length (firstn j r) = j) by (rewrite length_firstn; lia).
  rewrite firstn_app, skipn_app, Hl, Nat.sub_diag. cbn [firstn skipn].
  rewrite firstn_firstn, Nat.min_id, app_nil_r.
  rewrite <- Hl at 3. rewrite skipn_all. reflexivity.
Qed.

(** The two runs on a column of labels "a", "b", "c" at a column index
    that is not negative, with the arrays they return. *)
Lemma one_hot_encode_three_levels_run :
  forall (h : store) (X : ref) (j : nat),
    (X < length h)%nat ->
    wf (deref X h) ->
    (j < ncols (deref X h))%nat ->
    (forall c, In c (map (fun r => nth j r cell0) (rows (deref X h))) <-> is_abc c) ->
    (exists (X' : ref) (h' : store),
       one_hot_encode X [Z.of_nat j] false h = (ok X', h') /\
       deref X' h'
       = mk2 (ncols (deref X h) + 2)
             (map (fun r => firstn j r ++ unit_row 3 (abc_rank (nth j r cell0))
                                     ++ skipn (S j) r)
                  (rows (deref X h))) /\
       deref X h' = deref X h) /\
    (exists (X' : ref) (h' : store),
       one_hot_encode X [Z.of_nat j] true h = (ok X', h') /\
       deref X' h'
       = mk2 (ncols (deref X h) + 1)
             (map (fun r => firstn j r ++ skipn 1 (unit_row 3 (abc_rank (nth j r cell0)))
                                     ++ skipn (S j) r)
                  (rows (deref X h))) /\
       deref X h' = deref X h) /\
    unit_row 3 (abc_rank (Str "a")) = [Num 1; Num 0; Num 0] /\
    unit_row 3 (abc_rank (Str "b")) = [Num 0; Num 1; Num 0] /\
    unit_row 3 (abc_rank (Str "c")) = [Num 0; Num 0; Num 1].
Proof.
  intros h X j HX Hwf Hj Hcol.
  set (a := deref X h) in *.
  pose proof (axis_index_nat (ncols a) j Hj) as Hidx.
  repeat split; try reflexivity.
  - pose proof (one_hot_encode_single h X (Z.of_nat j) false j _ _ Hidx
                  (indicator_abc _ false Hcol)) as Hrun.
    fold a in Hrun. rewrite splice_at_deleted in Hrun by assumption.
    eexists _, _. split; [exact Hrun|].
    destruct (deref_after_single h X a
                (mk2 (ncols a - 1) (map (fun r => firstn j r ++ skipn (S j) r) (rows a)))
                (mk2 (j + 3 + (ncols a - 1 - j))
                   (map (fun r => firstn j r ++ unit_row 3 (abc_rank (nth j r cell0))
                                           ++ skipn (S j) r) (rows a))) HX)
      as [Hnew Hold].
    split; [|exact Hold]. rewrite Hnew. f_equal. lia.
  - pose proof (one_hot_encode_single h X (Z.of_nat j) true j _ _ Hidx
                  (indicator_abc _ true Hcol)) as Hrun.
    fold a in Hrun.
    rewrite (splice_at_deleted a j 2 (fun c => skipn 1 (unit_row 3 (abc_rank c))))
      in Hrun by assumption.
    eexists _, _. split; [exact Hrun|].
    destruct (deref_after_single h X a
                (mk2 (ncols a - 1) (map (fun r => firstn j r ++ skipn (S j) r) (rows a)))
                (mk2 (j + 2 + (ncols a - 1 - j))
                   (map (fun r => firstn j r
                                    ++ skipn 1 (unit_row 3 (abc_rank (nth j r cell0)))
                                    ++ skipn (S j) r) (rows a))) HX)
      as [Hnew Hold].
    split; [|exact Hold]. rewrite Hnew. f_equal. lia.
Qed.

(** C7, amended. Let column [j], for an index [j] that is not negative, of
    a rectangular array of dtype object hold exactly the labels "a", "b"
    and "c".  Without [drop_first] the column is replaced, where it stands,
    by three indicator columns: the cell of each row becomes the row of the
    identity matrix at the rank of its label, that is a single 1 and 0
    elsewhere.  With [drop_first] the first of the three columns is left
    out, so that two columns replace the original one and a row labelled "a"
    gets zeros only.  The input array is unchanged in both cases. *)
Theorem one_hot_encode_three_levels :
  forall (h : store) (X : ref) (j : nat),
    (X < length h)%nat ->
    wf (deref X h) ->
    (j < ncols (deref X h))%nat ->
    (forall c, In c (map (fun r => nth j r cell0) (rows (deref X h))) <-> is_abc c) ->
    replaced_by_indicators h X (Z.of_nat j) false /\
    replaced_by_indicators h X (Z.of_nat j) true /\
    unit_row 3 (abc_rank (Str "a")) = [Num 1; Num 0; Num 0] /\
    unit_row 3 (abc_rank (Str "b")) = [Num 0; Num 1; Num 0] /\
    unit_row 3 (abc_rank (Str "c")) = [Num 0; Num 0; Num 1].
Proof.
  intros h X j HX Hwf Hj Hcol.
  destruct (one_hot_encode_three_levels_run h X j HX Hwf Hj Hcol)
    as [[X1 [h1 [Hrun1 [Hnew1 Hold1]]]] [[X2 [h2 [Hrun2 [Hnew2 Hold2]]]] Hrows]].
  pose proof (axis_index_nat (ncols (deref X h)) j Hj) as Hidx.
  split; [|split; [|exact Hrows]].
  - exists j, X1, h1. repeat split; assumption.
  - exists j, X2, h2. repeat split; assumption.
Qed.

Lemma one_hot_encode_three_levels_witness :
  let X := mk2 2 [[Num 1; Str "b"]; [Num 2; Str "a"]; [Num 3; Str "c"]]%string in
  replaced_by_indicators [X] 0%nat (Z.of_nat 1) false /\
  replaced_by_indicators [X] 0%nat (Z.of_nat 1) true /\
  unit_row 3 (abc_rank (Str "a")) = [Num 1; Num 0; Num 0] /\
  unit_row 3 (abc_rank (Str "b")) = [Num 0; Num 1; Num 0] /\
  unit_row 3 (abc_rank (Str "c")) = [Num 0; Num 0; Num 1].
Proof.
  intro X.
  apply (one_hot_encode_three_levels [X] 0%nat 1%nat).
  - simpl. lia.
  - repeat constructor.
  - simpl. lia.
  - intro c. simpl. unfold is_abc. split; intro H.
    + destruct H as [H | [H | [H | []]]]; subst; auto.
    + destruct H as [H | [H | H]]; subst; auto.
Defined.

(** The arrays returned for the labels "b", "a", "c" in column 1. *)
Lemma one_hot_encode_three_levels_example :
  let X := mk2 2 [[Num 1; Str "b"]; [Num 2; Str "a"]; [Num 3; Str "c"]]%string in
  (exists (h' : store),
     one_hot_encode 0%nat [1%Z] false [X] = (ok 3%nat, h') /\
     deref 3%nat h' = mk2 4 [[Num 1; Num 0; Num 1; Num 0];
                             [Num 2; Num 1; Num 0; Num 0];
                             [Num 3; Num 0; Num 0; Num 1]]) /\
  (exists (h' : store),
     one_hot_encode 0%nat [1%Z] true [X] = (ok 3%nat, h') /\
     deref 3%nat h' = mk2 3 [[Num 1; Num 1; Num 0];
                             [Num 2; Num 0; Num 0];
                             [Num 3; Num 0; Num 1]]).
Proof. split; eexists; split; reflexivity. Qed.

(** C7 as stated fails for a negative index.  On three columns the index
    -1 designates the last one; the indicator columns are inserted at the
    slice bound -1 of the array that is left when that column has been
    deleted, which is before the last of the two remaining columns, not
    where the encoded column stood. *)
Lemma one_hot_encode_three_levels_negative_index :
  ~ replaced_by_indicators
      [mk2 3 [[Num 1; Num 7; Str "b"]; [Num 2; Num 8; Str "a"];
              [Num 3; Num 9; Str "c"]]%string]
      0%nat (-1)%Z false.
Proof.
  intros [j [X' [h' [Hj [Hrun [Hnew _]]]]]].
  vm_compute in Hj. injection Hj as <-.
  vm_compute in Hrun. injection Hrun as <- <-.
  vm_compute in Hnew. discriminate.
Qed.

(** The same column designated by any valid index, negative ones included:
    the block has the same content, and is placed by the slice bounds
    [:index] and [index:] taken on the array without the column. *)
Lemma one_hot_encode_three_levels_any_index (h : store) (X : ref) (index : Z)
    (j : nat) (drop_first : bool) :
  (X < length h)%nat ->
  axis_index (ncols (deref X h)) index = ok j ->
  (forall c, In c (map (fun r => nth j r cell0) (rows (deref X h))) <-> is_abc c) ->
  let j' := slice_bound (ncols (deref X h) - 1) index in
  let block c := if drop_first then skipn 1 (unit_row 3 (abc_rank c))
                 else unit_row 3 (abc_rank c) in
  exists (X' : ref) (h' : store),
    one_hot_encode X [index] drop_first h = (ok X', h') /\
    deref X' h'
    = mk2 (ncols (deref X h) - 1 + if drop_first then 2 else 3)
          (map (fun r => firstn j' (firstn j r ++ skipn (S j) r)
                         ++ block (nth j r cell0)
                         ++ skipn j' (firstn j r ++ skipn (S j) r))
               (rows (deref X h))) /\
    deref X h' = deref X h.
Proof.
  intros HX Hidx Hcol j' block.
  set (a := deref X h) in *.
  set (d := mk2 (ncols a - 1) (map (fun r => firstn j r ++ skipn (S j) r) (rows a))).
  pose proof (slice_bound_le (ncols a - 1) index) as Hle. fold j' in Hle.
  destruct drop_first.
  - pose proof (one_hot_encode_single h X index true j _ _ Hidx
                  (indicator_abc _ true Hcol)) as Hrun.
    fold a d in Hrun. eexists _, _. split; [exact Hrun|].
    destruct (deref_after_single h X a d
                (splice d index 2
                   (map (fun c => skipn 1 (unit_row 3 (abc_rank c)))
                      (map (fun r => nth j r cell0) (rows a)))) HX) as [Hnew Hold].
    split; [|exact Hold]. rewrite Hnew. unfold splice, d. cbn [ncols rows]. fold j'.
    f_equal; [lia|]. rewrite map_map, combine_map_same, map_map. reflexivity.
  - pose proof (one_hot_encode_single h X index false j _ _ Hidx
                  (indicator_abc _ false Hcol)) as Hrun.
    fold a d in Hrun. eexists _, _. split; [exact Hrun|].
    destruct (deref_after_single h X a d
                (splice d index 3
                   (map (fun c => unit_row 3 (abc_rank c))
                      (map (fun r => nth j r cell0) (rows a)))) HX) as [Hnew Hold].
    split; [|exact Hold]. rewrite Hnew. unfold splice, d. cbn [ncols rows]. fold j'.
    f_equal; [lia|]. rewrite map_map, combine_map_same, map_map. reflexivity.
Qed.

(** With the index -1 on three columns the block lands before the last of
    the remaining columns, not where the encoded column was. *)
Lemma one_hot_encode_negative_index_example :
  let X := mk2 3 [[Num 1; Num 7; Str "b"]; [Num 2; Num 8; Str "a"];
                  [Num 3; Num 9; Str "c"]]%string in
  exists (h' : store),
    one_hot_encode 0%nat [(-1)%Z] false [X] = (ok 3%nat, h') /\
    deref 3%nat h' = mk2 5 [[Num 1; Num 0; Num 1; Num 0; Num 7];
                            [Num 2; Num 1; Num 0; Num 0; Num 8];
                            [Num 3; Num 0; Num 0; Num 1; Num 9]].
Proof. eexists. split; reflexivity. Qed.

(* ----------------------------------------------------------------- *)
(** ** [evaluate_regression] on perfect predictions *)

Lemma np_sum_Fin {A} (f : A -> Q) (l : list A) :
  np_sum (map (fun x => Fin (f x)) l) = Fin (vsum (map f l)).
Proof.
  induction l as [|x l IH]; [reflexivity|].
  unfold np_sum in *. cbn [map fold_right]. rewrite IH. reflexivity.
Qed.

Lemma vsum_cons (x : Q) (l : list Q) : vsum (x :: l) = x + vsum l.
Proof. reflexivity. Qed.

Lemma vsum_all_zero (l : list Q) : Forall (fun x => x == 0) l -> vsum l == 0.
Proof.
  induction 1 as [|x l Hx Hl IH]; [reflexivity|].
  rewrite vsum_cons, Hx, IH. reflexivity.
Qed.

Lemma vsum_nonneg (l : list Q) : Forall (fun x => 0 <= x) l -> 0 <= vsum l.
Proof.
  induction 1 as [|x l Hx Hl IH]; [apply Qle_refl|].
  rewrite vsum_cons. lra.
Qed.

Lemma vsum_zero_all (l : list Q) :
  Forall (fun x => 0 <= x) l -> vsum l == 0 -> Forall (fun x => x == 0) l.
Proof.
  induction 1 as [|x l Hx Hl IH]; intro H; constructor;
    rewrite vsum_cons in H; pose proof (vsum_nonneg l Hl) as Hn.
  - lra.
  - apply IH. lra.
Qed.


Lemma inject_nat_nonzero (n : nat) : ~ inject_Z (Z.of_nat (S n)) == 0.
Proof.
  intro H. unfold Qeq in H. simpl in H. lia.
Qed.

Lemma Qsquare_nonneg (a : Q) : 0 <= a * a.
Proof.
  destruct (Qlt_le_dec a 0) as [H | H].
  - setoid_replace (a * a) with ((- a) * (- a)) by ring.
    apply Qmult_le_0_compat; lra.
  - now apply Qmult_le_0_compat.
Qed.

Lemma Qsquare_zero (a : Q) : a * a == 0 -> a == 0.
Proof. intro H. now destruct (Qmult_integral _ _ H). Qed.

(** The total sum of squares of a vector with two different entries. *)
Lemma TSS_nonzero (y : list Q) (mu : Q) :
  (exists a b, In a y /\ In b y /\ ~ a == b) ->
  ~ vsum (map (fun yi => (yi + - mu) * (yi + - mu)) y) == 0.
Proof.
  intros [a [b [Ha [Hb Hab]]]] H.
  apply vsum_zero_all in H.
  - rewrite Forall_forall in H.
    assert (Hz : forall x, In x y -> x == mu).
    { intros x Hx.
      assert (Hsq : (x + - mu) * (x + - mu) == 0)
        by (apply H, in_map_iff; exists x; split; [reflexivity | assumption]).
      apply Qsquare_zero in Hsq. lra. }
    apply Hab. rewrite (Hz a Ha), (Hz b Hb). reflexivity.
  - apply Forall_forall. intros x Hx. apply in_map_iff in Hx.
    destruct Hx as [yi [<- _]]. apply Qsquare_nonneg.
Qed.




(** On the empty vector [1/N] raises. *)
Lemma evaluate_regression_empty_raises :
  evaluate_regression [] [] = raise ZeroDivisionError.
Proof. reflexivity. Qed.

(* ----------------------------------------------------------------- *)
(** ** One epoch of gradient descent *)

Lemma bind_ok {S A B} (c : Eff S A) (k : A -> Eff S B) (s s' : S) (a : A) :
  c s = (ok a, s') -> bind c k s = k a s'.
Proof. intro H. unfold bind. rewrite H. reflexivity. Qed.

Lemma drop_insert_col0 (c : Q) (X : array2 Q) : drop_col0 (np_insert_col0 c X) = X.
Proof.
  destruct X as [n rs]. unfold drop_col0, np_insert_col0. cbn [ncols rows].
  replace (S n - 1)%nat with n by lia.
  rewrite map_map. cbn [skipn]. now rewrite map_id.
Qed.

Lemma predict_2d (X : array2 Q) (w : list Q) (b : Q) (out : list (nat * npfloat)) :
  ncols X = length w ->
  predict (Arr2 X) (World (mk (Some w) (Some b)) out)
  = (ok (map (fun v => v + b) (map (fun a => dot a w) (rows X))),
     World (mk (Some w) (Some b)) out).
Proof.
  intro H. unfold predict, bind, get_self, lift, matvec, ret. cbn.
  rewrite H, Nat.eqb_refl. reflexivity.
Qed.

Lemma combine_map_l {A B C} (f : A -> C) (l : list A) (l' : list B) :
  combine (map f l) l' = map (fun p => (f (fst p), snd p)) (combine l l').
Proof.
  revert l'. induction l as [|x l IH]; intros [|y l']; simpl; try reflexivity.
  now rewrite IH.
Qed.

(** The residuals that an epoch computes are those of the specification. *)
Lemma epoch_residuals (X : array2 Q) (w : list Q) (b : Q) (y : list Q) :
  length y = nrows X ->
  broadcast1 Qminus (map (fun v => v + b) (map (fun a => dot a w) (rows X))) y
  = ok (residuals X w b y).
Proof.
  intro H. unfold broadcast1, nrows in *.
  rewrite !length_map, H, Nat.eqb_refl.
  unfold residuals. rewrite map_map, combine_map_l, map_map. reflexivity.
Qed.

Lemma vsum_map_add {A} (f g : A -> Q) (l : list A) :
  vsum (map (fun x => f x + g x) l) == vsum (map f l) + vsum (map g l).
Proof.
  induction l as [|x l IH]; cbn [map]; rewrite ?vsum_cons.
  - reflexivity.
  - rewrite IH. ring.
Qed.

Lemma vsum_map_zero {A} (l : list A) : vsum (map (fun _ => 0) l) == 0.
Proof.
  induction l as [|x l IH]; cbn [map]; rewrite ?vsum_cons.
  - reflexivity.
  - rewrite IH. ring.
Qed.

(** Summing the entries of a row by position. *)
Lemma vsum_by_position (row : list Q) (c : Q) :
  vsum (map (fun j => nth j row 0 ^ Z.of_nat 1 * c) (seq 0 (length row)))
  == vsum row * c.
Proof.
  induction row as [|x row IH].
  - cbn. ring.
  - cbn [length seq map]. rewrite <- seq_shift, map_map, !vsum_cons.
    cbn [nth]. rewrite IH. cbn. ring.
Qed.

(** The sum of all entries of [(X.T ** 1) @ r], row by row of [X]. *)
Lemma vsum_transpose_matvec (rs : list (list Q)) (n : nat) :
  Forall (fun row => length row = n) rs ->
  forall r : list Q,
    length r = length rs ->
    vsum (map (fun j => dot (map (fun x => x ^ Z.of_nat 1) (column j rs)) r) (seq 0 n))
    == vsum (map (fun p => vsum (fst p) * snd p) (combine rs r)).
Proof.
  induction 1 as [|row rs Hrow Hrs IH]; intros r Hr.
  - cbn [column map dot combine]. apply vsum_map_zero.
  - destruct r as [|ri r]; [discriminate|].
    cbn [combine map fst snd]. rewrite vsum_cons.
    unfold column in *. cbn [map dot].
    rewrite (vsum_map_add (fun j => nth j row 0 ^ Z.of_nat 1 * ri)).
    rewrite IH by (simpl in Hr; lia).
    rewrite <- Hrow, vsum_by_position. reflexivity.
Qed.

Lemma weighted_row_sums_bias (rs : list (list Q)) (r : list Q) :
  length r = length rs ->
  vsum (map (fun p => vsum (fst p) * snd p) (combine (map (cons 1) rs) r))
  == vsum r + vsum (map (fun p => vsum (fst p) * snd p) (combine rs r)).
Proof.
  revert r. induction rs as [|row rs IH]; intros [|ri r] Hr; try discriminate.
  - reflexivity.
  - cbn [map combine fst snd]. rewrite !vsum_cons, IH by (simpl in Hr; lia).
    ring.
Qed.

Lemma isub_scalar (w : list Q) (s : Q) :
  exists w', isub w [s] = ok w' /\ Forall2 (fun wk' wk => wk' == wk - s) w' w.
Proof.
  unfold isub. destruct (Nat.eqb (length [s]) (length w)) eqn:E.
  - apply Nat.eqb_eq in E. destruct w as [|a [|a' w]]; try discriminate.
    eexists. split; [reflexivity|]. constructor; [reflexivity | constructor].
  - eexists. split; [reflexivity|].
    clear E. induction w as [|a w IH]; cbn [map]; constructor; [reflexivity | exact IH].
Qed.

Lemma bind_lift_ok {S A B} (r : result A) (k : A -> Eff S B) (s : S) (a : A) :
  r = ok a -> bind (lift r) k s = k a s.
Proof. intros ->. reflexivity. Qed.

Lemma py_div_nonzero (a : Q) (n : nat) :
  n <> 0%nat -> py_div a n = ok (a / inject_Z (Z.of_nat n)).
Proof. destruct n; [congruence | reflexivity]. Qed.

Lemma residuals_length (X : array2 Q) (w : list Q) (b : Q) (y : list Q) :
  length y = nrows X -> length (residuals X w b y) = nrows X.
Proof.
  intro H. unfold residuals, nrows in *. rewrite length_map, length_combine. lia.
Qed.

(** The sum of the entries of [(X_with_bias.T ** 1) @ r]. *)
Lemma vsum_bias_gradient (X : array2 Q) (r : list Q) :
  wf X -> length r = nrows X ->
  exists Xe,
    matvec (np_pow (transpose (np_insert_col0 1 X)) 1) r = ok Xe /\
    vsum Xe == vsum r + weighted_row_sums X r.
Proof.
  intros Hwf Hr. unfold matvec, np_pow, transpose, np_insert_col0, columns, nrows in *.
  cbn [ncols rows]. rewrite length_map, Hr, Nat.eqb_refl.
  eexists. split; [reflexivity|].
  rewrite !map_map.
  rewrite (vsum_transpose_matvec (map (cons 1) (rows X)) (S (ncols X))).
  - now apply weighted_row_sums_bias.
  - apply Forall_forall. intros row Hrow. apply in_map_iff in Hrow.
    destruct Hrow as [row' [<- Hrow']]. unfold wf in Hwf.
    rewrite Forall_forall in Hwf. cbn [length]. now rewrite (Hwf row' Hrow').
  - now rewrite length_map.
Qed.

(** The state an epoch leaves behind. *)
Lemma gd_epoch_run (X : array2 Q) (y : list Q) (learning_rate : Q) (epoch : nat)
    (w : list Q) (b : Q) :
  wf X ->
  length w = ncols X ->
  length y = nrows X ->
  y <> [] ->
  epoch_update X y learning_rate epoch w b (summed_step X y learning_rate w b).
Proof.
  intros Hwf Hw Hy Hne out.
  assert (Hm : length y <> 0%nat) by (destruct y; [congruence | discriminate]).
  destruct (vsum_bias_gradient X (residuals X w b y) Hwf
              (residuals_length X w b y Hy)) as [Xe [HXe Hsum]].
  destruct (isub_scalar w (2 * learning_rate / inject_Z (Z.of_nat (length y)) * vsum Xe))
    as [w' [Hisub Hw']].
  unfold gd_epoch.
  rewrite drop_insert_col0.
  erewrite bind_ok by (apply predict_2d; congruence).
  erewrite bind_lift_ok by (apply epoch_residuals; assumption).
  cbn [np_ndim Nat.sub seq collect].
  unfold bind, lift, get_self, set_intercept, set_coefficients, ret.
  rewrite !py_div_nonzero by assumption. rewrite HXe.
  cbn [ok self intercept coefficients stdout]. rewrite Hisub.
  exists w'. unfold ok, print.
  assert (Hstep : Forall2 (fun wk' wk => wk' == wk - summed_step X y learning_rate w b)
                          w' w).
  { revert Hw'. apply Forall2_impl. intros wk' wk ->.
    unfold summed_step. rewrite Hsum. reflexivity. }
  destruct (Nat.eqb (epoch mod 1000) 0); eexists _, _;
    (split; [reflexivity | split; [reflexivity | exact Hstep]]).
Qed.

(** The epochs of a fit keep the model fitted, with one coefficient per
    feature column, so that each of them starts from a state to which
    [gd_epoch_run] applies. *)
Lemma gd_epochs_run (X : array2 Q) (y : list Q) (learning_rate : Q) :
  wf X ->
  length y = nrows X ->
  y <> [] ->
  forall (epochs : list nat) (w : list Q) (b : Q) (out : list (nat * npfloat)),
    length w = ncols X ->
    exists w' b' out',
      for_each epochs (gd_epoch (np_insert_col0 1 X) y learning_rate (length y))
               (World (mk (Some w) (Some b)) out)
      = (ok tt, World (mk (Some w') (Some b')) out') /\
      length w' = ncols X.
Proof.
  intros Hwf Hy Hne. induction epochs as [|e epochs IH]; intros w b out Hw.
  - exists w, b, out. split; [reflexivity | assumption].
  - destruct (gd_epoch_run X y learning_rate e w b Hwf Hw Hy Hne out)
      as [w1 [b1 [out1 [Hrun [_ Hstep]]]]].
    cbn [for_each]. erewrite bind_ok by exact Hrun.
    apply IH. rewrite (Forall2_length Hstep). exact Hw.
Qed.

(** [fit] with "gradient_descent" draws the initial parameters and runs
    [iterations] epochs; it succeeds on every rectangular [X] with one
    target per row, and at least one row. *)
Lemma fit_gradient_descent_runs (w0 : world) (X : array2 Q) (y : list Q)
    (learning_rate : Q) (iterations : Z) (rnd : nat -> Q) :
  wf X ->
  length y = nrows X ->
  y <> [] ->
  fit (Arr2 X) y "gradient_descent" learning_rate iterations rnd w0
  = for_each (seq 0 (Z.to_nat iterations))
             (gd_epoch (np_insert_col0 1 X) y learning_rate (length y))
             (World (mk (Some (map (fun i => rnd i * 0.01) (seq 0 (ncols X))))
                        (Some (rnd (ncols X) * 0.01)))
                    (stdout w0)) /\
  exists w' b' out',
    fit (Arr2 X) y "gradient_descent" learning_rate iterations rnd w0
    = (ok tt, World (mk (Some w') (Some b')) out') /\
    length w' = ncols X.
Proof.
  intros Hwf Hy Hne.
  assert (Hfit : fit (Arr2 X) y "gradient_descent" learning_rate iterations rnd w0
                 = for_each (seq 0 (Z.to_nat iterations))
                     (gd_epoch (np_insert_col0 1 X) y learning_rate (length y))
                     (World (mk (Some (map (fun i => rnd i * 0.01) (seq 0 (ncols X))))
                                (Some (rnd (ncols X) * 0.01)))
                            (stdout w0))) by reflexivity.
  split; [exact Hfit|]. rewrite Hfit.
  apply gd_epochs_run; try assumption.
  now rewrite length_map, length_seq.
Qed.

(** C4, amended. In an epoch of [fit] with "gradient_descent" on [m] rows
    the intercept gradient is [(2/m) * sum(residual)] and the intercept
    loses [learning_rate] times it.  Every coefficient loses one and the same
    scalar, which is [(2 * learning_rate / m)] times the sum of all entries
    of [X_with_bias.T @ residual], that is
    [(2 * learning_rate / m) * (sum_i residual_i + sum_i residual_i * sum_k x_ik)]:
    not a per-feature partial derivative, and not [sum(residual)] alone. *)
Theorem gd_epoch_summed_step :
  forall (X : array2 Q) (y : list Q) (learning_rate : Q) (epoch : nat)
         (w : list Q) (b : Q),
    wf X ->
    length w = ncols X ->
    length y = nrows X ->
    y <> [] ->
    epoch_update X y learning_rate epoch w b (summed_step X y learning_rate w b).
Proof.
  intros X y learning_rate epoch w b. apply gd_epoch_run.
Qed.

Lemma gd_epoch_summed_step_witness :
  epoch_update (mk2 1 [[1]]) [0] 0.01 0 [0.005] 0.005
               (summed_step (mk2 1 [[1]]) [0] 0.01 [0.005] 0.005).
Proof.
  apply gd_epoch_summed_step.
  - repeat constructor.
  - reflexivity.
  - reflexivity.
  - discriminate.
Defined.

(** C4 as stated fails: on one row with feature 1 and target 0, from the
    model (0.005, 0.005) with learning rate 0.01, the residual is 0.01 and
    the coefficient loses 0.0004, twice the stated 0.0002. *)
Lemma gd_epoch_not_stated_step :
  ~ epoch_update (mk2 1 [[1]]) [0] 0.01 0 [0.005] 0.005
                 (stated_step (mk2 1 [[1]]) [0] 0.01 [0.005] 0.005).
Proof.
  intro H. destruct (H []) as [w' [b' [out' [Hrun [_ Hw]]]]].
  vm_compute in Hrun. injection Hrun as <- <- <-.
  inversion Hw as [|wk' wk l l' Hq _]; subst.
  vm_compute in Hq. discriminate.
Qed.

(* ----------------------------------------------------------------- *)
(** ** The pseudo-inverse satisfies the Penrose equations *)

(** *** Vectors up to the representation of their entries *)
#[local] Instance veq_Equivalence : Equivalence veq.
Proof.
  split.
  - intro u. induction u; constructor; [reflexivity | assumption].
  - intros u v H. induction H; constructor; [now symmetry | assumption].
  - intros u v w H. revert w. induction H as [|a b u v Hab Huv IH]; intros w Hw.
    + inversion Hw. constructor.
    + inversion Hw as [|b' c v' w' Hbc Hvw]; subst. constructor.
      * now rewrite Hab.
      * now apply IH.
Qed.

Lemma veq_length (u v : list Q) : veq u v -> length u = length v.
Proof. apply Forall2_length. Qed.

#[local] Instance dot_Proper : Proper (veq ==> veq ==> Qeq) dot.
Proof.
  intros u u' Hu. induction Hu as [|a a' u u' Ha Hu IH]; intros v v' Hv.
  - reflexivity.
  - destruct Hv as [|b b' v v' Hb Hv]; [reflexivity|].
    cbn [dot]. rewrite Ha, Hb, (IH v v' Hv). reflexivity.
Qed.

#[local] Instance scale_Proper : Proper (Qeq ==> veq ==> veq) scale.
Proof.
  intros k k' Hk u u' Hu. induction Hu; constructor; [|assumption].
  now rewrite Hk, H.
Qed.

#[local] Instance vadd_Proper : Proper (veq ==> veq ==> veq) vadd.
Proof.
  intros u u' Hu. induction Hu as [|a a' u u' Ha Hu IH]; intros v v' Hv.
  - constructor.
  - destruct Hv as [|b b' v v' Hb Hv]; constructor.
    + now rewrite Ha, Hb.
    + now apply IH.
Qed.

#[local] Instance vsub_Proper : Proper (veq ==> veq ==> veq) vsub.
Proof.
  intros u u' Hu. induction Hu as [|a a' u u' Ha Hu IH]; intros v v' Hv.
  - constructor.
  - destruct Hv as [|b b' v v' Hb Hv]; constructor.
    + now rewrite Ha, Hb.
    + now apply IH.
Qed.

Lemma lowest_veq (v : list Q) : veq (lowest v) v.
Proof. induction v; constructor; [apply Qred_correct | assumption]. Qed.

Lemma is_zero_veq (u v : list Q) : veq u v -> is_zero u = is_zero v.
Proof.
  induction 1 as [|a b u v Hab Huv IH]; [reflexivity|].
  cbn [is_zero forallb]. fold (is_zero u) (is_zero v). rewrite IH. f_equal.
  destruct (Qeq_bool a 0) eqn:Ea, (Qeq_bool b 0) eqn:Eb; try reflexivity.
  - apply Qeq_bool_eq in Ea. apply Qeq_bool_neq in Eb. rewrite Hab in Ea. contradiction.
  - apply Qeq_bool_eq in Eb. apply Qeq_bool_neq in Ea. rewrite Hab in Ea. contradiction.
Qed.

(** *** Lengths *)
Lemma scale_length k v : length (scale k v) = length v.
Proof. apply length_map. Qed.

Lemma vadd_length u v : length u = length v -> length (vadd u v) = length u.
Proof.
  revert v. induction u as [|a u IH]; intros [|b v] H; simpl in *; try lia.
  rewrite IH; lia.
Qed.

Lemma vsub_length u v : length u = length v -> length (vsub u v) = length u.
Proof.
  revert v. induction u as [|a u IH]; intros [|b v] H; simpl in *; try lia.
  rewrite IH; lia.
Qed.

Lemma lincomb_length m k V :
  Forall (fun v => length v = m) V -> length (lincomb m k V) = m.
Proof.
  intro H. revert k. induction H as [|v V Hv HV IH]; intros [|x k]; cbn [lincomb];
    try apply repeat_length.
  rewrite vadd_length; rewrite scale_length; [assumption|]. now rewrite IH.
Qed.

(** *** The dot product is bilinear *)
Lemma dot_comm u v : dot u v == dot v u.
Proof.
  revert v. induction u as [|a u IH]; intros [|b v]; cbn [dot]; try reflexivity.
  rewrite IH. ring.
Qed.

Lemma dot_scale_l k u v : dot (scale k u) v == k * dot u v.
Proof.
  revert v. induction u as [|a u IH]; intros [|b v]; cbn [dot scale map];
    try ring. fold (scale k u). rewrite IH. ring.
Qed.

Lemma dot_vadd_l u v w :
  length u = length v -> dot (vadd u v) w == dot u w + dot v w.
Proof.
  revert v w. induction u as [|a u IH]; intros [|b v] [|c w] H; simpl in H;
    try discriminate; cbn [dot vadd]; try ring.
  rewrite IH by lia. ring.
Qed.

Lemma dot_vsub_l u v w :
  length u = length v -> dot (vsub u v) w == dot u w - dot v w.
Proof.
  revert v w. induction u as [|a u IH]; intros [|b v] [|c w] H; simpl in H;
    try discriminate; cbn [dot vsub]; try ring.
  rewrite IH by lia. ring.
Qed.

Lemma dot_zero_l m w : dot (repeat 0 m) w == 0.
Proof.
  revert w. induction m as [|m IH]; intros [|c w]; cbn [repeat dot]; try reflexivity.
  rewrite IH. ring.
Qed.

Lemma dot_scale_r k u v : dot u (scale k v) == k * dot u v.
Proof. now rewrite dot_comm, dot_scale_l, dot_comm. Qed.

Lemma dot_vadd_r u v w :
  length v = length w -> dot u (vadd v w) == dot u v + dot u w.
Proof. intro H. now rewrite dot_comm, dot_vadd_l, !(dot_comm u) by assumption. Qed.

Lemma dot_vsub_r u v w :
  length v = length w -> dot u (vsub v w) == dot u v - dot u w.
Proof. intro H. now rewrite dot_comm, dot_vsub_l, !(dot_comm u) by assumption. Qed.

Lemma dot_lincomb m k V w :
  Forall (fun v => length v = m) V ->
  dot (lincomb m k V) w == dot k (map (fun v => dot v w) V).
Proof.
  intro H. revert k. induction H as [|v V Hv HV IH]; intros [|x k]; cbn [lincomb map dot];
    try apply dot_zero_l.
  rewrite dot_vadd_l, dot_scale_l, IH; [reflexivity|].
  now rewrite scale_length, lincomb_length.
Qed.

(** *** Coordinates *)
Lemma veq_nth (u v : list Q) :
  length u = length v -> (forall i, nth i u 0 == nth i v 0) -> veq u v.
Proof.
  revert v. induction u as [|a u IH]; intros [|b v] Hl H; simpl in Hl;
    try discriminate; constructor.
  - exact (H 0%nat).
  - apply IH; [lia|]. intro i. exact (H (S i)).
Qed.

Lemma nth_veq (u v : list Q) i : veq u v -> nth i u 0 == nth i v 0.
Proof.
  intro H. revert i. induction H; intros [|i]; simpl; try reflexivity; auto.
Qed.

Lemma nth_scale k u i : nth i (scale k u) 0 == k * nth i u 0.
Proof.
  revert i. induction u as [|a u IH]; intros [|i]; simpl; try ring. apply IH.
Qed.

Lemma nth_vadd u v i :
  length u = length v -> nth i (vadd u v) 0 == nth i u 0 + nth i v 0.
Proof.
  revert v i. induction u as [|a u IH]; intros [|b v] [|i] H; simpl in *;
    try discriminate; try ring. apply IH. lia.
Qed.

Lemma nth_vsub u v i :
  length u = length v -> nth i (vsub u v) 0 == nth i u 0 - nth i v 0.
Proof.
  revert v i. induction u as [|a u IH]; intros [|b v] [|i] H; simpl in *;
    try discriminate; try ring. apply IH. lia.
Qed.

Lemma nth_zeros m i : nth i (repeat 0 m) 0 = 0.
Proof. revert i. induction m; intros [|i]; simpl; auto. Qed.

#[local] Instance nth_Proper (i : nat) : Proper (veq ==> Qeq ==> Qeq) (nth i).
Proof.
  intros u v H x y Hxy. revert i. induction H; intros [|i]; simpl; auto.
Qed.

Ltac vlen :=
  repeat first
    [ assumption
    | symmetry; assumption
    | rewrite scale_length
    | rewrite repeat_length
    | rewrite vadd_length
    | rewrite vsub_length
    | rewrite lincomb_length by assumption
    | reflexivity
    | congruence ].

Ltac vec_ring :=
  apply veq_nth;
  [ vlen
  | intro;
    repeat first
      [ rewrite nth_scale
      | rewrite nth_zeros
      | rewrite nth_vadd by vlen
      | rewrite nth_vsub by vlen ];
    try ring ].

(** *** Linear combinations *)
Section Lincomb.
Variable m : nat.

Lemma lincomb_nil_l V : lincomb m [] V = (repeat 0 m).
Proof. destruct V; reflexivity. Qed.

Lemma lincomb_nil_r k : lincomb m k [] = (repeat 0 m).
Proof. destruct k; reflexivity. Qed.

Lemma lincomb_Proper k k' V V' :
  veq k k' -> Forall2 veq V V' -> veq (lincomb m k V) (lincomb m k' V').
Proof.
  intro Hk. revert V V'. induction Hk as [|x x' k k' Hx Hk IH]; intros V V' HV.
  - rewrite !lincomb_nil_l. reflexivity.
  - destruct HV as [|v v' V V' Hv HV]; [reflexivity|].
    cbn [lincomb]. rewrite Hx, Hv, (IH V V' HV). reflexivity.
Qed.

Lemma Forall2_veq_refl (V : list (list Q)) : Forall2 veq V V.
Proof. induction V; constructor; [reflexivity | assumption]. Qed.

Lemma lincomb_coeffs k k' V : veq k k' -> veq (lincomb m k V) (lincomb m k' V).
Proof. intro H. apply lincomb_Proper; [assumption | apply Forall2_veq_refl]. Qed.

Lemma map_veq {A} (f g : A -> Q) (l : list A) :
  (forall x, In x l -> f x == g x) -> veq (map f l) (map g l).
Proof.
  induction l as [|x l IH]; intro H; constructor.
  - apply H. now left.
  - apply IH. intros y Hy. apply H. now right.
Qed.

Lemma lincomb_add k1 k2 V :
  length k1 = length k2 ->
  Forall (fun v => length v = m) V ->
  veq (lincomb m (vadd k1 k2) V) (vadd (lincomb m k1 V) (lincomb m k2 V)).
Proof.
  intros Hl HV. revert k1 k2 Hl.
  induction HV as [|v V Hv HV IH]; intros [|x1 k1] [|x2 k2] Hl; simpl in Hl;
    try discriminate; cbn [vadd lincomb]; [vec_ring | vec_ring | vec_ring |].
  rewrite (IH k1 k2) by lia.
  pose proof (lincomb_length m k1 V HV). pose proof (lincomb_length m k2 V HV).
  vec_ring.
Qed.

Lemma lincomb_sub k1 k2 V :
  length k1 = length k2 ->
  Forall (fun v => length v = m) V ->
  veq (lincomb m (vsub k1 k2) V) (vsub (lincomb m k1 V) (lincomb m k2 V)).
Proof.
  intros Hl HV. revert k1 k2 Hl.
  induction HV as [|v V Hv HV IH]; intros [|x1 k1] [|x2 k2] Hl; simpl in Hl;
    try discriminate; cbn [vsub lincomb]; [vec_ring | vec_ring | vec_ring |].
  rewrite (IH k1 k2) by lia.
  pose proof (lincomb_length m k1 V HV). pose proof (lincomb_length m k2 V HV).
  vec_ring.
Qed.

Lemma scale_cons t x k : scale t (x :: k) = (t * x) :: scale t k.
Proof. reflexivity. Qed.

Lemma lincomb_scale t k V :
  Forall (fun v => length v = m) V ->
  veq (lincomb m (scale t k) V) (scale t (lincomb m k V)).
Proof.
  intros HV. revert k.
  induction HV as [|v V Hv HV IH]; intros [|x k];
    rewrite ?scale_cons; cbn [lincomb]; rewrite ?lincomb_nil_l;
    [vec_ring | vec_ring | vec_ring |].
  rewrite (IH k).
  pose proof (lincomb_length m k V HV).
  vec_ring.
Qed.

Lemma lincomb_zero k V :
  Forall (fun x => x == 0) k ->
  Forall (fun v => length v = m) V ->
  veq (lincomb m k V) (repeat 0 m).
Proof.
  intros Hk HV. revert k Hk.
  induction HV as [|v V Hv HV IH]; intros k Hk; destruct Hk as [|x k Hx Hk];
    cbn [lincomb]; try reflexivity.
  rewrite (IH k Hk), Hx. vec_ring.
Qed.

Lemma lincomb_snoc k x V v :
  length k = length V ->
  Forall (fun v => length v = m) V -> length v = m ->
  veq (lincomb m (k ++ [x]) (V ++ [v])) (vadd (lincomb m k V) (scale x v)).
Proof.
  intros Hl HV Hv. revert k Hl.
  induction HV as [|v0 V Hv0 HV IH]; intros [|x0 k] Hl; simpl in Hl;
    try discriminate; cbn [app lincomb].
  - vec_ring.
  - rewrite (IH k) by lia. pose proof (lincomb_length m k V HV). vec_ring.
Qed.

Lemma lincomb_shifted k (G : list Q -> Q) (b : list Q) V :
  Forall (fun v => length v = m) V -> length b = m ->
  veq (lincomb m k (map (fun p => vsub p (scale (G p) b)) V))
      (vsub (lincomb m k V) (scale (dot k (map G V)) b)).
Proof.
  intros HV Hb. revert k.
  induction HV as [|v V Hv HV IH]; intros [|x k]; cbn [map lincomb dot];
    [vec_ring | vec_ring | vec_ring |].
  rewrite (IH k). pose proof (lincomb_length m k V HV). vec_ring.
Qed.

End Lincomb.

(** *** The operators [A P] and [P A] *)
Section Penrose.
Variable m : nat.

Section State.
Variables cols P : list (list Q).
Hypothesis Hcols : Forall (fun a => length a = m) cols.
Hypothesis Hrows : Forall (fun p => length p = m) P.

Let E := apply_AP m cols P.
Let K := apply_PA m cols P.

Lemma E_length v : length (E v) = m.
Proof. now apply lincomb_length. Qed.

Lemma K_length r : length (K r) = m.
Proof. now apply lincomb_length. Qed.

Lemma E_Proper u v : veq u v -> veq (E u) (E v).
Proof.
  intro H. apply lincomb_coeffs, map_veq. intros p _. now rewrite H.
Qed.

Lemma K_Proper u v : veq u v -> veq (K u) (K v).
Proof.
  intro H. apply lincomb_coeffs, map_veq. intros p _. now rewrite H.
Qed.

Lemma map_vadd {A} (f g : A -> Q) (l : list A) :
  map (fun x => f x + g x) l = vadd (map f l) (map g l).
Proof. induction l; simpl; [reflexivity | now f_equal]. Qed.

Lemma map_vsub {A} (f g : A -> Q) (l : list A) :
  map (fun x => f x - g x) l = vsub (map f l) (map g l).
Proof. induction l; simpl; [reflexivity | now f_equal]. Qed.

Lemma map_scale {A} t (f : A -> Q) (l : list A) :
  map (fun x => t * f x) l = scale t (map f l).
Proof. unfold scale. now rewrite map_map. Qed.

Lemma E_add u v : length u = m -> length v = m -> veq (E (vadd u v)) (vadd (E u) (E v)).
Proof.
  intros Hu Hv. unfold E, apply_AP.
  rewrite <- lincomb_add by (rewrite ?length_map; auto).
  rewrite <- map_vadd. apply lincomb_coeffs, map_veq. intros p _.
  apply dot_vadd_r. congruence.
Qed.

Lemma E_sub u v : length u = m -> length v = m -> veq (E (vsub u v)) (vsub (E u) (E v)).
Proof.
  intros Hu Hv. unfold E, apply_AP.
  rewrite <- lincomb_sub by (rewrite ?length_map; auto).
  rewrite <- map_vsub. apply lincomb_coeffs, map_veq. intros p _.
  apply dot_vsub_r. congruence.
Qed.

Lemma E_scale t v : veq (E (scale t v)) (scale t (E v)).
Proof.
  unfold E, apply_AP. rewrite <- lincomb_scale by assumption.
  rewrite <- map_scale. apply lincomb_coeffs, map_veq. intros p _.
  apply dot_scale_r.
Qed.

Lemma K_sub u v : length u = m -> length v = m -> veq (K (vsub u v)) (vsub (K u) (K v)).
Proof.
  intros Hu Hv. unfold K, apply_PA.
  rewrite <- lincomb_sub by (rewrite ?length_map; auto).
  rewrite <- map_vsub. apply lincomb_coeffs, map_veq. intros p _.
  apply dot_vsub_l. congruence.
Qed.

Lemma K_add u v : length u = m -> length v = m -> veq (K (vadd u v)) (vadd (K u) (K v)).
Proof.
  intros Hu Hv. unfold K, apply_PA.
  rewrite <- lincomb_add by (rewrite ?length_map; auto).
  rewrite <- map_vadd. apply lincomb_coeffs, map_veq. intros p _.
  apply dot_vadd_l. congruence.
Qed.

Lemma K_scale t v : veq (K (scale t v)) (scale t (K v)).
Proof.
  unfold K, apply_PA. rewrite <- lincomb_scale by assumption.
  rewrite <- map_scale. apply lincomb_coeffs, map_veq. intros p _.
  apply dot_scale_l.
Qed.

Lemma E_zeros : veq (E (repeat 0 m)) (repeat 0 m).
Proof.
  apply lincomb_zero; [|assumption].
  apply Forall_forall. intros x Hx. apply in_map_iff in Hx.
  destruct Hx as [p [<- _]]. now rewrite dot_comm, dot_zero_l.
Qed.

Lemma K_zeros : veq (K (repeat 0 m)) (repeat 0 m).
Proof.
  apply lincomb_zero; [|assumption].
  apply Forall_forall. intros x Hx. apply in_map_iff in Hx.
  destruct Hx as [p [<- _]]. now rewrite dot_zero_l.
Qed.

(** [u . (A P v) = (u^T A P) . v] *)
Lemma EK_dual u v : dot u (E v) == dot (K u) v.
Proof.
  unfold E, K, apply_AP, apply_PA.
  rewrite dot_comm, !dot_lincomb by assumption.
  rewrite dot_comm. apply dot_Proper.
  - apply map_veq. intros a _. apply dot_comm.
  - reflexivity.
Qed.

(** [A P] fixes the span of vectors it fixes. *)
Lemma E_span V y :
  Forall (fun a => length a = m) V ->
  Forall (fun a => veq (E a) a) V ->
  veq (E (lincomb m y V)) (lincomb m y V).
Proof.
  intros HV HE. revert y.
  induction HV as [|a V Ha HV IH]; intros y.
  - rewrite lincomb_nil_r. apply E_zeros.
  - apply Forall_cons_iff in HE. destruct HE as [HEa HEV].
    destruct y as [|x y]; [apply E_zeros|]. cbn [lincomb].
    rewrite E_add by (rewrite ?scale_length, ?lincomb_length; auto).
    rewrite E_scale, HEa, (IH HEV y). reflexivity.
Qed.

Lemma K_span V x :
  Forall (fun p => length p = m) V ->
  Forall (fun p => veq (K p) p) V ->
  veq (K (lincomb m x V)) (lincomb m x V).
Proof.
  intros HV HK. revert x.
  induction HV as [|p V Hp HV IH]; intros x.
  - rewrite lincomb_nil_r. apply K_zeros.
  - apply Forall_cons_iff in HK. destruct HK as [HKp HKV].
    destruct x as [|t x]; [apply K_zeros|]. cbn [lincomb].
    rewrite K_add by (rewrite ?scale_length, ?lincomb_length; auto).
    rewrite K_scale, HKp, (IH HKV x). reflexivity.
Qed.

End State.
End Penrose.

Lemma dot_map_zero {A} (l : list A) (y : list Q) : dot y (map (fun _ => 0) l) == 0.
Proof.
  revert y. induction l as [|x l IH]; intros [|t y]; cbn [map dot]; try reflexivity.
  rewrite IH. ring.
Qed.

(** *** Sums of squares *)
Lemma dot_self_nonneg (v : list Q) : 0 <= dot v v.
Proof.
  induction v as [|a v IH]; cbn [dot]; [apply Qle_refl|].
  pose proof (Qsquare_nonneg a). lra.
Qed.

Lemma dot_self_zero (v : list Q) : dot v v == 0 -> is_zero v = true.
Proof.
  induction v as [|a v IH]; cbn [dot is_zero forallb]; intro H; [reflexivity|].
  pose proof (Qsquare_nonneg a) as Ha. pose proof (dot_self_nonneg v) as Hv.
  assert (Ha0 : a * a == 0) by lra. assert (Hv0 : dot v v == 0) by lra.
  apply andb_true_iff. split.
  - apply Qeq_bool_iff. now destruct (Qmult_integral _ _ Ha0).
  - now apply IH.
Qed.

Lemma is_zero_zeros (v : list Q) : is_zero v = true -> veq v (repeat 0 (length v)).
Proof.
  induction v as [|a v IH]; cbn [is_zero forallb length repeat]; intro H; constructor.
  - apply andb_true_iff in H. now apply Qeq_bool_iff.
  - apply IH. now apply andb_true_iff in H.
Qed.

(** *** One step of the recursion

    [cols] and [P] satisfy the equations, [a] is the next column. *)
Section Step.
Variable m : nat.
Variables cols P : list (list Q).
Variable a : list Q.
Hypothesis Hinv : penrose m cols P.
Hypothesis Ha : length a = m.

Let E := apply_AP m cols P.
Let K := apply_PA m cols P.
Let d := map (fun p => dot p a) P.
Let c := vsub a (E a).

Let Hcols := pen_cols m cols P Hinv.
Let Hrows := pen_rows m cols P Hinv.
Let Hlen := pen_len m cols P Hinv.

Lemma El v : length (E v) = m.
Proof. unfold E. now apply E_length. Qed.

Lemma Kl r : length (K r) = m.
Proof. unfold K. now apply K_length. Qed.

Lemma c_length : length c = m.
Proof. unfold c. rewrite vsub_length; [assumption|]. now rewrite El. Qed.

Lemma step_cols_length : Forall (fun x => length x = m) (cols ++ [a]).
Proof. apply Forall_app. split; [assumption | now constructor]. Qed.

Lemma step_rows_length b :
  length b = m -> Forall (fun x => length x = m) (step_rows P a b).
Proof.
  intro Hb. apply Forall_app. split; [|now constructor].
  apply Forall_forall. intros x Hx. apply in_map_iff in Hx.
  destruct Hx as [p [<- Hp]]. rewrite Forall_forall in Hrows.
  rewrite vsub_length; rewrite ?scale_length; auto. now rewrite Hrows.
Qed.

Lemma E_E_a : veq (E (E a)) (E a).
Proof.
  unfold E at 2 3. unfold apply_AP. apply E_span; try assumption.
  exact (pen1 m cols P Hinv).
Qed.

Lemma E_c : veq (E c) (repeat 0 m).
Proof.
  unfold c. unfold E at 1. rewrite E_sub by (rewrite ?El; auto).
  fold E. rewrite E_E_a. pose proof (El a). vec_ring.
Qed.

Lemma c_cols x : In x cols -> dot c x == 0.
Proof.
  intro Hx. unfold c.
  assert (Hxl : length x = m) by (rewrite Forall_forall in Hcols; auto).
  rewrite dot_vsub_l by (now rewrite El).
  rewrite (dot_comm (E a) x).
  unfold E. rewrite (pen3 m cols P Hinv x a Hxl Ha).
  pose proof (pen1 m cols P Hinv) as H1. rewrite Forall_forall in H1.
  rewrite (H1 x Hx). rewrite (dot_comm x a). ring.
Qed.

Lemma rows_c p : In p P -> dot p c == 0.
Proof.
  intro Hp. unfold c.
  rewrite dot_vsub_r by (now rewrite El).
  unfold E. rewrite (EK_dual m cols P Hcols Hrows).
  pose proof (pen2 m cols P Hinv) as H2. rewrite Forall_forall in H2.
  rewrite (H2 p Hp). ring.
Qed.

Lemma K_c : veq (K c) (repeat 0 m).
Proof.
  apply lincomb_zero; [|assumption].
  apply Forall_forall. intros x Hx. apply in_map_iff in Hx.
  destruct Hx as [x' [<- Hx']]. now apply c_cols.
Qed.

Lemma c_a : dot c a == dot c c.
Proof.
  unfold c at 3. rewrite dot_vsub_r by (now rewrite El).
  unfold E. rewrite (pen3 m cols P Hinv c a c_length Ha).
  fold E. rewrite E_c, dot_zero_l. ring.
Qed.

(** [A' P' v = A P v + (b . v) c] *)
Lemma step_AP b v :
  length b = m -> length v = m ->
  veq (apply_AP m (cols ++ [a]) (step_rows P a b) v) (vadd (E v) (scale (dot b v) c)).
Proof.
  intros Hb Hv. unfold apply_AP, step_rows. rewrite map_app, map_map. cbn [map].
  rewrite lincomb_snoc by (rewrite ?length_map; auto).
  assert (Hco : veq (map (fun p => dot (vsub p (scale (dot p a) b)) v) P)
                    (vsub (map (fun p => dot p v) P) (scale (dot b v) d))).
  { unfold d. rewrite <- map_scale, <- map_vsub. apply map_veq. intros p Hp.
    rewrite Forall_forall in Hrows.
    rewrite dot_vsub_l by (rewrite scale_length, Hrows; auto).
    rewrite dot_scale_l. ring. }
  rewrite (lincomb_coeffs m _ _ cols Hco).
  rewrite lincomb_sub by (unfold d; rewrite ?scale_length, ?length_map; auto).
  rewrite lincomb_scale by assumption.
  fold (apply_AP m cols P v). fold E. unfold c.
  change (lincomb m d cols) with (E a).
  pose proof (El v). pose proof (El a). vec_ring.
Qed.

(** [r^T A' P' = r^T A P + (r . c) b] *)
Lemma step_PA b r :
  length b = m -> length r = m ->
  veq (apply_PA m (cols ++ [a]) (step_rows P a b) r) (vadd (K r) (scale (dot r c) b)).
Proof.
  intros Hb Hr. unfold apply_PA, step_rows. rewrite map_app. cbn [map].
  rewrite lincomb_snoc
    by (rewrite ?length_map; auto; apply Forall_forall; intros x Hx;
        apply in_map_iff in Hx; destruct Hx as [p [<- Hp]];
        rewrite Forall_forall in Hrows;
        rewrite vsub_length; rewrite ?scale_length; auto; now rewrite Hrows).
  rewrite lincomb_shifted by assumption.
  fold (apply_PA m cols P r). fold K.
  assert (Hs : dot r c == dot r a - dot (map (fun a0 => dot r a0) cols)
                                        (map (fun p => dot p a) P)).
  { unfold c. rewrite dot_vsub_r by (now rewrite El).
    unfold E. rewrite (EK_dual m cols P Hcols Hrows).
    unfold apply_PA. rewrite dot_lincomb by assumption. reflexivity. }
  rewrite Hs.
  pose proof (Kl r). vec_ring.
Qed.

(** Combinations of the new rows and of the new columns. *)
Lemma step_rows_comb b x t :
  length b = m -> length x = length cols ->
  veq (lincomb m (x ++ [t]) (step_rows P a b))
      (vadd (lincomb m x P) (scale (t - dot x d) b)).
Proof.
  intros Hb Hx. unfold step_rows.
  rewrite lincomb_snoc
    by (rewrite ?length_map; auto; try congruence; apply Forall_forall; intros y Hy;
        apply in_map_iff in Hy; destruct Hy as [p [<- Hp]];
        rewrite Forall_forall in Hrows;
        rewrite vsub_length; rewrite ?scale_length; auto; now rewrite Hrows).
  rewrite lincomb_shifted by assumption. fold d.
  pose proof (lincomb_length m x P Hrows). vec_ring.
Qed.

Lemma step_cols_comb y t :
  length y = length cols ->
  veq (lincomb m (y ++ [t]) (cols ++ [a]))
      (vadd (lincomb m y cols) (scale t a)).
Proof. intro Hy. now apply lincomb_snoc. Qed.


Lemma snoc_decompose {A} (l : list A) (n : nat) :
  length l = S n -> exists l' x, l = l' ++ [x] /\ length l' = n.
Proof.
  intro H. destruct (exists_last (l := l)) as [l' [x ->]].
  - intro E0. subst. discriminate.
  - exists l', x. split; [reflexivity|]. rewrite length_app in H. simpl in H. lia.
Qed.

Lemma step_length b :
  length (step_rows P a b) = length (cols ++ [a]).
Proof. unfold step_rows. rewrite !length_app, length_map. simpl. lia. Qed.

(** The bilinear form of [P' A'] on combinations, expanded. *)
Lemma step_form b x t y u :
  length b = m -> length x = length cols -> length y = length cols ->
  dot (lincomb m (x ++ [t]) (step_rows P a b)) (lincomb m (y ++ [u]) (cols ++ [a]))
  == dot (lincomb m x P) (lincomb m y cols) + u * dot x d
     + (t - dot x d) * dot b (lincomb m y cols) + (t - dot x d) * u * dot b a.
Proof.
  intros Hb Hx Hy.
  rewrite step_rows_comb, step_cols_comb by assumption.
  pose proof (lincomb_length m x P Hrows) as HXl.
  pose proof (lincomb_length m y cols Hcols) as HYl.
  rewrite dot_vadd_l by (rewrite ?scale_length; congruence).
  rewrite !dot_vadd_r by (rewrite ?scale_length; congruence).
  rewrite !dot_scale_l, !dot_scale_r.
  rewrite (dot_lincomb m x P a Hrows). fold d. ring.
Qed.

(** The new column is outside the span of the old ones. *)
Section Nonzero.
Hypothesis Hc : ~ dot c c == 0.

Let b := scale (/ dot c c) c.

Lemma nz_b_length : length b = m.
Proof. unfold b. now rewrite scale_length, c_length. Qed.

Lemma nz_b_dot v : dot b v == dot c v / dot c c.
Proof. unfold b. rewrite dot_scale_l. field. exact Hc. Qed.

Lemma nz_b_a : dot b a == 1.
Proof. rewrite nz_b_dot, c_a. field. exact Hc. Qed.

Lemma nz_b_c : dot b c == 1.
Proof. rewrite nz_b_dot. field. exact Hc. Qed.

Lemma nz_b_cols x : In x cols -> dot b x == 0.
Proof. intro Hx. rewrite nz_b_dot, (c_cols x Hx). field. exact Hc. Qed.

Lemma nz_K_b : veq (K b) (repeat 0 m).
Proof. unfold b, K. rewrite K_scale by assumption. fold K. rewrite K_c. vec_ring. Qed.

Lemma nz_b_span y : dot b (lincomb m y cols) == 0.
Proof.
  rewrite dot_comm, dot_lincomb by assumption.
  assert (H : veq (map (fun v => dot v b) cols) (map (fun _ => 0) cols)).
  { apply map_veq. intros x Hx. rewrite dot_comm. now apply nz_b_cols. }
  rewrite H. apply dot_map_zero.
Qed.

Lemma step_nonzero : penrose m (cols ++ [a]) (step_rows P a b).
Proof.
  pose proof nz_b_length as Hb.
  constructor.
  - apply step_length.
  - apply step_cols_length.
  - now apply step_rows_length.
  - apply Forall_app. split.
    + apply Forall_forall. intros x Hx.
      assert (Hxl : length x = m) by (rewrite Forall_forall in Hcols; auto).
      rewrite step_AP by assumption.
      pose proof (pen1 m cols P Hinv) as H1. rewrite Forall_forall in H1.
      fold E in H1. rewrite (H1 x Hx), (nz_b_cols x Hx).
      pose proof c_length. vec_ring.
    + constructor; [|constructor].
      rewrite step_AP by assumption. rewrite nz_b_a. unfold c.
      pose proof (El a). vec_ring.
  - apply Forall_app. split.
    + apply Forall_forall. intros r Hr. apply in_map_iff in Hr.
      destruct Hr as [p [<- Hp]].
      assert (Hpl : length p = m) by (rewrite Forall_forall in Hrows; auto).
      rewrite step_PA by vlen.
      unfold K at 1. rewrite K_sub by vlen.
      rewrite K_scale by assumption. fold K. rewrite nz_K_b.
      pose proof (pen2 m cols P Hinv) as H2. rewrite Forall_forall in H2.
      fold K in H2. rewrite (H2 p Hp).
      rewrite dot_vsub_l by vlen.
      rewrite dot_scale_l, nz_b_c, (rows_c p Hp).
      vec_ring.
    + constructor; [|constructor].
      rewrite step_PA by assumption. rewrite nz_K_b, nz_b_c. vec_ring.
  - intros u v Hu Hv. rewrite !step_AP by assumption.
    rewrite dot_vadd_r by (rewrite El, scale_length, c_length; reflexivity).
    rewrite dot_vadd_l by (rewrite El, scale_length, c_length; reflexivity).
    rewrite dot_scale_l, dot_scale_r.
    unfold E. rewrite (pen3 m cols P Hinv u v Hu Hv).
    rewrite !nz_b_dot, (dot_comm u c). field. exact Hc.
  - intros x' y' Hx' Hy'. rewrite length_app in Hx', Hy'. simpl in Hx', Hy'.
    rewrite Nat.add_1_r in Hx', Hy'.
    destruct (snoc_decompose x' _ Hx') as [x [t [-> Hx]]].
    destruct (snoc_decompose y' _ Hy') as [y [u [-> Hy]]].
    rewrite !step_form by assumption.
    rewrite !nz_b_span, nz_b_a.
    rewrite (pen4 m cols P Hinv x y Hx Hy). ring.
Qed.

End Nonzero.

(** The new column is in the span of the old ones. *)
Section Zero.
Hypothesis Hc : veq c (repeat 0 m).

Let g := lincomb m d P.
Let s := / (1 + dot d d).
Let b := scale s g.

Lemma z_den : ~ 1 + dot d d == 0.
Proof. pose proof (dot_self_nonneg d). lra. Qed.

Lemma z_g_length : length g = m.
Proof. unfold g. now apply lincomb_length. Qed.

Lemma z_b_length : length b = m.
Proof. unfold b. now rewrite scale_length, z_g_length. Qed.

Lemma z_E_a : veq (E a) a.
Proof.
  pose proof (El a) as Hl. apply veq_nth; [congruence|]. intro i.
  pose proof (nth_veq _ _ i Hc) as H. unfold c in H.
  rewrite nth_vsub, nth_zeros in H by congruence. lra.
Qed.

Lemma z_c_dot v : dot c v == 0.
Proof. rewrite Hc. apply dot_zero_l. Qed.

Lemma z_K_g : veq (K g) g.
Proof.
  unfold g, K. apply K_span; try assumption. exact (pen2 m cols P Hinv).
Qed.

Lemma z_K_b : veq (K b) b.
Proof. unfold b, K. rewrite K_scale by assumption. fold K. now rewrite z_K_g. Qed.

Lemma z_g_a : dot g a == dot d d.
Proof. unfold g. rewrite dot_lincomb by assumption. reflexivity. Qed.

Lemma z_d_length : length d = length cols.
Proof. unfold d. now rewrite length_map. Qed.

Lemma z_g_span y : length y = length cols -> dot g (lincomb m y cols) == dot y d.
Proof.
  intro Hy. unfold g.
  rewrite (pen4 m cols P Hinv d y z_d_length Hy).
  change (lincomb m d cols) with (E a). rewrite z_E_a.
  rewrite dot_lincomb by assumption. reflexivity.
Qed.

Lemma step_zero : penrose m (cols ++ [a]) (step_rows P a b).
Proof.
  pose proof z_b_length as Hb.
  constructor.
  - apply step_length.
  - apply step_cols_length.
  - now apply step_rows_length.
  - apply Forall_app. split.
    + apply Forall_forall. intros x Hx.
      assert (Hxl : length x = m) by (rewrite Forall_forall in Hcols; auto).
      rewrite step_AP by assumption.
      pose proof (pen1 m cols P Hinv) as H1. rewrite Forall_forall in H1.
      fold E in H1. rewrite (H1 x Hx), Hc. vec_ring.
    + constructor; [|constructor].
      rewrite step_AP by assumption. rewrite z_E_a, Hc. vec_ring.
  - apply Forall_app. split.
    + apply Forall_forall. intros r Hr. apply in_map_iff in Hr.
      destruct Hr as [p [<- Hp]].
      assert (Hpl : length p = m) by (rewrite Forall_forall in Hrows; auto).
      rewrite step_PA by vlen.
      unfold K at 1. rewrite K_sub by vlen.
      rewrite K_scale by assumption. fold K. rewrite z_K_b.
      pose proof (pen2 m cols P Hinv) as H2. rewrite Forall_forall in H2.
      fold K in H2. rewrite (H2 p Hp).
      rewrite (dot_comm _ c), z_c_dot.
      vec_ring.
    + constructor; [|constructor].
      rewrite step_PA by assumption. rewrite z_K_b, (dot_comm b c), z_c_dot. vec_ring.
  - intros u v Hu Hv. rewrite !step_AP by assumption.
    rewrite Hc.
    rewrite dot_vadd_r by (rewrite El, scale_length, repeat_length; reflexivity).
    rewrite dot_vadd_l by (rewrite El, scale_length, repeat_length; reflexivity).
    rewrite dot_scale_l, dot_scale_r, (dot_comm u (repeat 0 m)), !dot_zero_l.
    unfold E. rewrite (pen3 m cols P Hinv u v Hu Hv). ring.
  - intros x' y' Hx' Hy'. rewrite length_app in Hx', Hy'. simpl in Hx', Hy'.
    rewrite Nat.add_1_r in Hx', Hy'.
    destruct (snoc_decompose x' _ Hx') as [x [t [-> Hx]]].
    destruct (snoc_decompose y' _ Hy') as [y [u [-> Hy]]].
    rewrite !step_form by assumption.
    unfold b. rewrite !dot_scale_l, !z_g_span, z_g_a by assumption.
    rewrite (pen4 m cols P Hinv x y Hx Hy).
    unfold s. field. exact z_den.
Qed.

End Zero.

(** One step of the recursion keeps the equations. *)
Lemma step0_penrose : penrose m (fst (step0 m cols P a)) (snd (step0 m cols P a)).
Proof.
  unfold step0. cbn [fst snd].
  change (lincomb m (map (fun p => dot p a) P) cols) with (E a).
  change (map (fun p => dot p a) P) with d.
  change (vsub a (E a)) with c.
  destruct (is_zero c) eqn:Ez.
  - apply step_zero. pose proof (is_zero_zeros c Ez) as H.
    now rewrite c_length in H.
  - apply step_nonzero. intro H. apply dot_self_zero in H. congruence.
Qed.

End Step.

(** *** The recursion *)
Section Recursion.
Variable m : nat.

Lemma penrose_nil : penrose m [] [].
Proof.
  constructor; try constructor.
  - intros u v _ _. unfold apply_AP. cbn [map lincomb].
    now rewrite dot_zero_l, dot_comm, dot_zero_l.
  - intros x y _ _. rewrite !lincomb_nil_r. reflexivity.
Qed.

Lemma Forall2_map_veq {A} (f g : A -> list Q) (l : list A) :
  (forall x, In x l -> veq (f x) (g x)) -> Forall2 veq (map f l) (map g l).
Proof.
  induction l as [|x l IH]; intro H; constructor.
  - apply H. now left.
  - apply IH. intros y Hy. apply H. now right.
Qed.

Lemma map_veq2 (V V' : list (list Q)) (f g : list Q -> Q) :
  Forall2 veq V V' ->
  (forall p p', veq p p' -> f p == g p') ->
  veq (map f V) (map g V').
Proof.
  intros H Hf. induction H; constructor; auto.
Qed.

Lemma Forall2_transfer {A} (R : A -> A -> Prop) (F G : A -> Prop) (l l' : list A) :
  Forall2 R l l' -> Forall F l ->
  (forall x y, R x y -> F x -> G y) -> Forall G l'.
Proof.
  intros H HF Himp. induction H; constructor; inversion HF; subst; eauto.
Qed.

Lemma Forall2_veq_sym (V V' : list (list Q)) : Forall2 veq V V' -> Forall2 veq V' V.
Proof. induction 1; constructor; [now symmetry | assumption]. Qed.

Lemma apply_AP_Proper cols cols' P P' v v' :
  Forall2 veq cols cols' -> Forall2 veq P P' -> veq v v' ->
  veq (apply_AP m cols P v) (apply_AP m cols' P' v').
Proof.
  intros Hc HP Hv. apply lincomb_Proper; [|assumption].
  apply map_veq2; [assumption|]. intros p p' Hp. now rewrite Hp, Hv.
Qed.

Lemma apply_PA_Proper cols cols' P P' r r' :
  Forall2 veq cols cols' -> Forall2 veq P P' -> veq r r' ->
  veq (apply_PA m cols P r) (apply_PA m cols' P' r').
Proof.
  intros Hc HP Hr. apply lincomb_Proper; [|assumption].
  apply map_veq2; [assumption|]. intros p p' Hp. now rewrite Hp, Hr.
Qed.

(** The equations hold up to the representation of the fractions. *)
Lemma penrose_Proper cols cols' P P' :
  Forall2 veq cols cols' -> Forall2 veq P P' ->
  penrose m cols P -> penrose m cols' P'.
Proof.
  intros Hc HP H.
  pose proof (Forall2_veq_sym _ _ Hc) as Hc'.
  pose proof (Forall2_veq_sym _ _ HP) as HP'.
  constructor.
  - rewrite <- (Forall2_length Hc), <- (Forall2_length HP). apply (pen_len _ _ _ H).
  - apply (Forall2_transfer _ _ _ _ _ Hc (pen_cols _ _ _ H)).
    intros x y Hxy Hx. now rewrite <- (veq_length _ _ Hxy).
  - apply (Forall2_transfer _ _ _ _ _ HP (pen_rows _ _ _ H)).
    intros x y Hxy Hx. now rewrite <- (veq_length _ _ Hxy).
  - apply (Forall2_transfer _ _ _ _ _ Hc (pen1 _ _ _ H)).
    intros x y Hxy Hx.
    rewrite (apply_AP_Proper cols' cols P' P y x Hc' HP' (symmetry Hxy)).
    now rewrite Hx.
  - apply (Forall2_transfer _ _ _ _ _ HP (pen2 _ _ _ H)).
    intros x y Hxy Hx.
    rewrite (apply_PA_Proper cols' cols P' P y x Hc' HP' (symmetry Hxy)).
    now rewrite Hx.
  - intros u v Hu Hv.
    rewrite (apply_AP_Proper cols' cols P' P v v Hc' HP' (reflexivity v)).
    rewrite (apply_AP_Proper cols' cols P' P u u Hc' HP' (reflexivity u)).
    now apply (pen3 _ _ _ H).
  - intros x y Hx Hy.
    rewrite <- (Forall2_length Hc) in Hx, Hy.
    rewrite (lincomb_Proper m x x P' P (reflexivity x) HP').
    rewrite (lincomb_Proper m y y P' P (reflexivity y) HP').
    rewrite (lincomb_Proper m x x cols' cols (reflexivity x) Hc').
    rewrite (lincomb_Proper m y y cols' cols (reflexivity y) Hc').
    now apply (pen4 _ _ _ H).
Qed.

(** The step of the model reduces fractions; the rest is [step0]. *)
Lemma greville_step_step0 cols P a :
  Forall2 veq (fst (greville_step m (cols, P) a)) (fst (step0 m cols P a)) /\
  Forall2 veq (snd (greville_step m (cols, P) a)) (snd (step0 m cols P a)).
Proof.
  unfold greville_step, step0, step_rows. cbn [fst snd].
  set (d := map (fun p => dot p a) P).
  set (c := vsub a (lincomb m d cols)).
  set (c' := lowest (vsub a (lincomb m (lowest d) cols))).
  assert (Hd : veq (lowest d) d) by apply lowest_veq.
  assert (Hcc : veq c' c).
  { unfold c', c. rewrite lowest_veq.
    now rewrite (lincomb_coeffs m _ _ cols Hd). }
  set (b := if is_zero c then scale (/ (1 + dot d d)) (lincomb m d P)
            else scale (/ dot c c) c).
  set (b' := lowest (if is_zero c'
                     then scale (/ (1 + dot (lowest d) (lowest d))) (lincomb m (lowest d) P)
                     else scale (/ dot c' c') c')).
  assert (Hb : veq b' b).
  { unfold b', b. rewrite lowest_veq, (is_zero_veq _ _ Hcc).
    destruct (is_zero c).
    - rewrite (lincomb_coeffs m _ _ P Hd). now rewrite Hd.
    - now rewrite Hcc. }
  split.
  - apply Forall2_app; [apply Forall2_veq_refl|].
    constructor; [apply lowest_veq | constructor].
  - apply Forall2_app.
    + apply Forall2_map_veq. intros p _. rewrite lowest_veq. now rewrite Hb.
    + constructor; [exact Hb | constructor].
Qed.

Lemma greville_fold_penrose (cols : list (list Q)) :
  Forall (fun a => length a = m) cols ->
  forall (st : list (list Q) * list (list Q)) (done : list (list Q)),
    penrose m (fst st) (snd st) ->
    Forall2 veq (fst st) done ->
    penrose m (fst (fold_left (greville_step m) cols st))
              (snd (fold_left (greville_step m) cols st)) /\
    Forall2 veq (fst (fold_left (greville_step m) cols st)) (done ++ cols).
Proof.
  induction 1 as [|a cols Ha Hcols IH]; intros [cs P] done Hst Hdone.
  - cbn [fold_left]. rewrite app_nil_r. auto.
  - cbn [fold_left fst snd] in *.
    destruct (greville_step_step0 cs P a) as [H1 H2].
    pose proof (step0_penrose m cs P a Hst Ha) as H0.
    specialize (IH (greville_step m (cs, P) a) (done ++ [a])).
    rewrite <- app_assoc in IH. cbn [app] in IH. apply IH.
    + apply (penrose_Proper _ _ _ _ (Forall2_veq_sym _ _ H1) (Forall2_veq_sym _ _ H2) H0).
    + unfold greville_step. cbn [fst].
      apply Forall2_app; [assumption|]. constructor; [apply lowest_veq | constructor].
Qed.

(** The recursion returns rows that satisfy the Penrose equations with the
    columns it was given. *)
Lemma greville_penrose (cols : list (list Q)) :
  Forall (fun a => length a = m) cols ->
  penrose m cols (greville m cols).
Proof.
  intro H.
  destruct (greville_fold_penrose cols H ([], []) [] penrose_nil (Forall2_nil _))
    as [Hp Hc].
  cbn [app] in Hc. unfold greville.
  apply (penrose_Proper _ _ _ _ Hc (Forall2_veq_refl _) Hp).
Qed.

End Recursion.

Lemma unit_vec_length n i : length (unit_vec n i) = n.
Proof.
  revert i. induction n as [|n IH]; intros [|i]; simpl; try reflexivity.
  - now rewrite repeat_length.
  - now rewrite IH.
Qed.

Lemma dot_unit_l n i v : length v = n -> dot (unit_vec n i) v == nth i v 0.
Proof.
  revert i v. induction n as [|n IH]; intros i [|x v] H; simpl in H; try discriminate.
  - destruct i; reflexivity.
  - destruct i as [|i]; cbn [unit_vec dot nth].
    + rewrite dot_zero_l. ring.
    + rewrite IH by lia. ring.
Qed.

Lemma dot_unit_r n i v : length v = n -> dot v (unit_vec n i) == nth i v 0.
Proof. intro H. rewrite dot_comm. now apply dot_unit_l. Qed.

Lemma nth_lincomb m l k V :
  Forall (fun v => length v = m) V ->
  nth l (lincomb m k V) 0 == dot k (map (fun v => nth l v 0) V).
Proof.
  intro HV. revert k. induction HV as [|v V Hv HV IH]; intros [|x k];
    cbn [lincomb map dot]; rewrite ?nth_zeros; try reflexivity.
  rewrite nth_vadd by (rewrite scale_length, lincomb_length; auto).
  rewrite nth_scale, IH. reflexivity.
Qed.

Lemma nth_map_seq {A} (f : nat -> A) (n i : nat) (d : A) :
  (i < n)%nat -> nth i (map f (seq 0 n)) d = f i.
Proof.
  intro H. rewrite (nth_indep _ d (f 0%nat)) by (now rewrite length_map, length_seq).
  rewrite (map_nth f (seq 0 n) 0%nat i). now rewrite seq_nth.
Qed.

Lemma list_map_nth_seq (l : list Q) :
  map (fun j => nth j l 0) (seq 0 (length l)) = l.
Proof.
  induction l as [|x l IH]; [reflexivity|].
  cbn [length seq map nth]. f_equal. rewrite <- seq_shift, map_map. exact IH.
Qed.

(** A row vector times a matrix is a combination of the rows of the matrix. *)
Lemma vecmat m r V :
  Forall (fun v => length v = m) V ->
  veq (map (dot r) (columns (mk2 m V))) (lincomb m r V).
Proof.
  intro HV. unfold columns. cbn [ncols rows].
  apply veq_nth.
  - now rewrite !length_map, length_seq, lincomb_length.
  - intro l. destruct (Nat.lt_ge_cases l m) as [Hl | Hl].
    + rewrite map_map, nth_map_seq by assumption.
      now rewrite nth_lincomb.
    + rewrite !nth_overflow;
        rewrite ?length_map, ?length_seq, ?lincomb_length; auto. reflexivity.
Qed.

Lemma columns_length (M : array2 Q) : length (columns M) = ncols M.
Proof. unfold columns. now rewrite length_map, length_seq. Qed.

Lemma columns_shape (M : array2 Q) :
  Forall (fun a => length a = nrows M) (columns M).
Proof.
  apply Forall_forall. intros a Ha. unfold columns in Ha. apply in_map_iff in Ha.
  destruct Ha as [j [<- _]]. unfold column, nrows. now rewrite length_map.
Qed.

(** Row [i] of a rectangular array, read off its columns. *)
Lemma row_from_columns (M : array2 Q) (i : nat) :
  wf M -> (i < nrows M)%nat ->
  nth i (rows M) [] = map (fun a => nth i a 0) (columns M).
Proof.
  intros Hwf Hi. unfold columns, column. rewrite map_map.
  assert (Hl : length (nth i (rows M) []) = ncols M).
  { unfold wf in Hwf. rewrite Forall_forall in Hwf. apply Hwf, nth_In. exact Hi. }
  rewrite <- (list_map_nth_seq (nth i (rows M) [])) at 1. rewrite Hl.
  apply map_ext. intro j.
  rewrite (nth_indep (map (fun r : list Q => nth j r 0) (rows M)) 0
             ((fun r : list Q => nth j r 0) []))
    by (rewrite length_map; exact Hi).
  now rewrite (map_nth (fun r : list Q => nth j r 0)).
Qed.

Lemma Forall2_nth_veq (l l' : list (list Q)) :
  length l = length l' ->
  (forall i, (i < length l)%nat -> veq (nth i l []) (nth i l' [])) ->
  Forall2 veq l l'.
Proof.
  revert l'. induction l as [|x l IH]; intros [|y l'] Hl H; simpl in Hl;
    try discriminate; constructor.
  - apply (H 0%nat). simpl. lia.
  - apply IH; [lia|]. intros i Hi. apply (H (S i)). simpl. lia.
Qed.

Lemma Forall2_map_id_veq (f : list Q -> list Q) (l : list (list Q)) :
  (forall x, In x l -> veq (f x) x) -> Forall2 veq (map f l) l.
Proof.
  induction l as [|x l IH]; intro H; constructor.
  - apply H. now left.
  - apply IH. intros y Hy. apply H. now right.
Qed.

Lemma veq_eqb (u v : list Q) :
  veq u v ->
  Nat.eqb (length u) (length v) &&
  forallb (fun q => Qeq_bool (fst q) (snd q)) (combine u v) = true.
Proof.
  intro H. apply andb_true_iff. split.
  - apply Nat.eqb_eq. now apply veq_length.
  - induction H; cbn [combine forallb]; [reflexivity|].
    apply andb_true_iff. split; [now apply Qeq_bool_iff | assumption].
Qed.

Lemma mat_eqb_true (A B : array2 Q) :
  ncols A = ncols B -> Forall2 veq (rows A) (rows B) -> mat_eqb A B = true.
Proof.
  intros Hc Hr. unfold mat_eqb, nrows.
  rewrite Hc, Nat.eqb_refl, (Forall2_length Hr), Nat.eqb_refl. cbn [andb].
  induction Hr; cbn [combine forallb]; [reflexivity|].
  apply andb_true_iff. split; [now apply veq_eqb | assumption].
Qed.

Lemma lincomb_unit m (V : list (list Q)) (i : nat) :
  Forall (fun v => length v = m) V ->
  veq (lincomb m (unit_vec (length V) i) V) (nth i V (repeat 0 m)).
Proof.
  intro HV. revert i. induction HV as [|v V Hv HV IH]; intros i.
  - destruct i; reflexivity.
  - destruct i as [|i]; cbn [length unit_vec lincomb nth].
    + rewrite (lincomb_zero m (repeat 0 (length V)) V); [vec_ring | | assumption].
      apply Forall_forall. intros x Hx. apply repeat_spec in Hx. now subst.
    + rewrite IH.
      assert (Hn : length (nth i V (repeat 0 m)) = m).
      { destruct (Nat.lt_ge_cases i (length V)) as [Hi | Hi].
        - rewrite Forall_forall in HV. apply HV, nth_In, Hi.
        - rewrite nth_overflow by assumption. apply repeat_length. }
      vec_ring.
Qed.

Lemma nth_map_default {A B} (f : A -> B) (l : list A) (i : nat) (d : A) (e : B) :
  (i < length l)%nat -> nth i (map f l) e = f (nth i l d).
Proof.
  intro H. rewrite (nth_indep (map f l) e (f d)) by (now rewrite length_map).
  apply map_nth.
Qed.

(** *** The equations on arrays *)
Section PinvPenrose.
Variable A : array2 Q.
Hypothesis Hwf : wf A.

Let m := nrows A.
Let k := ncols A.
Let cols := columns A.
Let Pr := greville m cols.
Let E := apply_AP m cols Pr.
Let K := apply_PA m cols Pr.

Let Hpen : penrose m cols Pr := greville_penrose m cols (columns_shape A).
Let Hcols := pen_cols m cols Pr Hpen.
Let Hrows := pen_rows m cols Pr Hpen.

Lemma pinv_rows_length : length Pr = k.
Proof. rewrite (pen_len m cols Pr Hpen). apply columns_length. Qed.

(** Row [i] of [A @ pinv(A)] is [e_i^T A P]. *)
Lemma AP_row (i : nat) :
  (i < m)%nat ->
  veq (map (dot (nth i (rows A) [])) (columns (mk2 m Pr))) (K (unit_vec m i)).
Proof.
  intro Hi. rewrite vecmat by assumption.
  rewrite (row_from_columns A i Hwf Hi). fold cols.
  unfold K, apply_PA. apply lincomb_coeffs, map_veq. intros a Ha.
  rewrite Forall_forall in Hcols. now rewrite dot_unit_l by auto.
Qed.

Lemma AP_entry (i l : nat) :
  (i < m)%nat -> (l < m)%nat ->
  nth l (map (dot (nth i (rows A) [])) (columns (mk2 m Pr))) 0
  == dot (unit_vec m i) (E (unit_vec m l)).
Proof.
  intros Hi Hl. rewrite (nth_veq _ _ l (AP_row i Hi)).
  rewrite <- (dot_unit_r m l) by (unfold K; now apply K_length).
  unfold E, K. now rewrite (EK_dual m cols Pr Hcols Hrows).
Qed.

Lemma AP_symmetric (i l : nat) :
  (i < m)%nat -> (l < m)%nat ->
  nth l (map (dot (nth i (rows A) [])) (columns (mk2 m Pr))) 0
  == nth i (map (dot (nth l (rows A) [])) (columns (mk2 m Pr))) 0.
Proof.
  intros Hi Hl. rewrite !AP_entry by assumption.
  unfold E. rewrite (pen3 m cols Pr Hpen _ _ (unit_vec_length m i) (unit_vec_length m l)).
  apply dot_comm.
Qed.

Lemma PA_symmetric (i j : nat) :
  (i < k)%nat -> (j < k)%nat ->
  dot (nth i Pr []) (nth j cols []) == dot (nth j Pr []) (nth i cols []).
Proof.
  intros Hi Hj.
  pose proof pinv_rows_length as HP.
  pose proof (columns_length A) as HC. fold cols k in HC.
  assert (Hu : forall n, length (unit_vec k n) = length cols)
    by (intro n; now rewrite unit_vec_length).
  pose proof (pen4 m cols Pr Hpen (unit_vec k i) (unit_vec k j) (Hu i) (Hu j)) as H.
  assert (HuP : forall n, veq (lincomb m (unit_vec k n) Pr) (nth n Pr (repeat 0 m)))
    by (intro n; rewrite <- HP; now apply lincomb_unit).
  assert (HuC : forall n, veq (lincomb m (unit_vec k n) cols) (nth n cols (repeat 0 m)))
    by (intro n; rewrite <- HC; now apply lincomb_unit).
  rewrite !HuP, !HuC in H.
  rewrite (nth_indep Pr [] (repeat 0 m)) by lia.
  rewrite (nth_indep Pr [] (repeat 0 m)) by lia.
  rewrite (nth_indep cols [] (repeat 0 m)) by lia.
  rewrite (nth_indep cols [] (repeat 0 m)) by lia.
  rewrite H. reflexivity.
Qed.

(** The pseudo-inverse of the model satisfies the four Penrose equations. *)
Lemma pinv_is_pinv : is_pinv A (pinv A) = true.
Proof.
  pose proof pinv_rows_length as HP.
  pose proof (columns_length A) as HC. fold cols k in HC.
  unfold is_pinv, matmul, pinv. fold m cols Pr.
  unfold nrows at 1. cbn [ncols rows]. fold k. rewrite HP.
  fold (nrows A). fold m. rewrite !Nat.eqb_refl.
  unfold mat_eqb_r, matmul, ok, nrows. cbn [ncols rows].
  rewrite ?length_map. fold (nrows A). fold m. rewrite ?HP, !Nat.eqb_refl.
  rewrite !andb_true_iff. repeat split.
  - (* A P A = A *)
    apply mat_eqb_true; [reflexivity|]. cbn [rows].
    apply Forall2_nth_veq; [now rewrite !length_map|].
    rewrite !length_map. intros i Hi. fold (nrows A) in Hi. fold m in Hi.
    rewrite map_map.
    rewrite (nth_map_default _ (rows A) i []) by exact Hi.
    fold cols. rewrite (row_from_columns A i Hwf Hi) at 2. fold cols.
    apply map_veq. intros a Ha.
    rewrite (AP_row i Hi).
    unfold K. rewrite <- (EK_dual m cols Pr Hcols Hrows).
    pose proof (pen1 m cols Pr Hpen) as H1. rewrite Forall_forall in H1.
    rewrite (H1 a Ha). rewrite Forall_forall in Hcols.
    now rewrite dot_unit_l by auto.
  - (* P A P = P *)
    apply mat_eqb_true; [reflexivity|]. cbn [rows].
    rewrite map_map. apply Forall2_map_id_veq. intros p Hp.
    rewrite vecmat by assumption. fold cols.
    pose proof (pen2 m cols Pr Hpen) as H2. rewrite Forall_forall in H2.
    exact (H2 p Hp).
  - (* (A P)^T = A P *)
    apply mat_eqb_true.
    + unfold transpose, nrows. cbn [ncols rows]. now rewrite length_map.
    + unfold transpose, columns. cbn [ncols rows].
      apply Forall2_nth_veq; [now rewrite !length_map, length_seq|].
      rewrite length_map, length_seq. intros l Hl.
      rewrite nth_map_seq by assumption.
      assert (Hll : (l < length (rows A))%nat) by exact Hl.
      rewrite (nth_map_default _ (rows A) l []) by exact Hll.
      unfold column. rewrite map_map.
      apply veq_nth.
      * rewrite !length_map, length_seq. reflexivity.
      * intro i. destruct (Nat.lt_ge_cases i m) as [Hi | Hi].
        -- rewrite (nth_map_default _ (rows A) i []) by exact Hi.
           apply (AP_symmetric i l Hi Hl).
        -- rewrite !nth_overflow; rewrite ?length_map, ?length_seq; auto.
           reflexivity.
  - (* (P A)^T = P A *)
    apply mat_eqb_true.
    + unfold transpose, nrows. cbn [ncols rows]. now rewrite length_map.
    + unfold transpose, columns. cbn [ncols rows]. fold k cols.
      apply Forall2_nth_veq; [now rewrite !length_map, length_seq|].
      rewrite length_map, length_seq. intros j Hj.
      rewrite nth_map_seq by assumption.
      rewrite (nth_map_default _ Pr j []) by lia.
      unfold column. rewrite map_map.
      apply veq_nth.
      * rewrite !length_map. congruence.
      * intro i. destruct (Nat.lt_ge_cases i k) as [Hi | Hi].
        -- rewrite (nth_map_default _ Pr i []) by lia.
           rewrite (nth_map_default _ cols j []) by lia.
           rewrite (nth_map_default _ cols i []) by lia.
           apply (PA_symmetric i j Hi Hj).
        -- rewrite !nth_overflow; rewrite ?length_map; try lia. reflexivity.
Qed.

End PinvPenrose.

(* ----------------------------------------------------------------- *)
(** ** Shapes in the normal equation *)

Lemma greville_fold_length (m : nat) (cols : list (list Q)) :
  forall st, length (snd (fold_left (greville_step m) cols st))
             = (length (snd st) + length cols)%nat.
Proof.
  induction cols as [|a cols IH]; intros [cs P]; cbn [fold_left length].
  - cbn [snd]. lia.
  - rewrite IH. unfold greville_step. cbn [snd].
    rewrite length_app, length_map. cbn [length]. lia.
Qed.

(** The pseudo-inverse of an [(n, k)] array has [k] rows and [n] columns. *)
Lemma pinv_shape (A : array2 Q) :
  nrows (pinv A) = ncols A /\ ncols (pinv A) = nrows A.
Proof.
  unfold pinv, nrows, greville. cbn [rows ncols].
  rewrite greville_fold_length, columns_length. cbn [snd length]. split; lia.
Qed.

(** The normal equation returns one weight per column of the design matrix
    when [y] has one entry per row, and raises otherwise. *)
Lemma normal_equation_shape (A : array2 Q) (y : list Q) :
  (length y = nrows A ->
   exists beta, normal_equation A y = ok beta /\ length beta = ncols A) /\
  (forall beta, normal_equation A y = ok beta ->
                length beta = ncols A /\ length y = nrows A).
Proof.
  unfold normal_equation.
  assert (HG : exists G, matmul (transpose A) A = ok G /\
                         ncols G = ncols A /\ nrows G = ncols A).
  { unfold matmul, transpose. cbn [ncols]. rewrite Nat.eqb_refl.
    eexists. split; [reflexivity|]. unfold nrows. cbn [ncols rows].
    now rewrite length_map, columns_length. }
  destruct HG as [G [-> [HGc HGr]]]. cbn [rbind ok].
  destruct (pinv_shape G) as [HPr HPc].
  assert (HH : exists H, matmul (pinv G) (transpose A) = ok H /\
                         ncols H = nrows A /\ nrows H = ncols A).
  { unfold matmul. rewrite HPc, HGr.
    replace (nrows (transpose A)) with (ncols A)
      by (unfold nrows, transpose; cbn [rows]; now rewrite columns_length).
    rewrite Nat.eqb_refl. eexists. split; [reflexivity|].
    unfold nrows in *. cbn [ncols rows]. rewrite length_map. split; [reflexivity|].
    now rewrite HPr. }
  destruct HH as [H [-> [HHc HHr]]]. cbn [rbind ok].
  unfold matvec. rewrite HHc. split.
  - intros Hy. rewrite Hy, Nat.eqb_refl. eexists. split; [reflexivity|].
    unfold nrows in HHr. now rewrite length_map.
  - intros beta Hb. destruct (Nat.eqb (nrows A) (length y)) eqn:E; [|discriminate].
    apply Nat.eqb_eq in E. injection Hb as <-. split; [|now symmetry].
    unfold nrows in HHr. now rewrite length_map.
Qed.

(** What [fit] does with method "least_squares" on a 2-D array: the design
    matrix of the normal equation carries two columns of ones. *)
Lemma fit_least_squares_unfold (w : world) (X : array2 Q) (y : list Q)
    (learning_rate : Q) (iterations : Z) (rnd : nat -> Q) :
  fit (Arr2 X) y "least_squares" learning_rate iterations rnd w
  = match normal_equation (np_c_ones (np_insert_col0 1 X)) y with
    | inl e => (inl e, w)
    | inr beta =>
        match getitem beta 0 with
        | inl e => (inl e, w)
        | inr b => (ok tt, World (mk (Some (skipn 1 beta)) (Some b)) (stdout w))
        end
    end.
Proof.
  unfold fit. cbn [existsb String.eqb Ascii.eqb Bool.eqb negb orb].
  unfold fit_multiple, normal_equation, bind, lift.
  destruct (rbind _ _) as [e | beta]; [reflexivity|].
  destruct (getitem beta 0) as [e | b]; reflexivity.
Qed.

(** The stored parameters after a least-squares fit of an [(n, p)] array. *)
Lemma fit_least_squares_stored (w : world) (X : array2 Q) (y : list Q)
    (learning_rate : Q) (iterations : Z) (rnd : nat -> Q) :
  (length y = nrows X ->
   exists w1, fit (Arr2 X) y "least_squares" learning_rate iterations rnd w = (ok tt, w1)) /\
  (forall w1,
     fit (Arr2 X) y "least_squares" learning_rate iterations rnd w = (ok tt, w1) ->
     exists beta b,
       normal_equation (np_c_ones (np_insert_col0 1 X)) y = ok beta /\
       getitem beta 0 = ok b /\
       length beta = (ncols X + 2)%nat /\
       w1 = World (mk (Some (skipn 1 beta)) (Some b)) (stdout w)).
Proof.
  rewrite fit_least_squares_unfold.
  destruct (normal_equation_shape (np_c_ones (np_insert_col0 1 X)) y) as [Hex Hlen].
  assert (Hn : nrows (np_c_ones (np_insert_col0 1 X)) = nrows X)
    by (unfold nrows; cbn [np_c_ones np_insert_col0 rows]; now rewrite !length_map).
  assert (Hc : ncols (np_c_ones (np_insert_col0 1 X)) = (ncols X + 2)%nat)
    by (cbn [np_c_ones np_insert_col0 ncols]; lia).
  split.
  - intro Hy. destruct Hex as [beta [-> Hb]]; [congruence|].
    rewrite Hc in Hb. destruct beta as [|b beta]; [simpl in Hb; lia|].
    cbn [getitem nth_error]. eexists. reflexivity.
  - intros w1 Hfit.
    destruct (normal_equation _ y) as [e | beta]; [discriminate|].
    destruct (Hlen beta eq_refl) as [Hb _]. rewrite Hc in Hb.
    destruct (getitem beta 0) as [e | b] eqn:Hg; [discriminate|].
    injection Hfit as <-. exists beta, b. repeat split; auto.
Qed.

(* ----------------------------------------------------------------- *)
(** ** Least squares: the stored coefficient vector and [predict] *)

(** C3. After a least-squares [fit] on a 2-D array with [p >= 1] columns the
    stored coefficient vector has [p + 1] entries, and [predict] on any 2-D
    array with [p] columns raises the dimension-mismatch [ValueError] of
    [@].  The fit itself succeeds whenever [y] has one entry per row. *)
Theorem fit_least_squares_then_predict_raises :
  forall (w : world) (X : array2 Q) (y : list Q) (learning_rate : Q)
         (iterations : Z) (rnd : nat -> Q) (p : nat),
    ncols X = p ->
    (1 <= p)%nat ->
    (length y = nrows X ->
     exists w1,
       fit (Arr2 X) y "least_squares" learning_rate iterations rnd w = (ok tt, w1)) /\
    (forall w1,
       fit (Arr2 X) y "least_squares" learning_rate iterations rnd w = (ok tt, w1) ->
       exists coefs b,
         coefficients (self w1) = Some coefs /\
         intercept (self w1) = Some b /\
         length coefs = (p + 1)%nat /\
         forall X' : array2 Q,
           ncols X' = p ->
           predict (Arr2 X') w1 = (raise (ValueError MatmulMismatch), w1)).
Proof.
  intros w X y lr it rnd p Hp Hp1.
  destruct (fit_least_squares_stored w X y lr it rnd) as [Hex Hst].
  split; [exact Hex|].
  intros w1 Hfit. destruct (Hst w1 Hfit) as [beta [b [_ [_ [Hlen ->]]]]].
  assert (Hc : length (skipn 1 beta) = (p + 1)%nat)
    by (rewrite length_skipn; lia).
  remember (skipn 1 beta) as coefs eqn:Ecoefs.
  exists coefs, b. cbn [self coefficients intercept].
  repeat split; try assumption.
  intros X' HX'. unfold predict, bind, get_self, lift, matvec. cbn.
  rewrite HX', Hc.
  replace (Nat.eqb p (p + 1)) with false by (symmetry; apply Nat.eqb_neq; lia).
  reflexivity.
Qed.

Lemma fit_least_squares_then_predict_raises_witness :
  let w := World __init__ [] in
  let X := mk2 1 [[0]; [1]] in
  let y := [3; 5] in
  (length y = nrows X ->
   exists w1, fit (Arr2 X) y "least_squares" 0.01 1000 (fun _ => 0) w = (ok tt, w1)) /\
  (forall w1,
     fit (Arr2 X) y "least_squares" 0.01 1000 (fun _ => 0) w = (ok tt, w1) ->
     exists coefs b,
       coefficients (self w1) = Some coefs /\
       intercept (self w1) = Some b /\
       length coefs = 2%nat /\
       forall X' : array2 Q,
         ncols X' = 1%nat ->
         predict (Arr2 X') w1 = (raise (ValueError MatmulMismatch), w1)).
Proof.
  intros w X y.
  apply (fit_least_squares_then_predict_raises w X y 0.01 1000 (fun _ => 0) 1%nat).
  - reflexivity.
  - lia.
Defined.

(* ----------------------------------------------------------------- *)
(** ** Least squares: the design matrix *)

(** C2 (the code departs from it). On an [(n, p)] array with [n] targets,
    [fit] with "least_squares" solves the normal equation on the array
    [np.c_[ones, np.insert(X, 0, 1, axis=1)]], which has [p + 2] columns, two
    of them of ones; [beta[0]] is stored as the intercept and [beta[1:]],
    of length [p + 1], as the coefficients. *)
Theorem fit_least_squares_design :
  forall (w : world) (X : array2 Q) (y : list Q) (learning_rate : Q)
         (iterations : Z) (rnd : nat -> Q),
    length y = nrows X ->
    exists beta b,
      normal_equation (mk2 (ncols X + 2) (map (fun r => 1 :: 1 :: r) (rows X))) y
      = ok beta /\
      getitem beta 0 = ok b /\
      length (skipn 1 beta) = (ncols X + 1)%nat /\
      fit (Arr2 X) y "least_squares" learning_rate iterations rnd w
      = (ok tt, World (mk (Some (skipn 1 beta)) (Some b)) (stdout w)).
Proof.
  intros w X y lr it rnd Hy.
  destruct (fit_least_squares_stored w X y lr it rnd) as [Hex Hst].
  destruct (Hex Hy) as [w1 Hfit].
  destruct (Hst w1 Hfit) as [beta [b [Hne [Hb [Hlen ->]]]]].
  exists beta, b. repeat split; try assumption.
  - rewrite <- Hne. f_equal. unfold np_c_ones, np_insert_col0. cbn [ncols rows].
    rewrite map_map. f_equal. lia.
  - rewrite length_skipn. lia.
Qed.

Lemma fit_least_squares_design_witness :
  let w := World __init__ [] in
  exists beta b,
    normal_equation (mk2 3 [[1; 1; 0]; [1; 1; 1]]) [3; 5] = ok beta /\
    getitem beta 0 = ok b /\
    length (skipn 1 beta) = 2%nat /\
    fit (Arr2 (mk2 1 [[0]; [1]])) [3; 5] "least_squares" 0.01 1000 (fun _ => 0) w
    = (ok tt, World (mk (Some (skipn 1 beta)) (Some b)) []).
Proof.
  intro w.
  apply (fit_least_squares_design w (mk2 1 [[0]; [1]]) [3; 5] 0.01 1000 (fun _ => 0)).
  reflexivity.
Defined.

(* ----------------------------------------------------------------- *)
(** ** Least squares on an exact line *)

(** A product of arrays is rectangular. *)
Lemma matmul_wf (A B C : array2 Q) : matmul A B = ok C -> wf C.
Proof.
  unfold matmul. destruct (Nat.eqb (ncols A) (nrows B)); [|discriminate].
  intro H. injection H as <-. unfold wf. cbn [ncols rows].
  apply Forall_forall. intros r Hr. apply in_map_iff in Hr.
  destruct Hr as [a [<- _]]. now rewrite length_map, columns_length.
Qed.

(** In the normal equation the array [pinv(A^T A)] is the Moore-Penrose
    pseudo-inverse of [A^T A], whatever the design matrix. *)
Lemma normal_equation_pinv (A G : array2 Q) :
  matmul (transpose A) A = ok G -> is_pinv G (pinv G) = true.
Proof. intro H. apply pinv_is_pinv. exact (matmul_wf _ _ _ H). Qed.

(** The pseudo-inverse used on the data of the next theorem satisfies the
    four Penrose equations. *)
Lemma pinv_penrose_exact_line :
  let G := mk2 3 [[3; 3; 3]; [3; 3; 3]; [3; 3; 5]] in
  matmul (transpose (mk2 3 [[1; 1; 0]; [1; 1; 1]; [1; 1; 2]]))
         (mk2 3 [[1; 1; 0]; [1; 1; 1]; [1; 1; 2]]) = ok G /\
  is_pinv G (pinv G) = true.
Proof. split; vm_compute; reflexivity. Qed.

(** With the single column of ones that [fit] adds, the normal equation
    recovers the line: intercept 3 and slope 2. *)
Lemma normal_equation_one_bias_exact_line :
  exists beta,
    normal_equation (np_insert_col0 1 (reshape_col [0; 1; 2])) [3; 5; 7] = ok beta /\
    veq beta [3; 2].
Proof.
  eexists. split; [vm_compute; reflexivity|]. repeat constructor.
Qed.

(** C1 (the code departs from it). On the noiseless data [x = 0, 1, 2],
    [y = 2x + 3] a least-squares [fit] stores the intercept 3/2 and the
    coefficients [3/2, 2]: the two columns of ones share the intercept 3, and
    the stored intercept is not within 1e-6 of 3. *)
Theorem fit_least_squares_exact_line :
  exists (b : Q) (coefs : list Q),
    fit (Arr1 [0; 1; 2]) [3; 5; 7] "least_squares" 0.01 1000 (fun _ => 0)
        (World __init__ [])
    = (ok tt, World (mk (Some coefs) (Some b)) []) /\
    b == 3 # 2 /\
    veq coefs [3 # 2; 2] /\
    ~ Qabs (b - 3) <= 1 # 1000000.
Proof.
  eexists _, _. split; [vm_compute; reflexivity|].
  split; [reflexivity|]. split.
  - repeat constructor.
  - intro H. vm_compute in H. apply H. reflexivity.
Qed.

(* ================================================================= *)
(** * Further properties *)

(* ----------------------------------------------------------------- *)
(** ** [predict] and the two ways of fitting *)

Lemma bind_raise {S A B} (c : Eff S A) (k : A -> Eff S B) (s s' : S) (e : exn) :
  c s = (raise e, s') -> bind c k s = (raise e, s').
Proof. intro H. unfold bind. rewrite H. reflexivity. Qed.

Lemma reshape_col_wf (x : list Q) : wf (reshape_col x).
Proof.
  unfold wf, reshape_col. cbn [rows ncols]. apply Forall_forall.
  intros r Hr. apply in_map_iff in Hr. destruct Hr as [a [<- _]]. reflexivity.
Qed.

Lemma reshape_col_nrows (x : list Q) : nrows (reshape_col x) = length x.
Proof. unfold nrows, reshape_col. cbn [rows]. apply length_map. Qed.

(** X1. [predict] reads the model and never writes it: whatever the input, and
    whether it returns or raises, the instance and the printed lines are
    afterwards what they were before. *)
Theorem predict_keeps_world :
  forall (X : ndarray) (w : world), snd (predict X w) = w.
Proof.
  intros X [[[c|] [b|]] out]; try reflexivity.
  unfold predict, bind, get_self, lift, ret. cbn [self coefficients intercept ok].
  destruct X as [x | X].
  - destruct (getitem c 1); reflexivity.
  - destruct (matvec X c); reflexivity.
Qed.

(** X7. After [fit] with "gradient_descent" on a 1-D array of features (one
    target per entry, at least one), the model holds a single coefficient,
    and [predict] on a 1-D array, which reads [coefficients[1]], raises
    [IndexError] whatever the array. *)
Theorem fit_gradient_descent_then_predict_1d_raises :
  forall (w0 : world) (x y : list Q) (learning_rate : Q) (iterations : Z)
         (rnd : nat -> Q),
    length y = length x ->
    y <> [] ->
    exists w1,
      fit (Arr1 x) y "gradient_descent" learning_rate iterations rnd w0 = (ok tt, w1) /\
      forall x', predict (Arr1 x') w1 = (raise IndexError, w1).
Proof.
  intros w0 x y lr it rnd Hy Hne.
  destruct (fit_gradient_descent_runs w0 (reshape_col x) y lr it rnd
              (reshape_col_wf x)) as [_ [w' [b' [out' [Hfit Hw']]]]];
    [now rewrite reshape_col_nrows | assumption |].
  eexists. split; [exact Hfit|]. intro x'.
  destruct w' as [|c [|c' w']]; try discriminate. reflexivity.
Qed.

Lemma fit_gradient_descent_then_predict_1d_raises_witness :
  exists w1,
    fit (Arr1 [1; 2]) [3; 5] "gradient_descent" 0.01 2 (fun _ => 1) (World __init__ [])
    = (ok tt, w1) /\
    forall x', predict (Arr1 x') w1 = (raise IndexError, w1).
Proof.
  apply fit_gradient_descent_then_predict_1d_raises.
  - reflexivity.
  - discriminate.
Defined.

(** The least-squares solution is a matrix applied to the targets: the
    matrix is [pinv(A^T A) A^T], of the shape of [A^T]. *)
Lemma normal_equation_matvec (A : array2 Q) :
  exists H, ncols H = nrows A /\ nrows H = ncols A /\
            forall y, normal_equation A y = matvec H y.
Proof.
  unfold normal_equation.
  assert (HG : exists G, matmul (transpose A) A = ok G /\
                         ncols G = ncols A /\ nrows G = ncols A).
  { unfold matmul, transpose. cbn [ncols]. rewrite Nat.eqb_refl.
    eexists. split; [reflexivity|]. unfold nrows. cbn [ncols rows].
    now rewrite length_map, columns_length. }
  destruct HG as [G [-> [HGc HGr]]]. cbn [rbind ok].
  destruct (pinv_shape G) as [HPr HPc].
  assert (HH : exists H, matmul (pinv G) (transpose A) = ok H /\
                         ncols H = nrows A /\ nrows H = ncols A).
  { unfold matmul. rewrite HPc, HGr.
    replace (nrows (transpose A)) with (ncols A)
      by (unfold nrows, transpose; cbn [rows]; now rewrite columns_length).
    rewrite Nat.eqb_refl. eexists. split; [reflexivity|].
    unfold nrows in *. cbn [ncols rows]. rewrite length_map. split; [reflexivity|].
    now rewrite HPr. }
  destruct HH as [H [-> [HHc HHr]]]. exists H.
  split; [assumption | split; [assumption | reflexivity]].
Qed.

Lemma design_nrows (X : array2 Q) :
  nrows (np_c_ones (np_insert_col0 1 X)) = nrows X.
Proof. unfold nrows. cbn [np_c_ones np_insert_col0 rows]. now rewrite !length_map. Qed.

(** X3. [fit] with "least_squares" checks the targets before it stores anything:
    when [y] has not one entry per row of [X], it raises the
    dimension-mismatch [ValueError] of [@] and the model is what it was. *)
Theorem fit_least_squares_wrong_length_raises :
  forall (w : world) (X : array2 Q) (y : list Q) (learning_rate : Q)
         (iterations : Z) (rnd : nat -> Q),
    length y <> nrows X ->
    fit (Arr2 X) y "least_squares" learning_rate iterations rnd w
    = (raise (ValueError MatmulMismatch), w).
Proof.
  intros w X y lr it rnd Hy. rewrite fit_least_squares_unfold.
  destruct (normal_equation_matvec (np_c_ones (np_insert_col0 1 X)))
    as [H [Hc [_ ->]]].
  unfold matvec. rewrite Hc, design_nrows.
  replace (Nat.eqb (nrows X) (length y)) with false
    by (symmetry; apply Nat.eqb_neq; congruence).
  reflexivity.
Qed.

Lemma fit_least_squares_wrong_length_raises_witness :
  fit (Arr2 (mk2 1 [[0]; [1]])) [3; 5; 7] "least_squares" 0.01 1000 (fun _ => 0)
      (World __init__ [])
  = (raise (ValueError MatmulMismatch), World __init__ []).
Proof.
  apply fit_least_squares_wrong_length_raises. cbn. lia.
Defined.

(** X2. After [fit] with "least_squares" on a 1-D array of features, with one
    target per entry, the model holds two coefficients, and [predict] on a
    1-D array returns [coefficients[1] * x + intercept] entry by entry:
    [coefficients[0]], the weight of the second column of ones, takes no part
    in the prediction. *)
Theorem fit_least_squares_then_predict_1d :
  forall (w0 : world) (x y : list Q) (learning_rate : Q) (iterations : Z)
         (rnd : nat -> Q),
    length y = length x ->
    exists c0 c1 b out,
      fit (Arr1 x) y "least_squares" learning_rate iterations rnd w0
      = (ok tt, World (mk (Some [c0; c1]) (Some b)) out) /\
      forall x',
        predict (Arr1 x') (World (mk (Some [c0; c1]) (Some b)) out)
        = (ok (map (fun xi => c1 * xi + b) x'),
           World (mk (Some [c0; c1]) (Some b)) out).
Proof.
  intros w0 x y lr it rnd Hy.
  destruct (fit_least_squares_stored w0 (reshape_col x) y lr it rnd) as [Hex Hst].
  destruct Hex as [w1 Hfit]; [now rewrite reshape_col_nrows|].
  destruct (Hst w1 Hfit) as [beta [b [_ [Hg [Hlen ->]]]]].
  cbn [reshape_col ncols Nat.add] in Hlen.
  destruct beta as [|b0 [|c0 [|c1 [|c2 beta]]]]; try discriminate.
  exists c0, c1, b, (stdout w0). split; [exact Hfit|]. reflexivity.
Qed.

Lemma fit_least_squares_then_predict_1d_witness :
  exists c0 c1 b out,
    fit (Arr1 [0; 1]) [3; 5] "least_squares" 0.01 1000 (fun _ => 0) (World __init__ [])
    = (ok tt, World (mk (Some [c0; c1]) (Some b)) out) /\
    forall x',
      predict (Arr1 x') (World (mk (Some [c0; c1]) (Some b)) out)
      = (ok (map (fun xi => c1 * xi + b) x'),
         World (mk (Some [c0; c1]) (Some b)) out).
Proof.
  apply fit_least_squares_then_predict_1d. reflexivity.
Defined.

(* ----------------------------------------------------------------- *)
(** ** Gradient descent: the whole fit *)

Lemma fit_gradient_descent_unfold (w0 : world) (X : array2 Q) (y : list Q)
    (learning_rate : Q) (iterations : Z) (rnd : nat -> Q) :
  fit (Arr2 X) y "gradient_descent" learning_rate iterations rnd w0
  = for_each (seq 0 (Z.to_nat iterations))
             (gd_epoch (np_insert_col0 1 X) y learning_rate (length y))
             (World (gd_initial rnd (ncols X)) (stdout w0)).
Proof. reflexivity. Qed.

Lemma broadcast1_mismatch (f : Q -> Q -> Q) (u v : list Q) :
  length u <> length v -> length u <> 1%nat -> length v <> 1%nat ->
  broadcast1 f u v = raise (ValueError BroadcastMismatch).
Proof.
  intros Huv Hu Hv. unfold broadcast1.
  replace (Nat.eqb (length u) (length v)) with false
    by (symmetry; now apply Nat.eqb_neq).
  destruct u as [|a [|a' u]], v as [|c [|c' v]]; simpl in *; congruence.
Qed.

(** One epoch, with what it prints: the mean squared residual of the model
    the epoch starts from, at the epochs that are multiples of 1000. *)
Lemma gd_epoch_trace (X : array2 Q) (y : list Q) (learning_rate : Q) (epoch : nat)
    (w : list Q) (b : Q) (out : list (nat * npfloat)) :
  wf X ->
  length w = ncols X ->
  length y = nrows X ->
  y <> [] ->
  exists w' b',
    gd_epoch (np_insert_col0 1 X) y learning_rate (length y) epoch
             (World (mk (Some w) (Some b)) out)
    = (ok tt,
       World (mk (Some w') (Some b'))
             (if Nat.eqb (epoch mod 1000) 0
              then out ++ [(epoch, np_mean (map (fun e => e ^ 2) (residuals X w b y)))]
              else out)) /\
    Forall2 (fun wk' wk => wk' == wk - summed_step X y learning_rate w b) w' w.
Proof.
  intros Hwf Hw Hy Hne.
  assert (Hm : length y <> 0%nat) by (destruct y; [congruence | discriminate]).
  destruct (vsum_bias_gradient X (residuals X w b y) Hwf
              (residuals_length X w b y Hy)) as [Xe [HXe Hsum]].
  destruct (isub_scalar w (2 * learning_rate / inject_Z (Z.of_nat (length y)) * vsum Xe))
    as [w' [Hisub Hw']].
  unfold gd_epoch.
  rewrite drop_insert_col0.
  erewrite bind_ok by (apply predict_2d; congruence).
  erewrite bind_lift_ok by (apply epoch_residuals; assumption).
  cbn [np_ndim Nat.sub seq collect].
  unfold bind, lift, get_self, set_intercept, set_coefficients, ret.
  rewrite !py_div_nonzero by assumption. rewrite HXe.
  cbn [ok self intercept coefficients stdout]. rewrite Hisub.
  exists w'. unfold ok, print.
  assert (Hstep : Forall2 (fun wk' wk => wk' == wk - summed_step X y learning_rate w b)
                          w' w).
  { revert Hw'. apply Forall2_impl. intros wk' wk ->.
    unfold summed_step. rewrite Hsum. reflexivity. }
  destruct (Nat.eqb (epoch mod 1000) 0); eexists;
    (split; [reflexivity | exact Hstep]).
Qed.

Lemma Forall2_shift_compose (w1 w : list Q) (s1 : Q) :
  Forall2 (fun wk' wk => wk' == wk - s1) w1 w ->
  forall (w2 : list Q) (s2 : Q),
    Forall2 (fun wk' wk => wk' == wk - s2) w2 w1 ->
    Forall2 (fun wk' wk => wk' == wk - (s1 + s2)) w2 w.
Proof.
  induction 1 as [|a1 a w1 w Ha Hrest IH]; intros w2 s2 H2;
    inversion H2 as [|a2 ? w2' ? Ha2 H2']; subst; constructor.
  - rewrite Ha2, Ha. ring.
  - now apply IH.
Qed.

(** Any number of epochs: the lines printed, and the coefficients, which
    have all lost one and the same number. *)
Lemma gd_epochs_trace (X : array2 Q) (y : list Q) (learning_rate : Q) :
  wf X ->
  length y = nrows X ->
  y <> [] ->
  forall (epochs : list nat) (w : list Q) (b : Q) (out : list (nat * npfloat)),
    length w = ncols X ->
    exists w' b' lines shift,
      for_each epochs (gd_epoch (np_insert_col0 1 X) y learning_rate (length y))
               (World (mk (Some w) (Some b)) out)
      = (ok tt, World (mk (Some w') (Some b')) (out ++ lines)) /\
      map fst lines = filter (fun epoch => Nat.eqb (epoch mod 1000) 0) epochs /\
      Forall2 (fun wk' wk => wk' == wk - shift) w' w.
Proof.
  intros Hwf Hy Hne. induction epochs as [|e epochs IH]; intros w b out Hw.
  - exists w, b, [], 0. rewrite app_nil_r. repeat split.
    clear Hw. induction w; constructor; [ring | assumption].
  - destruct (gd_epoch_trace X y learning_rate e w b out Hwf Hw Hy Hne)
      as [w1 [b1 [Hrun Hstep]]].
    cbn [for_each filter]. erewrite bind_ok by exact Hrun.
    assert (Hw1 : length w1 = ncols X) by (rewrite (Forall2_length Hstep); exact Hw).
    set (s1 := summed_step X y learning_rate w b) in *.
    pose proof (Forall2_shift_compose w1 w s1 Hstep) as Hcomp.
    destruct (Nat.eqb (e mod 1000) 0).
    + set (line := (e, np_mean (map (fun e => e ^ 2) (residuals X w b y)))).
      destruct (IH w1 b1 (out ++ [line]) Hw1) as [w2 [b2 [lines [s2 [Hrun2 [Hl H2]]]]]].
      exists w2, b2, (line :: lines), (s1 + s2). rewrite Hrun2, <- app_assoc.
      split; [reflexivity|]. split; [cbn [map fst line]; now rewrite Hl|]. now apply Hcomp.
    + destruct (IH w1 b1 out Hw1) as [w2 [b2 [lines [s2 [Hrun2 [Hl H2]]]]]].
      exists w2, b2, lines, (s1 + s2). rewrite Hrun2.
      split; [reflexivity|]. split; [assumption|]. now apply Hcomp.
Qed.

Lemma Forall2_map_r_seq {A B C} (R : A -> C -> Prop) (f : B -> C)
    (l : list A) (l' : list B) :
  Forall2 R l (map f l') -> Forall2 (fun a b => R a (f b)) l l'.
Proof.
  revert l. induction l' as [|b l' IH]; intros l H; inversion H; subst;
    constructor; auto.
Qed.

(** X6. After [fit] with "gradient_descent" on an [(n, p)] array, with one target
    per row and [n >= 1], [predict] on a 2-D array returns one prediction
    per row when the array has [p] columns, and raises the dimension-mismatch
    [ValueError] of [@] when it has not. *)
Theorem fit_gradient_descent_then_predict_2d :
  forall (w0 : world) (X : array2 Q) (y : list Q) (learning_rate : Q)
         (iterations : Z) (rnd : nat -> Q),
    wf X ->
    length y = nrows X ->
    y <> [] ->
    exists w1,
      fit (Arr2 X) y "gradient_descent" learning_rate iterations rnd w0 = (ok tt, w1) /\
      forall X' : array2 Q,
        (ncols X' = ncols X ->
         exists predictions,
           predict (Arr2 X') w1 = (ok predictions, w1) /\
           length predictions = nrows X') /\
        (ncols X' <> ncols X ->
         predict (Arr2 X') w1 = (raise (ValueError MatmulMismatch), w1)).
Proof.
  intros w0 X y lr it rnd Hwf Hy Hne.
  destruct (fit_gradient_descent_runs w0 X y lr it rnd Hwf Hy Hne)
    as [_ [w' [b' [out' [Hfit Hw']]]]].
  eexists. split; [exact Hfit|]. intro X'. split; intro HX'.
  - rewrite predict_2d by congruence. eexists. split; [reflexivity|].
    unfold nrows. now rewrite !length_map.
  - unfold predict, bind, get_self, lift, matvec. cbn [self coefficients intercept ok].
    replace (Nat.eqb (ncols X') (length w')) with false
      by (symmetry; apply Nat.eqb_neq; congruence).
    reflexivity.
Qed.

Lemma fit_gradient_descent_then_predict_2d_witness :
  exists w1,
    fit (Arr2 (mk2 2 [[1; 2]; [3; 4]])) [3; 5] "gradient_descent" 0.01 2 (fun _ => 1)
        (World __init__ [])
    = (ok tt, w1) /\
    forall X' : array2 Q,
      (ncols X' = 2%nat ->
       exists predictions,
         predict (Arr2 X') w1 = (ok predictions, w1) /\
         length predictions = nrows X') /\
      (ncols X' <> 2%nat ->
       predict (Arr2 X') w1 = (raise (ValueError MatmulMismatch), w1)).
Proof.
  apply (fit_gradient_descent_then_predict_2d (World __init__ [])
           (mk2 2 [[1; 2]; [3; 4]]) [3; 5] 0.01 2 (fun _ => 1)).
  - repeat constructor.
  - reflexivity.
  - discriminate.
Defined.

(** X8. [fit] with "gradient_descent" stores the random initial parameters
    before it looks at the targets.  When [y] cannot be broadcast against
    the [n] predictions (its length is neither [n] nor 1, and [n] is not 1)
    and at least one iteration is asked for, the first epoch raises the
    broadcasting [ValueError], and the model is left holding the initial
    draws: a fitted model, whatever it was before. *)
Theorem fit_gradient_descent_wrong_length_leaves_draws :
  forall (w0 : world) (X : array2 Q) (y : list Q) (learning_rate : Q)
         (iterations : Z) (rnd : nat -> Q),
    length y <> nrows X ->
    length y <> 1%nat ->
    nrows X <> 1%nat ->
    (0 < iterations)%Z ->
    fit (Arr2 X) y "gradient_descent" learning_rate iterations rnd w0
    = (raise (ValueError BroadcastMismatch),
       World (gd_initial rnd (ncols X)) (stdout w0)).
Proof.
  intros w0 X y lr it rnd Hy Hy1 Hn1 Hit.
  rewrite fit_gradient_descent_unfold.
  destruct (Z.to_nat it) as [|n] eqn:En; [lia|].
  cbn [seq for_each]. apply bind_raise.
  unfold gd_epoch, gd_initial. rewrite drop_insert_col0.
  erewrite bind_ok by (apply predict_2d; now rewrite length_map, length_seq).
  apply bind_raise. unfold lift. f_equal.
  apply broadcast1_mismatch; rewrite ?length_map; fold (nrows X); congruence.
Qed.

Lemma fit_gradient_descent_wrong_length_leaves_draws_witness :
  fit (Arr2 (mk2 1 [[1]; [2]])) [3; 5; 7] "gradient_descent" 0.01 1000 (fun _ => 1)
      (World __init__ [])
  = (raise (ValueError BroadcastMismatch),
     World (gd_initial (fun _ => 1) 1) []).
Proof.
  apply (fit_gradient_descent_wrong_length_leaves_draws (World __init__ [])
           (mk2 1 [[1]; [2]]) [3; 5; 7] 0.01 1000 (fun _ => 1)).
  - cbn. lia.
  - cbn. lia.
  - cbn. lia.
  - lia.
Defined.

(** X9. With [iterations <= 0] the loop of [fit_gradient_descent] has no epoch:
    [fit] returns for every 2-D array and every [y], whatever their shapes,
    prints nothing, and the model holds the initial random draws. *)
Theorem fit_gradient_descent_no_iteration :
  forall (w0 : world) (X : array2 Q) (y : list Q) (learning_rate : Q)
         (iterations : Z) (rnd : nat -> Q),
    (iterations <= 0)%Z ->
    fit (Arr2 X) y "gradient_descent" learning_rate iterations rnd w0
    = (ok tt, World (gd_initial rnd (ncols X)) (stdout w0)).
Proof.
  intros w0 X y lr it rnd Hit. rewrite fit_gradient_descent_unfold.
  replace (Z.to_nat it) with 0%nat by lia. reflexivity.
Qed.

Lemma fit_gradient_descent_no_iteration_witness :
  fit (Arr2 (mk2 1 [[1]; [2]])) [3; 5; 7] "gradient_descent" 0.01 (-5) (fun _ => 1)
      (World __init__ [])
  = (ok tt, World (gd_initial (fun _ => 1) 1) []).
Proof.
  apply (fit_gradient_descent_no_iteration (World __init__ [])
           (mk2 1 [[1]; [2]]) [3; 5; 7] 0.01 (-5) (fun _ => 1)).
  lia.
Defined.

(** X10. Gradient descent as coded cannot tell the features apart.  In exact
    arithmetic (the floats taken as the rationals they denote, without the
    rounding of each subtraction), after a fit of any number of iterations
    every coefficient is its initial random draw minus one number common to
    all of them, so that two coefficients differ after the fit as their
    draws did. *)
Theorem fit_gradient_descent_common_shift :
  forall (w0 : world) (X : array2 Q) (y : list Q) (learning_rate : Q)
         (iterations : Z) (rnd : nat -> Q),
    wf X ->
    length y = nrows X ->
    y <> [] ->
    exists w' b' out' shift,
      fit (Arr2 X) y "gradient_descent" learning_rate iterations rnd w0
      = (ok tt, World (mk (Some w') (Some b')) out') /\
      Forall2 (fun wk' k => wk' == rnd k * 0.01 - shift) w' (seq 0 (ncols X)).
Proof.
  intros w0 X y lr it rnd Hwf Hy Hne. rewrite fit_gradient_descent_unfold.
  unfold gd_initial.
  destruct (gd_epochs_trace X y lr Hwf Hy Hne (seq 0 (Z.to_nat it))
              (map (fun i => rnd i * 0.01) (seq 0 (ncols X))) (rnd (ncols X) * 0.01)
              (stdout w0))
    as [w' [b' [lines [shift [Hrun [_ Hshift]]]]]];
    [now rewrite length_map, length_seq|].
  exists w', b', (stdout w0 ++ lines), shift. split; [exact Hrun|].
  now apply Forall2_map_r_seq in Hshift.
Qed.

Lemma fit_gradient_descent_common_shift_witness :
  exists w' b' out' shift,
    fit (Arr2 (mk2 2 [[1; 2]; [3; 4]])) [3; 5] "gradient_descent" 0.01 2 (fun k => inject_Z (Z.of_nat k))
        (World __init__ [])
    = (ok tt, World (mk (Some w') (Some b')) out') /\
    Forall2 (fun wk' k => wk' == inject_Z (Z.of_nat k) * 0.01 - shift) w' (seq 0 2).
Proof.
  apply (fit_gradient_descent_common_shift (World __init__ [])
           (mk2 2 [[1; 2]; [3; 4]]) [3; 5] 0.01 2 (fun k => inject_Z (Z.of_nat k))).
  - repeat constructor.
  - reflexivity.
  - discriminate.
Defined.

(** X11. The progress lines of a fit by gradient descent: with [iterations]
    epochs, numbered from 0, one line is printed at each epoch that is a
    multiple of 1000, in order, after what had been printed before, and
    nothing else is printed. *)
Theorem fit_gradient_descent_printed_epochs :
  forall (w0 : world) (X : array2 Q) (y : list Q) (learning_rate : Q)
         (iterations : Z) (rnd : nat -> Q),
    wf X ->
    length y = nrows X ->
    y <> [] ->
    exists w1 lines,
      fit (Arr2 X) y "gradient_descent" learning_rate iterations rnd w0 = (ok tt, w1) /\
      stdout w1 = stdout w0 ++ lines /\
      map fst lines = printed_epochs (Z.to_nat iterations).
Proof.
  intros w0 X y lr it rnd Hwf Hy Hne. rewrite fit_gradient_descent_unfold.
  unfold gd_initial.
  destruct (gd_epochs_trace X y lr Hwf Hy Hne (seq 0 (Z.to_nat it))
              (map (fun i => rnd i * 0.01) (seq 0 (ncols X))) (rnd (ncols X) * 0.01)
              (stdout w0))
    as [w' [b' [lines [shift [Hrun [Hlines _]]]]]];
    [now rewrite length_map, length_seq|].
  eexists _, lines. split; [exact Hrun|]. split; [reflexivity | exact Hlines].
Qed.

Lemma fit_gradient_descent_printed_epochs_witness :
  exists w1 lines,
    fit (Arr2 (mk2 1 [[1]; [2]])) [3; 5] "gradient_descent" 0.01 3 (fun _ => 1)
        (World __init__ [])
    = (ok tt, w1) /\
    stdout w1 = [] ++ lines /\
    map fst lines = printed_epochs (Z.to_nat 3).
Proof.
  apply (fit_gradient_descent_printed_epochs (World __init__ [])
           (mk2 1 [[1]; [2]]) [3; 5] 0.01 3 (fun _ => 1)).
  - repeat constructor.
  - reflexivity.
  - discriminate.
Defined.

(** X12. A fit starts afresh: when [fit] returns from a model, it returns from
    any other model too, with the same parameters; nothing of what an
    earlier fit had stored goes into the new one. *)
Theorem fit_forgets_previous_model :
  forall (X : ndarray) (y : list Q) (method : string) (learning_rate : Q)
         (iterations : Z) (rnd : nat -> Q) (s1 s2 : LinearRegressor.t)
         (out : list (nat * npfloat)) (w1 : world),
    fit X y method learning_rate iterations rnd (World s1 out) = (ok tt, w1) ->
    fit X y method learning_rate iterations rnd (World s2 out) = (ok tt, w1).
Proof.
  intros X y method lr it rnd s1 s2 out w1.
  assert (H2d : forall A : array2 Q,
             fit (Arr2 A) y method lr it rnd (World s1 out) = (ok tt, w1) ->
             fit (Arr2 A) y method lr it rnd (World s2 out) = (ok tt, w1)).
  { intro A. destruct (String.eqb method "least_squares") eqn:E1.
    - apply String.eqb_eq in E1. subst method. rewrite !fit_least_squares_unfold.
      destruct (normal_equation _ y) as [e | beta]; [discriminate|].
      destruct (getitem beta 0); [discriminate|]. exact (fun H => H).
    - destruct (String.eqb method "gradient_descent") eqn:E2.
      + apply String.eqb_eq in E2. subst method.
        rewrite !fit_gradient_descent_unfold. exact (fun H => H).
      + unfold fit. cbn [existsb]. rewrite E1, E2. discriminate. }
  destruct X as [x | A]; [exact (H2d (reshape_col x)) | exact (H2d A)].
Qed.

Lemma fit_forgets_previous_model_witness :
  exists w1,
    fit (Arr1 [0; 1]) [3; 5] "least_squares" 0.01 1000 (fun _ => 0)
        (World (mk (Some [7]) (Some 9)) [])
    = (ok tt, w1).
Proof.
  eexists.
  apply (fit_forgets_previous_model (Arr1 [0; 1]) [3; 5] "least_squares" 0.01 1000
           (fun _ => 0) __init__ (mk (Some [7]) (Some 9)) []).
  vm_compute. reflexivity.
Defined.

(* ----------------------------------------------------------------- *)
(** ** [evaluate_regression]: errors and ranges *)

(** What [evaluate_regression] returns once the residuals exist and
    [y_true] is not empty. *)
Lemma evaluate_regression_run (y0 : Q) (y' y_pred residual : list Q) :
  let y := y0 :: y' in
  let N := inject_Z (Z.of_nat (length y)) in
  broadcast1 Qminus y y_pred = ok residual ->
  evaluate_regression y y_pred
  = ok (Metrics (np_sub (Fin 1)
                   (np_div (Fin (sum_squares residual)) (Fin (total_sum_squares y))))
                (np_sqrt (1 / N * sum_squares residual))
                (1 / N * vsum (map Qabs residual))).
Proof.
  intros y N Hres. unfold evaluate_regression. rewrite Hres. cbn [rbind].
  unfold np_mean.
  change (np_div (Fin (vsum y)) (Fin (inject_Z (Z.of_nat (length y)))))
    with (if Qeq_bool N 0 then signed_inf (vsum y ?= 0) PInf else Fin (mean_of y)).
  destruct (Qeq_bool N 0) eqn:En.
  { apply Qeq_bool_eq in En. exfalso. revert En. apply inject_nat_nonzero. }
  change (fun yi => let d := np_sub (Fin yi) (Fin (mean_of y)) in np_mul d d)
    with (fun yi => Fin ((yi + - mean_of y) * (yi + - mean_of y))).
  rewrite (np_sum_Fin (fun yi => (yi + - mean_of y) * (yi + - mean_of y))).
  reflexivity.
Qed.

(** [evaluate_regression] returns only when the residuals exist and
    [y_true] is not empty. *)
Lemma evaluate_regression_returns (y_true y_pred : list Q) (m : metrics) :
  evaluate_regression y_true y_pred = ok m ->
  exists y0 y' residual,
    y_true = y0 :: y' /\ broadcast1 Qminus y_true y_pred = ok residual.
Proof.
  unfold evaluate_regression.
  destruct (broadcast1 Qminus y_true y_pred) as [e | residual]; [discriminate|].
  destruct y_true as [|y0 y']; [discriminate|]. intros _.
  exists y0, y', residual. split; reflexivity.
Qed.

Lemma sum_squares_nonneg (v : list Q) : 0 <= sum_squares v.
Proof.
  apply vsum_nonneg, Forall_forall. intros x Hx. apply in_map_iff in Hx.
  destruct Hx as [e [<- _]]. change (e ^ 2) with (e * e). apply Qsquare_nonneg.
Qed.

Lemma total_sum_squares_nonneg (y : list Q) : 0 <= total_sum_squares y.
Proof.
  apply vsum_nonneg, Forall_forall. intros x Hx. apply in_map_iff in Hx.
  destruct Hx as [e [<- _]]. apply Qsquare_nonneg.
Qed.

Lemma sum_abs_nonneg (v : list Q) : 0 <= vsum (map Qabs v).
Proof.
  apply vsum_nonneg, Forall_forall. intros x Hx. apply in_map_iff in Hx.
  destruct Hx as [e [<- _]]. apply Qabs_nonneg.
Qed.

Lemma inject_nat_pos (n : nat) : 0 < inject_Z (Z.of_nat (S n)).
Proof. unfold Qlt. simpl. lia. Qed.

Lemma inv_count_nonneg (n : nat) : 0 <= 1 / inject_Z (Z.of_nat (S n)).
Proof.
  apply Qlt_le_weak. unfold Qdiv. rewrite Qmult_1_l.
  apply Qinv_lt_0_compat, inject_nat_pos.
Qed.

Lemma inject_nat_succ (n : nat) :
  inject_Z (Z.of_nat (S n)) == inject_Z (Z.of_nat n) + 1.
Proof. rewrite Nat2Z.inj_succ. unfold Z.succ. now rewrite inject_Z_plus. Qed.

Lemma vsum_all_equal (l : list Q) (a : Q) :
  Forall (fun x => x == a) l -> vsum l == inject_Z (Z.of_nat (length l)) * a.
Proof.
  induction 1 as [|x l Hx Hl IH].
  - cbn [length]. change (vsum []) with 0. change (inject_Z (Z.of_nat 0)) with 0. ring.
  - cbn [length]. rewrite vsum_cons, inject_nat_succ, IH, Hx. ring.
Qed.

(** The entries of a constant vector equal its mean. *)
Lemma constant_mean (y0 : Q) (y' : list Q) :
  constant (y0 :: y') -> forall yi, In yi (y0 :: y') -> yi == mean_of (y0 :: y').
Proof.
  intros Hc yi Hyi.
  assert (Hall : Forall (fun x => x == y0) (y0 :: y')).
  { apply Forall_forall. intros x Hx. apply Hc; [exact Hx | now left]. }
  unfold mean_of. rewrite (vsum_all_equal _ _ Hall).
  rewrite (Hc yi y0 Hyi (or_introl eq_refl)).
  pose proof (inject_nat_nonzero (length y')) as HN. cbn [length].
  field. exact HN.
Qed.

(** The total sum of squares is zero for the constant vectors, and for
    them only. *)
Lemma total_sum_squares_zero (y0 : Q) (y' : list Q) :
  total_sum_squares (y0 :: y') == 0 <-> constant (y0 :: y').
Proof.
  set (y := y0 :: y'). split.
  - intros Hz a b Ha Hb.
    destruct (Qeq_dec a b) as [E | E]; [exact E|]. exfalso.
    exact (TSS_nonzero y (mean_of y) (ex_intro _ a (ex_intro _ b (conj Ha (conj Hb E)))) Hz).
  - intro Hc. apply vsum_all_zero, Forall_forall. intros x Hx.
    apply in_map_iff in Hx. destruct Hx as [yi [<- Hyi]].
    pose proof (constant_mean y0 y' Hc yi Hyi) as E. fold y in E.
    rewrite E. ring.
Qed.

(** X14. Whenever [evaluate_regression] returns, in exact arithmetic: MAE is
    not negative, RMSE is the root of a number that is not negative, and R2
    is never [+inf].  R2 is a finite number, not above 1, exactly when
    [y_true] is not constant; it is [-inf] or [nan] exactly when [y_true] is
    constant. *)
Theorem evaluate_regression_ranges :
  forall (y_true y_pred : list Q) (m : metrics),
    evaluate_regression y_true y_pred = ok m ->
    0 <= MAE m /\
    0 <= radicand (RMSE m) /\
    match R2 m with
    | Fin r => r <= 1 /\ ~ constant y_true
    | PInf => False
    | NInf | NaN => constant y_true
    end.
Proof.
  intros y_true y_pred m Hm.
  destruct (evaluate_regression_returns _ _ _ Hm) as [y0 [y' [res [-> Hres]]]].
  rewrite (evaluate_regression_run y0 y' y_pred res Hres) in Hm.
  injection Hm as <-. cbn [MAE RMSE R2 np_sqrt radicand].
  pose proof (sum_squares_nonneg res) as HRSS.
  pose proof (total_sum_squares_nonneg (y0 :: y')) as HTSS.
  pose proof (inv_count_nonneg (length y')) as HN.
  pose proof (total_sum_squares_zero y0 y') as Hconst.
  split; [|split].
  - apply Qmult_le_0_compat; [exact HN | apply sum_abs_nonneg].
  - apply Qmult_le_0_compat; [exact HN | exact HRSS].
  - unfold np_div.
    destruct (Qeq_bool (total_sum_squares (y0 :: y')) 0) eqn:Et.
    + apply Qeq_bool_eq in Et. apply Hconst in Et.
      destruct (sum_squares res ?= 0) eqn:Ec;
        cbn [signed_inf np_sub np_neg np_add]; try exact Et.
      apply Qlt_alt in Ec. lra.
    + apply Qeq_bool_neq in Et. cbn [np_sub np_neg np_add]. split.
      * assert (0 <= sum_squares res / total_sum_squares (y0 :: y')).
        { apply Qle_shift_div_l; lra. }
        lra.
      * intro Hc. apply Et, Hconst, Hc.
Qed.

Lemma evaluate_regression_ranges_witness :
  exists m,
    evaluate_regression [1; 2; 3] [1; 3; 2] = ok m /\
    0 <= MAE m /\
    0 <= radicand (RMSE m) /\
    match R2 m with
    | Fin r => r <= 1 /\ ~ constant [1; 2; 3]
    | PInf => False
    | NInf | NaN => constant [1; 2; 3]
    end.
Proof.
  eexists. split.
  - vm_compute. reflexivity.
  - apply (evaluate_regression_ranges [1; 2; 3] [1; 3; 2]). vm_compute. reflexivity.
Defined.

(** X15. With an empty [y_true] nothing is ever returned: the division [1 / N]
    raises [ZeroDivisionError] when [y_pred] has at most one entry, and the
    subtraction raises the broadcasting [ValueError] when it has more. *)
Theorem evaluate_regression_no_target_raises :
  forall y_pred : list Q,
    evaluate_regression [] y_pred
    = raise (if Nat.leb (length y_pred) 1 then ZeroDivisionError
             else ValueError BroadcastMismatch).
Proof.
  intros [|p [|p' y_pred]]; reflexivity.
Qed.

(** X16. Arrays of different lengths, neither of length one, are refused: the
    subtraction [y_true - y_pred] raises the broadcasting [ValueError]. *)
Theorem evaluate_regression_length_mismatch_raises :
  forall y_true y_pred : list Q,
    length y_true <> length y_pred ->
    length y_true <> 1%nat ->
    length y_pred <> 1%nat ->
    evaluate_regression y_true y_pred = raise (ValueError BroadcastMismatch).
Proof.
  intros y_true y_pred H H1 H2. unfold evaluate_regression.
  rewrite broadcast1_mismatch by assumption. reflexivity.
Qed.

Lemma evaluate_regression_length_mismatch_raises_witness :
  evaluate_regression [1; 2; 3] [1; 2] = raise (ValueError BroadcastMismatch).
Proof.
  apply evaluate_regression_length_mismatch_raises; cbn; lia.
Defined.

Lemma broadcast1_scalar (y : list Q) (c : Q) :
  broadcast1 Qminus y [c] = ok (map (fun a => a - c) y).
Proof. destruct y as [|a [|a' y]]; reflexivity. Qed.

Lemma broadcast1_repeat (y : list Q) (c : Q) :
  broadcast1 Qminus y (repeat c (length y)) = ok (map (fun a => a - c) y).
Proof.
  unfold broadcast1. rewrite repeat_length, Nat.eqb_refl. f_equal.
  induction y as [|a y IH]; [reflexivity|].
  cbn [length repeat combine map fst snd]. now rewrite IH.
Qed.

(** X17. A prediction array of length one is not refused but broadcast: the
    metrics are those of the constant prediction of that value for every
    target, whatever the number of targets. *)
Theorem evaluate_regression_scalar_prediction :
  forall (y_true : list Q) (c : Q),
    evaluate_regression y_true [c]
    = evaluate_regression y_true (repeat c (length y_true)).
Proof.
  intros y_true c. unfold evaluate_regression.
  now rewrite broadcast1_scalar, broadcast1_repeat.
Qed.

Lemma vsum_map_ext {A} (f g : A -> Q) (l : list A) :
  (forall x, f x == g x) -> vsum (map f l) == vsum (map g l).
Proof.
  intro H. induction l as [|x l IH]; [reflexivity|].
  cbn [map]. rewrite !vsum_cons, H, IH. reflexivity.
Qed.

(** X18. Predicting the mean of the targets for every target scores R2 = 0, for
    targets that are not all equal. *)
Theorem evaluate_regression_mean_prediction :
  forall y : list Q,
    (exists a b, In a y /\ In b y /\ ~ a == b) ->
    exists m,
      evaluate_regression y (repeat (mean_of y) (length y)) = ok m /\
      np_is (R2 m) 0.
Proof.
  intros y Hy.
  destruct y as [|y0 y']; [destruct Hy as [a [b [[] _]]]|].
  set (y := y0 :: y') in *.
  pose proof (TSS_nonzero y (mean_of y) Hy) as Htss. fold (total_sum_squares y) in Htss.
  unfold y at 1.
  rewrite (evaluate_regression_run y0 y' _ _ (broadcast1_repeat y (mean_of y))).
  fold y. eexists. split; [reflexivity|]. cbn [R2].
  assert (Hrss : sum_squares (map (fun a => a - mean_of y) y) == total_sum_squares y).
  { unfold sum_squares, total_sum_squares. rewrite map_map.
    apply vsum_map_ext. intro x. change (?e ^ 2) with (e * e). ring. }
  unfold np_div.
  destruct (Qeq_bool (total_sum_squares y) 0) eqn:Et.
  { apply Qeq_bool_eq in Et. contradiction. }
  cbn [np_sub np_neg np_add np_is]. rewrite Hrss. field. exact Htss.
Qed.

Lemma evaluate_regression_mean_prediction_witness :
  exists m,
    evaluate_regression [1; 2; 3] (repeat (mean_of [1; 2; 3]) (length [1; 2; 3])) = ok m /\
    np_is (R2 m) 0.
Proof.
  apply evaluate_regression_mean_prediction.
  exists 1, 2. simpl. repeat split; auto. discriminate.
Defined.

Lemma Qabs_square (a : Q) : Qabs a * Qabs a == a * a.
Proof.
  destruct (Qlt_le_dec a 0) as [H | H].
  - rewrite Qabs_neg by lra. ring.
  - rewrite Qabs_pos by assumption. reflexivity.
Qed.

(** [sum_i (|e_i| - t)^2 >= 0], expanded. *)
Lemma sum_squares_shifted (v : list Q) (t : Q) :
  0 <= sum_squares v - 2 * t * vsum (map Qabs v)
       + inject_Z (Z.of_nat (length v)) * (t * t).
Proof.
  induction v as [|a v IH].
  - unfold sum_squares. cbn [map length]. change (vsum []) with 0.
    change (inject_Z (Z.of_nat 0)) with 0.
    setoid_replace (0 - 2 * t * 0 + 0 * (t * t)) with 0 by ring. apply Qle_refl.
  - unfold sum_squares in *. cbn [map length]. rewrite !vsum_cons, inject_nat_succ.
    change (a ^ 2) with (a * a). rewrite <- (Qabs_square a).
    pose proof (Qsquare_nonneg (Qabs a - t)) as Hsq.
    set (S1 := vsum (map Qabs v)) in *. set (S2 := vsum (map (fun e => e ^ 2) v)) in *.
    set (n := inject_Z (Z.of_nat (length v))) in *.
    setoid_replace (Qabs a * Qabs a + S2 - 2 * t * (Qabs a + S1) + (n + 1) * (t * t))
      with ((Qabs a - t) * (Qabs a - t) + (S2 - 2 * t * S1 + n * (t * t))) by ring.
    lra.
Qed.

(** The square of a sum of absolute values is at most the number of terms
    times the sum of the squares. *)
Lemma square_sum_abs_le (v : list Q) :
  vsum (map Qabs v) * vsum (map Qabs v)
  <= inject_Z (Z.of_nat (length v)) * sum_squares v.
Proof.
  induction v as [|a v IH].
  - unfold sum_squares. cbn [map length]. change (vsum []) with 0.
    change (inject_Z (Z.of_nat 0)) with 0.
    setoid_replace (0 * 0) with 0 by ring. apply Qle_refl.
  - pose proof (sum_squares_shifted v (Qabs a)) as Hs.
    unfold sum_squares in *. cbn [map length]. rewrite !vsum_cons, inject_nat_succ.
    change (a ^ 2) with (a * a). rewrite <- (Qabs_square a).
    set (S1 := vsum (map Qabs v)) in *. set (S2 := vsum (map (fun e => e ^ 2) v)) in *.
    set (n := inject_Z (Z.of_nat (length v))) in *.
    apply Qle_minus_iff.
    setoid_replace ((n + 1) * (Qabs a * Qabs a + S2) + - ((Qabs a + S1) * (Qabs a + S1)))
      with ((n * S2 + - (S1 * S1))
            + (S2 - 2 * Qabs a * S1 + n * (Qabs a * Qabs a))) by ring.
    apply Qle_minus_iff in IH.
    set (u := n * S2 + - (S1 * S1)) in *.
    set (u' := S2 - 2 * Qabs a * S1 + n * (Qabs a * Qabs a)) in *.
    lra.
Qed.

Lemma broadcast1_length (f : Q -> Q -> Q) (u v r : list Q) :
  length u = length v -> broadcast1 f u v = ok r -> length r = length u.
Proof.
  intros H. unfold broadcast1. rewrite H, Nat.eqb_refl. intro Hr.
  injection Hr as <-. rewrite length_map, length_combine. lia.
Qed.

(** X19. For arrays of one length RMSE is at least MAE, here on the squares:
    [MAE^2 <= MSE].  (When a [y_true] of length one is broadcast against a
    longer [y_pred], [N] is 1 and both are sums, not means.) *)
Theorem evaluate_regression_rmse_at_least_mae :
  forall (y_true y_pred : list Q) (m : metrics),
    length y_pred = length y_true ->
    evaluate_regression y_true y_pred = ok m ->
    MAE m * MAE m <= radicand (RMSE m).
Proof.
  intros y_true y_pred m Hlen Hm.
  destruct (evaluate_regression_returns _ _ _ Hm) as [y0 [y' [res [-> Hres]]]].
  rewrite (evaluate_regression_run y0 y' y_pred res Hres) in Hm.
  injection Hm as <-. cbn [MAE RMSE np_sqrt radicand].
  pose proof (square_sum_abs_le res) as Hcs.
  rewrite (broadcast1_length _ _ _ _ (eq_sym Hlen) Hres) in Hcs.
  pose proof (inject_nat_pos (length y')) as HN.
  change (S (length y')) with (length (y0 :: y')) in HN.
  set (N := inject_Z (Z.of_nat (length (y0 :: y')))) in *.
  set (S1 := vsum (map Qabs res)) in *. set (S2 := sum_squares res) in *.
  assert (Hinv : 0 < / N) by now apply Qinv_lt_0_compat.
  change (inject_Z (Z.pos (Pos.of_succ_nat (length y')))) with N.
  setoid_replace (1 / N * S1 * (1 / N * S1)) with ((/ N * / N) * (S1 * S1))
    by (field; lra).
  setoid_replace (1 / N * S2) with ((/ N * / N) * (N * S2)) by (field; lra).
  apply Qmult_le_l; [|exact Hcs].
  setoid_replace 0 with (0 * / N) by ring. now apply Qmult_lt_compat_r.
Qed.

Lemma evaluate_regression_rmse_at_least_mae_witness :
  exists m,
    evaluate_regression [1; 2; 3] [1; 3; 5] = ok m /\
    MAE m * MAE m <= radicand (RMSE m).
Proof.
  eexists. split.
  - vm_compute. reflexivity.
  - apply (evaluate_regression_rmse_at_least_mae [1; 2; 3] [1; 3; 5]).
    + reflexivity.
    + vm_compute. reflexivity.
Defined.

(* ----------------------------------------------------------------- *)
(** ** [one_hot_encode]: the store, the bounds and the order of the indices *)

(** [one_hot_encode] is the loop of passes, run on a copy of [X]. *)
Lemma one_hot_encode_loop (X : ref) (categorical_indices : list Z) (drop_first : bool)
    (h : store) :
  one_hot_encode X categorical_indices drop_first h
  = for_fold (sorted_reverse categorical_indices) (length h) (encode_step drop_first)
             (h ++ [deref X h]).
Proof. reflexivity. Qed.

(** A pass allocates at most two arrays, after those of the store, and
    returns the last of them. *)
Lemma encode_step_allocates (drop_first : bool) (acc : ref) (index : Z) (h : store) :
  exists l,
    snd (encode_step drop_first acc index h) = h ++ l /\
    forall r, fst (encode_step drop_first acc index h) = ok r ->
              (length h <= r < length (h ++ l))%nat.
Proof.
  unfold encode_step, bind, load, lift, alloc, ok. cbn beta iota.
  destruct (getcol (deref acc h) index) as [e | col].
  { exists []. cbn [fst snd]. rewrite app_nil_r. split; [reflexivity | discriminate]. }
  destruct (indicator col drop_first) as [e | one_hot].
  { exists []. cbn [fst snd]. rewrite app_nil_r. split; [reflexivity | discriminate]. }
  destruct (np_delete (deref acc h) index) as [e | d].
  { exists []. cbn [fst snd]. rewrite app_nil_r. split; [reflexivity | discriminate]. }
  cbn [fst snd]. eexists [_; _]. rewrite <- app_assoc. split; [reflexivity|].
  intros r Hr. injection Hr as <-. rewrite !length_app. cbn [length]. lia.
Qed.

Lemma for_fold_allocates (drop_first : bool) (indices : list Z) :
  forall (acc : ref) (h : store) (lo : nat),
    (lo <= acc < length h)%nat ->
    exists l,
      snd (for_fold indices acc (encode_step drop_first) h) = h ++ l /\
      forall r, fst (for_fold indices acc (encode_step drop_first) h) = ok r ->
                (lo <= r < length (h ++ l))%nat.
Proof.
  induction indices as [|i indices IH]; intros acc h lo Hacc.
  - exists []. cbn [for_fold ret fst snd]. rewrite app_nil_r.
    split; [reflexivity|]. intros r Hr. injection Hr as <-. exact Hacc.
  - cbn [for_fold]. unfold bind.
    destruct (encode_step_allocates drop_first acc i h) as [l1 [Hs1 Hr1]].
    destruct (encode_step drop_first acc i h) as [[e | acc1] h1]; cbn [fst snd] in *.
    + exists l1. split; [exact Hs1 | discriminate].
    + subst h1. specialize (Hr1 acc1 eq_refl).
      destruct (IH acc1 (h ++ l1) lo) as [l2 [Hs2 Hr2]]; [lia|].
      exists (l1 ++ l2). rewrite app_assoc. split; [exact Hs2 | exact Hr2].
Qed.

(** X20. [one_hot_encode] only allocates: whatever the indices, and whether it
    returns or raises, the store afterwards is the store before followed by
    new arrays, so that [X] and every other array are what they were; and
    the array it returns is one of the new ones, never [X] itself. *)
Theorem one_hot_encode_only_allocates :
  forall (h : store) (X : ref) (categorical_indices : list Z) (drop_first : bool),
    exists l,
      snd (one_hot_encode X categorical_indices drop_first h) = h ++ l /\
      (forall r, (r < length h)%nat ->
                 deref r (snd (one_hot_encode X categorical_indices drop_first h))
                 = deref r h) /\
      (forall X', fst (one_hot_encode X categorical_indices drop_first h) = ok X' ->
                  (length h <= X' < length (h ++ l))%nat).
Proof.
  intros h X idx drop_first.
  destruct (for_fold_allocates drop_first (sorted_reverse idx) (length h)
              (h ++ [deref X h]) (length h)) as [l [Hs Hr]].
  { rewrite length_app. cbn [length]. lia. }
  assert (Hst : snd (one_hot_encode X idx drop_first h) = (h ++ [deref X h]) ++ l)
    by exact Hs.
  assert (Hres : forall r, fst (one_hot_encode X idx drop_first h) = ok r ->
                           (length h <= r < length ((h ++ [deref X h]) ++ l))%nat)
    by exact Hr.
  rewrite <- app_assoc in Hst, Hres.
  exists (deref X h :: l).
  split; [exact Hst|]. split; [|exact Hres].
  intros r Hlt. rewrite Hst. unfold deref. now rewrite app_nth1.
Qed.

(** Inserting into a list sorted downwards puts the largest first. *)
Lemma insert_desc_head (x : Z) (l : list Z) :
  exists m rest,
    insert_desc x l = m :: rest /\ (x <= m)%Z /\
    forall y l', l = y :: l' -> (y <= m)%Z.
Proof.
  destruct l as [|y l]; cbn [insert_desc].
  - exists x, []. repeat split; [lia | discriminate].
  - destruct (Z.leb_spec y x).
    + exists x, (y :: l). repeat split; [lia|]. intros y0 l' E. injection E as <- _. lia.
    + exists y, (insert_desc x l). repeat split; [lia|].
      intros y0 l' E. injection E as <- _. lia.
Qed.

Lemma sorted_reverse_head (l : list Z) (i : Z) :
  In i l -> exists m rest, sorted_reverse l = m :: rest /\ (i <= m)%Z.
Proof.
  induction l as [|x l IH]; intros Hi; [destruct Hi|].
  cbn [sorted_reverse fold_right]. fold (sorted_reverse l).
  destruct (insert_desc_head x (sorted_reverse l)) as [m [rest [E [Hx Hy]]]].
  exists m, rest. split; [exact E|].
  destruct Hi as [-> | Hi]; [exact Hx|].
  destruct (IH Hi) as [m' [rest' [E' Hi']]].
  specialize (Hy m' rest' E'). lia.
Qed.

(** X21. An index at or beyond the number of columns is refused before any
    column is encoded: wherever it stands in the list, [one_hot_encode]
    raises [IndexError] at the first pass, having made only its copy of [X]. *)
Theorem one_hot_encode_index_beyond_columns :
  forall (h : store) (X : ref) (categorical_indices : list Z) (drop_first : bool)
         (i : Z),
    In i categorical_indices ->
    (Z.of_nat (ncols (deref X h)) <= i)%Z ->
    one_hot_encode X categorical_indices drop_first h
    = (raise IndexError, h ++ [deref X h]).
Proof.
  intros h X idx drop_first i Hin Hi.
  destruct (sorted_reverse_head idx i Hin) as [m [rest [E Hm]]].
  rewrite one_hot_encode_loop, E. cbn [for_fold]. apply bind_raise.
  unfold encode_step. erewrite bind_ok by reflexivity. rewrite deref_alloc_new.
  apply bind_raise. unfold lift, getcol, axis_index.
  replace ((0 <=? m)%Z && (m <? Z.of_nat (ncols (deref X h)))%Z) with false
    by (symmetry; apply andb_false_iff; right; lia).
  replace ((- Z.of_nat (ncols (deref X h)) <=? m)%Z && (m <? 0)%Z) with false
    by (symmetry; apply andb_false_iff; right; lia).
  reflexivity.
Qed.

Lemma one_hot_encode_index_beyond_columns_witness :
  one_hot_encode 0%nat [0%Z; 2%Z] false [mk2 2 [[Str "a"; Num 1]; [Str "b"; Num 2]]]
  = (raise IndexError,
     [mk2 2 [[Str "a"; Num 1]; [Str "b"; Num 2]]]
       ++ [deref 0%nat [mk2 2 [[Str "a"; Num 1]; [Str "b"; Num 2]]]]).
Proof.
  apply (one_hot_encode_index_beyond_columns
           [mk2 2 [[Str "a"; Num 1]; [Str "b"; Num 2]]] 0%nat [0%Z; 2%Z] false 2%Z).
  - simpl. auto.
  - simpl. lia.
Defined.

Lemma insert_desc_comm (x y : Z) (l : list Z) :
  insert_desc x (insert_desc y l) = insert_desc y (insert_desc x l).
Proof.
  induction l as [|z l IH]; cbn [insert_desc];
    repeat match goal with
           | |- context [(?a <=? ?b)%Z] =>
               destruct (Z.leb_spec a b); cbn [insert_desc]
           end;
    try lia; try reflexivity;
    try (replace y with x by lia; reflexivity);
    now rewrite IH.
Qed.

Lemma sorted_reverse_permutation (l1 l2 : list Z) :
  Permutation l1 l2 -> sorted_reverse l1 = sorted_reverse l2.
Proof.
  induction 1 as [| x l1 l2 _ IH | x y l | l1 l2 l3 _ IH1 _ IH2].
  - reflexivity.
  - cbn [sorted_reverse fold_right]. fold (sorted_reverse l1) (sorted_reverse l2).
    now rewrite IH.
  - cbn [sorted_reverse fold_right]. apply insert_desc_comm.
  - now rewrite IH1.
Qed.

(** X22. The order in which the indices are listed is of no consequence: two
    lists that hold the same indices, each as often, give the same run. *)
Theorem one_hot_encode_order_irrelevant :
  forall (h : store) (X : ref) (indices indices' : list Z) (drop_first : bool),
    Permutation indices indices' ->
    one_hot_encode X indices drop_first h = one_hot_encode X indices' drop_first h.
Proof.
  intros h X l1 l2 drop_first Hp. rewrite !one_hot_encode_loop.
  now rewrite (sorted_reverse_permutation l1 l2 Hp).
Qed.

Lemma one_hot_encode_order_irrelevant_witness :
  one_hot_encode 0%nat [0%Z; 1%Z] false [mk2 2 [[Str "a"; Num 1]; [Str "b"; Num 2]]]
  = one_hot_encode 0%nat [1%Z; 0%Z] false [mk2 2 [[Str "a"; Num 1]; [Str "b"; Num 2]]].
Proof.
  apply one_hot_encode_order_irrelevant. apply perm_swap.
Defined.

(* ----------------------------------------------------------------- *)
(** ** The order of cells *)

Lemma cell_compare_same_kind (a b : cell) :
  is_str a = is_str b -> exists c, cell_compare a b = ok c.
Proof. destruct a, b; simpl; try discriminate; eauto. Qed.

Lemma cell_compare_other_kind (a b : cell) :
  is_str a <> is_str b -> cell_compare a b = raise TypeError.
Proof. destruct a, b; simpl; congruence. Qed.

Lemma cell_eq_refl (a : cell) : cell_eq a a.
Proof.
  destruct a as [s | q]; unfold cell_eq; simpl; unfold ok; f_equal.
  - apply string_compare_refl.
  - now apply Qeq_alt.
Qed.

Lemma cell_gt_lt (a b : cell) : cell_compare a b = ok Gt -> cell_lt b a.
Proof.
  destruct a as [s | p], b as [t | q]; unfold cell_lt; cbn [cell_compare]; try discriminate;
    intro H; injection H as H; unfold ok; f_equal.
  - rewrite String.compare_antisym, H. reflexivity.
  - apply Qlt_alt. now apply Qgt_alt in H.
Qed.

Lemma cell_lt_trans (a b c : cell) : cell_lt a b -> cell_lt b c -> cell_lt a c.
Proof.
  destruct a as [s | p], b as [t | q], c as [u | r]; unfold cell_lt; cbn [cell_compare];
    try discriminate; intros H1 H2; injection H1 as H1; injection H2 as H2;
    unfold ok; f_equal.
  - apply OrderedTypeEx.String_as_OT.cmp_lt.
    apply OrderedTypeEx.String_as_OT.cmp_lt in H1, H2.
    exact (OrderedTypeEx.String_as_OT.lt_trans _ _ _ H1 H2).
  - apply (proj2 (Qlt_alt p q)) in H1.
    apply (proj2 (Qlt_alt q r)) in H2. apply (proj1 (Qlt_alt p r)). lra.
Qed.

Lemma cell_lt_eq (a b c : cell) : cell_lt a b -> cell_eq b c -> cell_lt a c.
Proof.
  destruct a as [s | p], b as [t | q], c as [u | r]; unfold cell_lt, cell_eq;
    cbn [cell_compare]; try discriminate; intros H1 H2; injection H1 as H1; injection H2 as H2;
    unfold ok; f_equal.
  - apply String.compare_eq_iff in H2. now subst.
  - apply (proj2 (Qlt_alt p q)) in H1. apply (proj2 (Qeq_alt q r)) in H2.
    apply (proj1 (Qlt_alt p r)). lra.
Qed.

(* ----------------------------------------------------------------- *)
(** ** [np.unique] and [np.searchsorted] on a column of one kind *)

Lemma insert_unique_sorted (kd : bool) (x : cell) (l : list cell) :
  is_str x = kd ->
  Forall (fun c => is_str c = kd) l ->
  StronglySorted cell_lt l ->
  exists r,
    insert_unique x l = ok r /\
    Forall (fun c => is_str c = kd) r /\
    StronglySorted cell_lt r /\
    (forall u, In u r -> u = x \/ In u l) /\
    (forall u, In u l -> In u r) /\
    (exists u, In u r /\ cell_eq u x).
Proof.
  intros Hx Hk Hs. induction l as [|y l IH].
  - exists [x]. cbn [insert_unique]. repeat split.
    + constructor; [exact Hx | constructor].
    + constructor; constructor.
    + intros u [<- | []]. now left.
    + intros u [].
    + exists x. split; [now left | apply cell_eq_refl].
  - apply Forall_cons_iff in Hk. destruct Hk as [Hy Hk].
    apply StronglySorted_inv in Hs. destruct Hs as [Hs Hyl].
    cbn [insert_unique].
    destruct (cell_compare_same_kind x y) as [c Hc]; [congruence|].
    rewrite Hc. cbn [rbind ok]. destruct c.
    + exists (y :: l). repeat split.
      * constructor; assumption.
      * constructor; assumption.
      * intros u Hu. now right.
      * auto.
      * exists y. split; [now left|]. apply cell_compare_Eq_sym. exact Hc.
    + exists (x :: y :: l). repeat split.
      * constructor; [exact Hx | constructor; assumption].
      * constructor; [constructor; assumption|].
        constructor; [exact Hc|]. rewrite Forall_forall in *.
        intros z Hz. exact (cell_lt_trans x y z Hc (Hyl z Hz)).
      * intros u [<- | Hu]; [now left | now right].
      * intros u Hu. now right.
      * exists x. split; [now left | apply cell_eq_refl].
    + destruct (IH Hk Hs) as [r [Hr [Hkr [Hsr [Hin [Hsub Hcov]]]]]].
      rewrite Hr. cbn [rbind ok]. exists (y :: r). repeat split.
      * constructor; assumption.
      * constructor; [assumption|]. rewrite Forall_forall in *.
        intros z Hz. destruct (Hin z Hz) as [-> | Hz'].
        -- now apply cell_gt_lt.
        -- now apply Hyl.
      * intros u [<- | Hu]; [right; now left|].
        destruct (Hin u Hu) as [-> | Hu']; [now left | right; now right].
      * intros u [<- | Hu]; [now left | right; now apply Hsub].
      * destruct Hcov as [u [Hu Hux]]. exists u. split; [now right | assumption].
Qed.

(** The levels [np.unique] finds in a column of one kind: the values of the
    column, each once, in increasing order. *)
Lemma np_unique_levels (kd : bool) (col : list cell) :
  Forall (fun c => is_str c = kd) col ->
  exists levels,
    np_unique col = ok levels /\
    Forall (fun c => is_str c = kd) levels /\
    StronglySorted cell_lt levels /\
    (forall u, In u levels -> In u col) /\
    (forall c, In c col -> exists u, In u levels /\ cell_eq u c).
Proof.
  induction 1 as [|x col Hx Hcol IH].
  - exists []. repeat split; try constructor; intros ? [].
  - destruct IH as [levels [Hu [Hk [Hs [Hsub Hcov]]]]].
    destruct (insert_unique_sorted kd x levels Hx Hk Hs)
      as [r [Hr [Hkr [Hsr [Hin [Hkeep Hnew]]]]]].
    exists r. cbn [np_unique]. rewrite Hu. cbn [rbind ok].
    split; [exact Hr|]. split; [exact Hkr|]. split; [exact Hsr|]. split.
    + intros u Hur. destruct (Hin u Hur) as [-> | Hul]; [now left|].
      right. now apply Hsub.
    + intros c [<- | Hc]; [exact Hnew|].
      destruct (Hcov c Hc) as [u [Hul Huc]]. exists u. split; [now apply Hkeep | exact Huc].
Qed.

(** Searching sorted levels for a value that is one of them finds it. *)
Lemma searchsorted_finds (levels : list cell) (u v : cell) :
  StronglySorted cell_lt levels ->
  In u levels ->
  cell_eq u v ->
  exists r,
    searchsorted levels v = ok r /\ (r < length levels)%nat /\ nth r levels cell0 = u.
Proof.
  intros Hs Hin Huv. induction levels as [|w levels IH]; [destruct Hin|].
  apply StronglySorted_inv in Hs. destruct Hs as [Hs Hw].
  cbn [searchsorted]. destruct Hin as [-> | Hin].
  - unfold cell_eq in Huv. rewrite Huv. cbn [rbind ok].
    exists 0%nat. repeat split. cbn [length]. lia.
  - rewrite Forall_forall in Hw.
    pose proof (cell_lt_eq w u v (Hw u Hin) Huv) as Hlt. unfold cell_lt in Hlt.
    rewrite Hlt. cbn [rbind ok].
    destruct (IH Hs Hin) as [r [Hr [Hlen Hnth]]]. rewrite Hr. cbn [rbind ok].
    exists (S r). repeat split; [cbn [length]; lia | exact Hnth].
Qed.

Lemma map_result_map {A B} (f : A -> result B) (g : A -> B) (l : list A) :
  (forall x, In x l -> f x = ok (g x)) -> map_result f l = ok (map g l).
Proof.
  induction l as [|x l IH]; intro H; [reflexivity|].
  cbn [map_result map]. rewrite (H x) by now left.
  cbn [rbind ok]. rewrite IH by (intros y Hy; apply H; now right). reflexivity.
Qed.

(** The indicator block of a column of one kind: row by row, the row of
    the identity matrix at the rank of the value among the levels. *)
Lemma indicator_levels (kd : bool) (col : list cell) (drop_first : bool) :
  Forall (fun c => is_str c = kd) col ->
  exists levels,
    np_unique col = ok levels /\
    StronglySorted cell_lt levels /\
    (forall u, In u levels -> In u col) /\
    (forall c, In c col ->
       (level_rank levels c < length levels)%nat /\
       cell_eq (nth (level_rank levels c) levels cell0) c) /\
    indicator col drop_first
    = ok ((length levels - if drop_first then 1 else 0)%nat,
          map (indicator_row levels drop_first) col).
Proof.
  intro Hk.
  destruct (np_unique_levels kd col Hk) as [levels [Hu [_ [Hs [Hsub Hcov]]]]].
  assert (Hrank : forall c, In c col ->
            searchsorted levels c = ok (level_rank levels c) /\
            (level_rank levels c < length levels)%nat /\
            cell_eq (nth (level_rank levels c) levels cell0) c).
  { intros c Hc. destruct (Hcov c Hc) as [u [Hul Huc]].
    destruct (searchsorted_finds levels u c Hs Hul Huc) as [r [Hr [Hlt Hnth]]].
    unfold level_rank. rewrite Hr. cbn [ok]. rewrite Hnth. auto. }
  exists levels. split; [exact Hu|]. split; [exact Hs|]. split; [exact Hsub|]. split.
  { intros c Hc. destruct (Hrank c Hc) as [_ H]. exact H. }
  unfold indicator. rewrite Hu. cbn [rbind ok].
  rewrite (map_result_map (searchsorted levels) (level_rank levels))
    by (intros c Hc; now destruct (Hrank c Hc)).
  cbn [rbind ok].
  rewrite (map_result_map (eye_row (length levels)) (unit_row (length levels))).
  - cbn [rbind ok]. unfold indicator_row.
    destruct drop_first; rewrite ?map_map, ?Nat.sub_0_r; reflexivity.
  - intros r Hr. apply in_map_iff in Hr. destruct Hr as [c [<- Hc]].
    destruct (Hrank c Hc) as [_ [Hlt _]]. unfold eye_row.
    now apply Nat.ltb_lt in Hlt as ->.
Qed.

(** A column that holds a string and a number cannot be sorted:
    [np.unique] raises [TypeError]. *)
Lemma np_unique_mixed (col : list cell) :
  (exists kd, Forall (fun c => is_str c = kd) col) \/
  np_unique col = raise TypeError.
Proof.
  induction col as [|x col IH].
  - left. exists true. constructor.
  - destruct IH as [[kd Hk] | Herr].
    + destruct col as [|y col].
      * left. exists (is_str x). constructor; [reflexivity | constructor].
      * destruct (Bool.bool_dec (is_str x) kd) as [Hx | Hx].
        -- left. exists kd. constructor; assumption.
        -- right.
           destruct (np_unique_levels kd (y :: col) Hk)
             as [levels [Hu [Hkl [_ [_ Hcov]]]]].
           change (np_unique (x :: y :: col))
             with (rbind (np_unique (y :: col)) (insert_unique x)).
           rewrite Hu. cbn [rbind ok].
           destruct (Hcov y (or_introl eq_refl)) as [u [Hul _]].
           destruct levels as [|l0 levels]; [destruct Hul|].
           apply Forall_cons_iff in Hkl. destruct Hkl as [Hl0 _].
           cbn [insert_unique].
           rewrite cell_compare_other_kind by congruence. reflexivity.
    + right. cbn [np_unique]. rewrite Herr. reflexivity.
Qed.

(** Unfolding one pass on success. *)
Lemma encode_step_run (drop_first : bool) (acc : ref) (index : Z) (h : store)
    (j k : nat) (one_hot : list (list cell)) :
  let a := deref acc h in
  let d := mk2 (ncols a - 1) (map (fun r => firstn j r ++ skipn (S j) r) (rows a)) in
  axis_index (ncols a) index = ok j ->
  indicator (map (fun r => nth j r cell0) (rows a)) drop_first = ok (k, one_hot) ->
  encode_step drop_first acc index h
  = (ok (S (length h)), h ++ [d; splice d index k one_hot]).
Proof.
  intros a d Hj Hind.
  unfold encode_step, bind, load, alloc, lift, ok. cbn beta iota. fold a.
  unfold getcol, np_delete. rewrite Hj. cbn [rbind ok]. unfold ok. cbn beta iota.
  fold d. rewrite Hind. unfold ok. cbn beta iota.
  change (nth (length h) (h ++ [d]) (mk2 0 [])) with (deref (length h) (h ++ [d])).
  rewrite deref_alloc_new. cbn [fst snd]. f_equal.
  - f_equal. rewrite length_app. cbn [length]. lia.
  - now rewrite <- app_assoc.
Qed.

(* ----------------------------------------------------------------- *)
(** ** [one_hot_encode] on one column, in general *)

Lemma deref_third (h : store) (a d e : array2 cell) :
  deref (S (S (length h))) (h ++ [a; d; e]) = e.
Proof.
  unfold deref. rewrite app_nth2 by lia.
  replace (S (S (length h)) - length h)%nat with 2%nat by lia. reflexivity.
Qed.

Lemma unit_row_length (k r : nat) : length (unit_row k r) = k.
Proof. unfold unit_row. now rewrite length_map, length_seq. Qed.

Lemma unit_row_nth (k r i : nat) :
  (i < k)%nat -> nth i (unit_row k r) cell0 = Num (if Nat.eqb i r then 1 else 0).
Proof. intro Hi. unfold unit_row. now rewrite (nth_map_seq _ k i cell0 Hi). Qed.

Lemma nth_skipn_1 {A} (l : list A) (i : nat) (d : A) :
  nth i (skipn 1 l) d = nth (S i) l d.
Proof. destruct l as [|x l]; [destruct i|]; reflexivity. Qed.

(** The entries of an indicator row: a 1 at the rank of the value (moved one
    place to the left under [drop_first], where rank 0 has no place), and
    0 elsewhere. *)
Lemma indicator_row_entries (levels : list cell) (drop_first : bool) (c : cell) :
  let d := if drop_first then 1%nat else 0%nat in
  length (indicator_row levels drop_first c) = (length levels - d)%nat /\
  forall i, (i < length levels - d)%nat ->
            nth i (indicator_row levels drop_first c) cell0
            = Num (if Nat.eqb (i + d) (level_rank levels c) then 1 else 0).
Proof.
  unfold indicator_row. destruct drop_first; cbn zeta.
  - split.
    + now rewrite length_skipn, unit_row_length.
    + intros i Hi. rewrite nth_skipn_1, unit_row_nth by lia.
      now replace (i + 1)%nat with (S i) by lia.
  - split.
    + now rewrite unit_row_length, Nat.sub_0_r.
    + intros i Hi. rewrite unit_row_nth by lia. now rewrite Nat.add_0_r.
Qed.

(** X23. Encoding the column [j] of a rectangular array (of dtype object or
    float64: cells keep their own type) whose column [j] holds strings
    only, or numbers only.  [one_hot_encode] returns.  The levels are the
    distinct values of the column in strictly increasing order, [k] of
    them.  Every row keeps its other cells, in order, and receives in place
    of its categorical value a block of [k] numbers: 1 at the rank of that
    value among the levels, a rank at which the level equals the value, and
    0 at the other places.  Under [drop_first] the first place of the block
    is left out: [k - 1] numbers, all 0 for a value of rank 0. *)
Theorem one_hot_encode_column :
  forall (h : store) (X : ref) (j : nat) (drop_first : bool) (kd : bool),
    let a := deref X h in
    let col := map (fun r => nth j r cell0) (rows a) in
    let d := if drop_first then 1%nat else 0%nat in
    wf a ->
    (j < ncols a)%nat ->
    Forall (fun c => is_str c = kd) col ->
    exists (levels : list cell) (rank : cell -> nat) (block : cell -> list cell)
           (X' : ref) (h' : store),
      np_unique col = ok levels /\
      StronglySorted cell_lt levels /\
      (forall u, In u levels -> In u col) /\
      (forall c, In c col ->
         (rank c < length levels)%nat /\
         cell_eq (nth (rank c) levels cell0) c /\
         length (block c) = (length levels - d)%nat /\
         forall i, (i < length levels - d)%nat ->
                   nth i (block c) cell0
                   = Num (if Nat.eqb (i + d) (rank c) then 1 else 0)) /\
      one_hot_encode X [Z.of_nat j] drop_first h = (ok X', h') /\
      deref X' h'
      = mk2 (ncols a - 1 + (length levels - d))
            (map (fun r => firstn j r ++ block (nth j r cell0) ++ skipn (S j) r)
                 (rows a)).
Proof.
  intros h X j drop_first kd a col d Hwf Hj Hk.
  destruct (indicator_levels kd col drop_first Hk)
    as [levels [Hu [Hs [Hsub [Hrank Hind]]]]].
  exists levels, (level_rank levels), (indicator_row levels drop_first).
  eexists _, _.
  split; [exact Hu|]. split; [exact Hs|]. split; [exact Hsub|]. split.
  { intros c Hc. destruct (Hrank c Hc) as [Hlt Heq].
    destruct (indicator_row_entries levels drop_first c) as [Hlen Hnth].
    split; [exact Hlt|]. split; [exact Heq|]. split; [exact Hlen | exact Hnth]. }
  split.
  - apply (one_hot_encode_single h X (Z.of_nat j) drop_first j _ _
             (axis_index_nat _ _ Hj) Hind).
  - rewrite deref_third. fold a. unfold col.
    rewrite (splice_at_deleted a j _ (indicator_row levels drop_first) Hwf Hj).
    f_equal. unfold d. lia.
Qed.

Lemma one_hot_encode_column_witness :
  let h := [mk2 2 [[Str "b"; Num 1]; [Str "a"; Num 2]]]%string in
  let a := deref 0%nat h in
  let col := map (fun r => nth 0 r cell0) (rows a) in
  exists (levels : list cell) (rank : cell -> nat) (block : cell -> list cell)
         (X' : ref) (h' : store),
    np_unique col = ok levels /\
    StronglySorted cell_lt levels /\
    (forall u, In u levels -> In u col) /\
    (forall c, In c col ->
       (rank c < length levels)%nat /\
       cell_eq (nth (rank c) levels cell0) c /\
       length (block c) = (length levels - 0)%nat /\
       forall i, (i < length levels - 0)%nat ->
                 nth i (block c) cell0
                 = Num (if Nat.eqb (i + 0) (rank c) then 1 else 0)) /\
    one_hot_encode 0%nat [Z.of_nat 0] false h = (ok X', h') /\
    deref X' h'
    = mk2 (ncols a - 1 + (length levels - 0))
          (map (fun r => firstn 0 r ++ block (nth 0 r cell0) ++ skipn 1 r)
               (rows a)).
Proof.
  intros h a col.
  apply (one_hot_encode_column h 0%nat 0%nat false true).
  - repeat constructor.
  - cbn. lia.
  - repeat constructor.
Defined.

(** X24. A categorical column that holds a string in one row and a number in
    another is refused: sorting its values raises [TypeError], before any
    array but the copy of [X] is made. *)
Theorem one_hot_encode_mixed_column_raises :
  forall (h : store) (X : ref) (index : Z) (drop_first : bool) (j : nat)
         (r1 r2 : list cell),
    axis_index (ncols (deref X h)) index = ok j ->
    In r1 (rows (deref X h)) ->
    In r2 (rows (deref X h)) ->
    is_str (nth j r1 cell0) <> is_str (nth j r2 cell0) ->
    one_hot_encode X [index] drop_first h = (raise TypeError, h ++ [deref X h]).
Proof.
  intros h X index drop_first j r1 r2 Hj H1 H2 Hkind.
  rewrite one_hot_encode_loop. cbn [sorted_reverse fold_right insert_desc for_fold].
  apply bind_raise. unfold encode_step.
  erewrite bind_ok by reflexivity. rewrite deref_alloc_new.
  unfold getcol. rewrite Hj. cbn [rbind].
  erewrite bind_lift_ok by reflexivity. apply bind_raise.
  unfold lift, indicator. f_equal.
  set (col := map (fun r => nth j r cell0) (rows (deref X h))).
  destruct (np_unique_mixed col) as [[kd Hk] | ->]; [|reflexivity].
  exfalso. apply Hkind. rewrite Forall_forall in Hk.
  rewrite (Hk (nth j r1 cell0)), (Hk (nth j r2 cell0));
    [reflexivity | | ]; apply in_map_iff; eauto.
Qed.

Lemma one_hot_encode_mixed_column_raises_witness :
  one_hot_encode 0%nat [0%Z] false [mk2 2 [[Str "b"; Num 1]; [Num 3; Num 2]]]
  = (raise TypeError,
     [mk2 2 [[Str "b"; Num 1]; [Num 3; Num 2]]]
       ++ [deref 0%nat [mk2 2 [[Str "b"; Num 1]; [Num 3; Num 2]]]]).
Proof.
  apply (one_hot_encode_mixed_column_raises
           [mk2 2 [[Str "b"; Num 1]; [Num 3; Num 2]]] 0%nat 0%Z false 0%nat
           [Str "b"; Num 1] [Num 3; Num 2]).
  - reflexivity.
  - simpl. auto.
  - simpl. auto.
  - simpl. discriminate.
Defined.

(* ----------------------------------------------------------------- *)
(** ** [one_hot_encode] as a function of the content of [X] *)

(** A pass raises what [encode_column] raises, leaving the store as it was,
    or returns a new array that holds what [encode_column] returns. *)
Lemma encode_step_column (drop_first : bool) (acc : ref) (index : Z) (h : store) :
  (exists e, encode_column drop_first (deref acc h) index = raise e /\
             encode_step drop_first acc index h = (raise e, h)) \/
  (exists s d, encode_column drop_first (deref acc h) index = ok s /\
               encode_step drop_first acc index h
               = (ok (S (length h)), h ++ [d; s])).
Proof.
  unfold encode_step, encode_column, bind, load, lift, alloc, ok. cbn beta iota.
  destruct (getcol (deref acc h) index) as [e | col]; cbn [rbind].
  { left. exists e. split; reflexivity. }
  destruct (indicator col drop_first) as [e | one_hot]; cbn [rbind].
  { left. exists e. split; reflexivity. }
  destruct (np_delete (deref acc h) index) as [e | d]; cbn [rbind].
  { left. exists e. split; reflexivity. }
  right. eexists _, d. split; [reflexivity|].
  change (nth (length h) (h ++ [d]) (mk2 0 [])) with (deref (length h) (h ++ [d])).
  rewrite deref_alloc_new. f_equal.
  - unfold ok. f_equal. rewrite length_app. cbn [length]. lia.
  - now rewrite <- app_assoc.
Qed.

Lemma encode_columns_raise (drop_first : bool) (indices : list Z) (e : exn) :
  fold_left (fun r index => rbind r (fun a' => encode_column drop_first a' index))
            indices (raise e)
  = raise e.
Proof. induction indices as [|i indices IH]; [reflexivity | exact IH]. Qed.

Lemma deref_second (h : store) (d e : array2 cell) :
  deref (S (length h)) (h ++ [d; e]) = e.
Proof.
  unfold deref. rewrite app_nth2 by lia.
  replace (S (length h) - length h)%nat with 1%nat by lia. reflexivity.
Qed.

Lemma for_fold_outcome (drop_first : bool) (indices : list Z) :
  forall (acc : ref) (h : store),
    outcome (for_fold indices acc (encode_step drop_first) h)
    = encode_columns drop_first (deref acc h) indices.
Proof.
  unfold encode_columns.
  induction indices as [|i indices IH]; intros acc h; [reflexivity|].
  cbn [for_fold fold_left rbind ok].
  destruct (encode_step_column drop_first acc i h)
    as [[e [Hc Hs]] | [s [d [Hc Hs]]]]; rewrite Hc.
  - rewrite (bind_raise _ _ _ _ _ Hs). unfold raise at 2.
    fold (@raise (array2 cell) e). rewrite encode_columns_raise. reflexivity.
  - rewrite (bind_ok _ _ _ _ _ Hs), IH, deref_second. reflexivity.
Qed.

Lemma one_hot_encode_outcome_fold (h : store) (X : ref) (indices : list Z)
    (drop_first : bool) :
  outcome (one_hot_encode X indices drop_first h)
  = encode_columns drop_first (deref X h) (sorted_reverse indices).
Proof.
  rewrite one_hot_encode_loop, for_fold_outcome, deref_alloc_new. reflexivity.
Qed.


(** X26. Encoding two columns at once is encoding the one of larger index, and
    then the other one in the array so obtained. *)
Theorem one_hot_encode_two_columns :
  forall (h h1 : store) (X X1 : ref) (i j : Z) (drop_first : bool),
    (i <= j)%Z ->
    one_hot_encode X [j] drop_first h = (ok X1, h1) ->
    outcome (one_hot_encode X [i; j] drop_first h)
    = outcome (one_hot_encode X1 [i] drop_first h1).
Proof.
  intros h h1 X X1 i j drop_first Hij Hj.
  pose proof (one_hot_encode_outcome_fold h X [j] drop_first) as H1.
  rewrite Hj in H1. unfold outcome in H1. cbn [fst snd ok] in H1.
  rewrite !one_hot_encode_outcome_fold.
  assert (Hsort : sorted_reverse [i; j] = [j; i]).
  { cbn [sorted_reverse fold_right insert_desc].
    destruct (Z.leb_spec j i); [|reflexivity]. now replace i with j by lia. }
  rewrite Hsort. unfold encode_columns in *.
  cbn [sorted_reverse fold_right insert_desc fold_left rbind ok] in *.
  rewrite <- H1. reflexivity.
Qed.

Lemma one_hot_encode_two_columns_witness :
  let a := mk2 2 [[Str "b"; Str "x"]; [Str "a"; Str "y"]]%string in
  exists (X1 : ref) (h1 : store),
    one_hot_encode 0%nat [1%Z] false [a] = (ok X1, h1) /\
    outcome (one_hot_encode 0%nat [0%Z; 1%Z] false [a])
    = outcome (one_hot_encode X1 [0%Z] false h1).
Proof.
  intro a. eexists _, _. split.
  - vm_compute. reflexivity.
  - apply (one_hot_encode_two_columns [a] _ 0%nat _ 0%Z 1%Z false).
    + lia.
    + vm_compute. reflexivity.
Defined.

(* ----------------------------------------------------------------- *)
(** ** Least squares: the normal equations *)

Lemma veq_nth_lt (u v : list Q) :
  length u = length v ->
  (forall i, (i < length u)%nat -> nth i u 0 == nth i v 0) ->
  veq u v.
Proof.
  intros Hlen H. apply veq_nth; [exact Hlen|]. intro i.
  destruct (Nat.lt_ge_cases i (length u)) as [Hi | Hi]; [now apply H|].
  rewrite !nth_overflow by lia. reflexivity.
Qed.

Section Gram.
Variables n q : nat.
Variable C : list (list Q).
Variable P : list (list Q).
Hypothesis HC : Forall (fun c => length c = n) C.
Hypothesis Hq : length C = q.
Hypothesis HP : penrose q (map (gram_column C) C) P.

Let E := apply_AP q (map (gram_column C) C) P.
Let K := apply_PA q (map (gram_column C) C) P.

Lemma gram_column_length cb : length (gram_column C cb) = q.
Proof. unfold gram_column. now rewrite length_map. Qed.

Lemma row_at_length i : length (row_at C i) = q.
Proof. unfold row_at. now rewrite length_map. Qed.

Lemma gram_columns_length : Forall (fun a => length a = q) (map (gram_column C) C).
Proof.
  apply Forall_forall. intros a Ha. apply in_map_iff in Ha.
  destruct Ha as [cb [<- _]]. apply gram_column_length.
Qed.

(** [(A w).(c_b) = w.(G e_b)] *)
Lemma dot_lincomb_column w cb :
  dot (lincomb n w C) cb == dot w (gram_column C cb).
Proof. rewrite (dot_lincomb n w C cb HC). reflexivity. Qed.

(** [A w = 0] as soon as [w] is orthogonal to the columns of [A^T A]. *)
Lemma gram_kernel w :
  (forall cb, In cb C -> dot w (gram_column C cb) == 0) ->
  veq (lincomb n w C) (repeat 0 n).
Proof.
  intro Horth.
  assert (Hm : dot (lincomb n w C) (lincomb n w C) == 0).
  { rewrite (dot_lincomb n w C _ HC).
    rewrite (map_veq (fun v => dot v (lincomb n w C)) (fun _ => 0) C).
    - apply dot_map_zero.
    - intros cb Hcb. rewrite dot_comm, dot_lincomb_column. now apply Horth. }
  apply dot_self_zero, is_zero_zeros in Hm.
  now rewrite (lincomb_length n w C HC) in Hm.
Qed.

(** Row [a] of [I - G P], as a vector. *)
Lemma defect_dot a v :
  length v = q ->
  dot (vsub (unit_vec q a) (K (unit_vec q a))) v == nth a v 0 - nth a (E v) 0.
Proof.
  intro Hv.
  pose proof (pen_rows _ _ _ HP) as Hrows.
  rewrite dot_vsub_l
    by (rewrite unit_vec_length; symmetry; apply (K_length q _ P Hrows)).
  rewrite (dot_unit_l q a v Hv).
  unfold K. rewrite <- (EK_dual q _ P gram_columns_length Hrows).
  rewrite (dot_unit_l q a (apply_AP q _ P v))
    by (apply (E_length q _ P gram_columns_length)).
  reflexivity.
Qed.

(** [G P] fixes every row of [A]: the rows of [A] lie in the range of
    [A^T A]. *)
Lemma gram_fixes_rows i : veq (E (row_at C i)) (row_at C i).
Proof.
  pose proof (pen_rows _ _ _ HP) as Hrows.
  apply veq_nth_lt.
  { unfold E. rewrite (E_length q _ P gram_columns_length). now rewrite row_at_length. }
  intros a _.
  set (w := vsub (unit_vec q a) (K (unit_vec q a))).
  assert (Hw : veq (lincomb n w C) (repeat 0 n)).
  { apply gram_kernel. intros cb Hcb. unfold w.
    rewrite (defect_dot a _ (gram_column_length cb)).
    assert (Hfix : veq (E (gram_column C cb)) (gram_column C cb)).
    { pose proof (pen1 _ _ _ HP) as H1. rewrite Forall_forall in H1.
      apply H1, in_map_iff. exists cb. split; [reflexivity | assumption]. }
    rewrite (nth_veq _ _ a Hfix). ring. }
  pose proof (nth_veq _ _ i Hw) as Hi.
  rewrite (nth_lincomb n i w C HC), nth_zeros in Hi.
  fold (row_at C i) in Hi. unfold w in Hi.
  rewrite (defect_dot a _ (row_at_length i)) in Hi.
  lra.
Qed.

(** The least-squares solution [beta = P (A^T y)] solves the normal
    equations: [c . (A beta) = c . y] for every column [c] of [A]. *)
Lemma gram_normal_equations (y : list Q) (b : nat) :
  length y = n ->
  (b < q)%nat ->
  let Rws := map (row_at C) (seq 0 n) in
  let beta := map (fun p => dot (map (dot p) Rws) y) P in
  dot (nth b C []) (map (fun r => dot r beta) Rws) == dot (nth b C []) y.
Proof.
  intros Hy Hb Rws beta.
  pose proof (pen_rows _ _ _ HP) as Hrows.
  set (cb := nth b C []).
  assert (Hcb : In cb C) by (apply nth_In; lia).
  assert (Hcbl : length cb = n) by (rewrite Forall_forall in HC; now apply HC).
  (* A beta, as a combination of the columns *)
  assert (HA : veq (map (fun r => dot r beta) Rws) (lincomb n beta C)).
  { apply veq_nth_lt.
    - unfold Rws. now rewrite !length_map, length_seq, (lincomb_length n beta C HC).
    - unfold Rws. rewrite !length_map, length_seq. intros i Hi.
      rewrite map_map, (nth_map_seq _ n i 0 Hi), (nth_lincomb n i beta C HC).
      apply dot_comm. }
  rewrite HA, dot_comm, dot_lincomb_column, dot_comm.
  (* beta, as the rows of [P A^T] applied to [y] *)
  assert (Hbeta : beta = map (fun v => dot v y) (map (fun p => map (dot p) Rws) P))
    by (unfold beta; now rewrite map_map).
  assert (HH : Forall (fun v => length v = n) (map (fun p => map (dot p) Rws) P)).
  { apply Forall_forall. intros v Hv. apply in_map_iff in Hv.
    destruct Hv as [p [<- _]]. unfold Rws. now rewrite !length_map, length_seq. }
  rewrite Hbeta, <- (dot_lincomb n (gram_column C cb) _ y HH).
  (* [G P] fixes the rows of [A] *)
  assert (Hcol : veq (lincomb n (gram_column C cb) (map (fun p => map (dot p) Rws) P)) cb).
  { apply veq_nth_lt.
    - now rewrite (lincomb_length n _ _ HH).
    - rewrite (lincomb_length n _ _ HH). intros i Hi.
      rewrite (nth_lincomb n i _ _ HH), map_map.
      rewrite (map_veq (fun p => nth i (map (dot p) Rws) 0)
                       (fun p => dot p (row_at C i)) P)
        by (intros p _; unfold Rws; rewrite map_map, (nth_map_seq _ n i 0 Hi);
            reflexivity).
      pose proof (nth_veq _ _ b (gram_fixes_rows i)) as Hfix.
      unfold E, apply_AP in Hfix.
      rewrite (nth_lincomb q b _ _ gram_columns_length), map_map in Hfix.
      rewrite (map_veq (fun cb' => nth b (gram_column C cb') 0)
                       (fun ca => dot ca cb) C) in Hfix.
      + fold (gram_column C cb) in Hfix. rewrite dot_comm, Hfix.
        unfold row_at. unfold cb.
        rewrite (nth_map_default (fun c => nth i c 0) C b [] 0) by lia. reflexivity.
      + intros cb' _. unfold gram_column.
        rewrite (nth_map_default (fun ca => dot ca cb') C b [] 0) by lia.
        apply dot_comm. }
  now rewrite Hcol.
Qed.

End Gram.

Lemma map_nth_seq {A B} (f : A -> B) (l : list A) (d : A) :
  map (fun j => f (nth j l d)) (seq 0 (length l)) = map f l.
Proof.
  induction l as [|x l IH]; [reflexivity|].
  cbn [length seq map nth]. rewrite <- seq_shift, map_map. cbn [nth]. now rewrite IH.
Qed.

(** The columns of [A^T A], from the columns of [A]. *)
Lemma columns_gram (A G : array2 Q) :
  matmul (transpose A) A = ok G ->
  nrows G = ncols A /\
  columns G = map (gram_column (columns A)) (columns A).
Proof.
  unfold matmul, transpose. cbn [ncols rows]. rewrite Nat.eqb_refl.
  intro H. injection H as <-. unfold nrows. cbn [rows ncols].
  rewrite length_map, columns_length. split; [reflexivity|].
  unfold columns at 1. cbn [ncols rows]. unfold column.
  rewrite <- (columns_length A) at 1.
  rewrite <- (map_nth_seq (gram_column (columns A)) (columns A) []).
  apply map_ext_in. intros j Hj. apply in_seq in Hj. rewrite map_map.
  unfold gram_column. apply map_ext. intro ca.
  apply (nth_map_default (dot ca) (columns A) j [] 0). lia.
Qed.

Lemma rows_as_row_at (A : array2 Q) :
  wf A -> rows A = map (row_at (columns A)) (seq 0 (nrows A)).
Proof.
  intro Hwf. apply (nth_ext _ _ [] []).
  - unfold nrows. now rewrite length_map, length_seq.
  - intros i Hi. fold (nrows A) in Hi.
    rewrite (nth_map_seq (row_at (columns A)) (nrows A) i [] Hi).
    now apply row_from_columns.
Qed.

(** What the normal equation returns, written with the columns of the
    design matrix and the rows of the pseudo-inverse of its Gram matrix. *)
Lemma normal_equation_explicit (A : array2 Q) (y beta : list Q) :
  normal_equation A y = ok beta ->
  length y = nrows A /\
  beta = map (fun p => dot (map (dot p) (map (row_at (columns A)) (seq 0 (length y)))) y)
             (greville (ncols A) (map (gram_column (columns A)) (columns A))).
Proof.
  intros Hne.
  destruct (normal_equation_shape A y) as [_ Hlen].
  destruct (Hlen beta Hne) as [_ Hy]. split; [exact Hy|].
  unfold normal_equation in Hne.
  destruct (matmul (transpose A) A) as [e | G] eqn:HG; [discriminate|].
  destruct (columns_gram A G HG) as [HGr HGc].
  cbn [rbind] in Hne. unfold pinv, matmul in Hne. cbn [ncols rows] in Hne.
  rewrite HGr in Hne.
  replace (nrows (transpose A)) with (ncols A) in Hne
    by (unfold nrows, transpose; cbn [rows]; now rewrite columns_length).
  rewrite Nat.eqb_refl in Hne. cbn [rbind ok] in Hne.
  unfold matvec in Hne. cbn [ncols rows] in Hne.
  replace (ncols (transpose A)) with (nrows A) in Hne by reflexivity.
  rewrite <- Hy, Nat.eqb_refl in Hne. injection Hne as <-.
  rewrite HGc, map_map.
  assert (HR : columns (transpose A) = map (row_at (columns A)) (seq 0 (length y)))
    by (rewrite Hy; reflexivity).
  now rewrite HR.
Qed.

Lemma gram_columns_shape (A : array2 Q) :
  Forall (fun a => length a = ncols A) (map (gram_column (columns A)) (columns A)).
Proof.
  apply Forall_forall. intros a Ha.
  apply in_map_iff in Ha. destruct Ha as [cb [<- _]].
  unfold gram_column. now rewrite length_map, columns_length.
Qed.

(** What the normal equation returns solves the normal equations
    [A^T (A beta) = A^T y], column by column of the design matrix. *)
Lemma normal_equation_solves (A : array2 Q) (y beta : list Q) (b : nat) :
  wf A ->
  normal_equation A y = ok beta ->
  (b < ncols A)%nat ->
  dot (nth b (columns A) []) (map (fun r => dot r beta) (rows A))
  == dot (nth b (columns A) []) y.
Proof.
  intros Hwf Hne Hb.
  destruct (normal_equation_explicit A y beta Hne) as [Hy ->].
  rewrite (rows_as_row_at A Hwf), <- Hy.
  apply (gram_normal_equations (length y) (ncols A) (columns A)).
  - rewrite Hy. apply columns_shape.
  - apply columns_length.
  - apply greville_penrose, gram_columns_shape.
  - reflexivity.
  - exact Hb.
Qed.

Lemma dot_ones {A} (l : list A) (v : list Q) :
  length v = length l -> dot (map (fun _ => 1) l) v == vsum v.
Proof.
  revert v. induction l as [|x l IH]; intros [|a v] H; try discriminate.
  - reflexivity.
  - cbn [map dot]. rewrite vsum_cons, IH by (simpl in H; lia). ring.
Qed.

Lemma design_wf (X : array2 Q) : wf X -> wf (np_c_ones (np_insert_col0 1 X)).
Proof.
  unfold wf. cbn [np_c_ones np_insert_col0 ncols rows]. rewrite map_map.
  intro H. apply Forall_forall. intros r Hr. apply in_map_iff in Hr.
  destruct Hr as [r' [<- Hr']]. rewrite Forall_forall in H. cbn [length].
  now rewrite (H r' Hr').
Qed.

(** The columns of the design matrix of a least-squares fit: two columns of
    ones, then the columns of [X]. *)
Lemma design_columns (X : array2 Q) :
  let A := np_c_ones (np_insert_col0 1 X) in
  nth 0 (columns A) [] = map (fun _ => 1) (rows X) /\
  forall j, (j < ncols X)%nat -> nth (S (S j)) (columns A) [] = column j (rows X).
Proof.
  intro A. unfold columns. cbn [A np_c_ones np_insert_col0 ncols rows]. split.
  - rewrite (nth_map_seq _ (S (S (ncols X))) 0 []) by lia.
    unfold column. rewrite !map_map. reflexivity.
  - intros j Hj. rewrite (nth_map_seq _ (S (S (ncols X))) (S (S j)) []) by lia.
    unfold column. rewrite !map_map. reflexivity.
Qed.

Lemma matmul_gram (A : array2 Q) : matmul (transpose A) A = ok (gram A).
Proof.
  unfold matmul, transpose, gram. cbn [ncols rows]. now rewrite Nat.eqb_refl.
Qed.

(** X4. What [fit] with "least_squares" stores is a least-squares solution for
    the features preceded by a column of ones, in exact arithmetic and for
    a design matrix on which the cutoff of [np.linalg.pinv] drops no
    singular value but the zero ones ([pinv_cutoff_clear]).  On a
    rectangular [X] with one target per row the fit returns; [predict] on
    [X] with a column of ones before it returns fitted values whose
    residuals sum to zero and are orthogonal to every column of [X], which
    are the conditions for the sum of the squared residuals to be least. *)
Theorem fit_least_squares_residuals_orthogonal :
  forall (w0 : world) (X : array2 Q) (y : list Q) (learning_rate : Q)
         (iterations : Z) (rnd : nat -> Q),
    wf X ->
    length y = nrows X ->
    pinv_cutoff_clear (np_c_ones (np_insert_col0 1 X)) ->
    exists w1 fitted,
      fit (Arr2 X) y "least_squares" learning_rate iterations rnd w0 = (ok tt, w1) /\
      predict (Arr2 (np_insert_col0 1 X)) w1 = (ok fitted, w1) /\
      vsum (vsub fitted y) == 0 /\
      forall j, (j < ncols X)%nat ->
                dot (column j (rows X)) (vsub fitted y) == 0.
Proof.
  intros w0 X y lr it rnd Hwf Hy _.
  destruct (fit_least_squares_stored w0 X y lr it rnd) as [Hex Hst].
  destruct (Hex Hy) as [w1 Hfit].
  destruct (Hst w1 Hfit) as [beta [b [Hne [Hg [Hlen ->]]]]].
  destruct beta as [|b' coefs]; [discriminate|].
  injection Hg as ->. cbn [skipn]. cbn [length] in Hlen.
  set (A := np_c_ones (np_insert_col0 1 X)) in *.
  set (fitted := map (fun v => v + b)
                     (map (fun a => dot a coefs) (rows (np_insert_col0 1 X)))).
  assert (Hpred : predict (Arr2 (np_insert_col0 1 X))
                          (World (mk (Some coefs) (Some b)) (stdout w0))
                  = (ok fitted, World (mk (Some coefs) (Some b)) (stdout w0))).
  { apply predict_2d. cbn [np_insert_col0 ncols]. lia. }
  assert (HA : veq fitted (map (fun r => dot r (b :: coefs)) (rows A))).
  { unfold fitted, A. cbn [np_c_ones rows]. rewrite !map_map.
    apply map_veq. intros a _. cbn [dot]. ring. }
  assert (Hfl : length fitted = length y).
  { unfold fitted. cbn [np_insert_col0 rows]. rewrite !length_map. now symmetry. }
  assert (Hcol : forall k, (k < ncols A)%nat ->
            dot (nth k (columns A) []) (vsub fitted y) == 0).
  { intros k Hk. rewrite dot_vsub_r by exact Hfl. rewrite HA.
    rewrite (normal_equation_solves A y (b :: coefs) k (design_wf X Hwf) Hne Hk).
    ring. }
  destruct (design_columns X) as [H0 Hj]. fold A in H0, Hj.
  exists (World (mk (Some coefs) (Some b)) (stdout w0)), fitted.
  split; [exact Hfit|]. split; [exact Hpred|]. split.
  - rewrite <- (dot_ones (rows X) (vsub fitted y)).
    + rewrite <- H0. apply Hcol. cbn [A np_c_ones ncols]. lia.
    + rewrite vsub_length by exact Hfl. rewrite Hfl. exact Hy.
  - intros j Hlt. rewrite <- (Hj j Hlt). apply Hcol.
    cbn [A np_c_ones np_insert_col0 ncols]. lia.
Qed.

Lemma fit_least_squares_residuals_orthogonal_witness :
  exists w1 fitted,
    fit (Arr2 (mk2 1 [[0]; [1]; [2]])) [1; 3; 4] "least_squares" 0.01 1000 (fun _ => 0)
        (World __init__ [])
    = (ok tt, w1) /\
    predict (Arr2 (np_insert_col0 1 (mk2 1 [[0]; [1]; [2]]))) w1 = (ok fitted, w1) /\
    vsum (vsub fitted [1; 3; 4]) == 0 /\
    forall j, (j < 1)%nat ->
              dot (column j [[0]; [1]; [2]]) (vsub fitted [1; 3; 4]) == 0.
Proof.
  apply (fit_least_squares_residuals_orthogonal (World __init__ [])
           (mk2 1 [[0]; [1]; [2]]) [1; 3; 4] 0.01 1000 (fun _ => 0)).
  - repeat constructor.
  - reflexivity.
  - vm_compute. reflexivity.
Defined.

(** The features 0 and 1e-8 are not in that case: the Gram matrix of their
    design has a singular value, not zero, under the cutoff. *)
Lemma pinv_cutoff_not_clear_example :
  ~ pinv_cutoff_clear (np_c_ones (np_insert_col0 1 (mk2 1 [[0]; [1 # 100000000]]))).
Proof. vm_compute. discriminate. Qed.

(* ----------------------------------------------------------------- *)
(** ** Least squares: the two columns of ones share the intercept *)

Lemma nth_default_irrelevant (V : list (list Q)) (i : nat) (d : list Q) :
  (i < length V)%nat -> nth i V d = nth i V [].
Proof. intro H. now apply nth_indep. Qed.

(** When two columns of a matrix are equal, so are the two rows of its
    pseudo-inverse that belong to them. *)
Lemma penrose_equal_columns (m : nat) (cols P : list (list Q)) (k l : nat) :
  penrose m cols P ->
  (k < length cols)%nat ->
  (l < length cols)%nat ->
  veq (nth k cols []) (nth l cols []) ->
  veq (nth k P []) (nth l P []).
Proof.
  intros HP Hk Hl Hkl.
  pose proof (pen_len _ _ _ HP) as Hlen.
  pose proof (pen_cols _ _ _ HP) as Hcols.
  pose proof (pen_rows _ _ _ HP) as Hrows.
  assert (Hsym : forall a b, (a < length cols)%nat -> (b < length cols)%nat ->
            dot (nth a P []) (nth b cols []) == dot (nth b P []) (nth a cols [])).
  { intros a b Ha Hb.
    pose proof (pen4 _ _ _ HP (unit_vec (length cols) a) (unit_vec (length cols) b)
                  (unit_vec_length _ _) (unit_vec_length _ _)) as H4.
    rewrite (lincomb_unit m cols b Hcols), (lincomb_unit m cols a Hcols) in H4.
    rewrite <- Hlen in H4.
    rewrite (lincomb_unit m P a Hrows), (lincomb_unit m P b Hrows) in H4.
    rewrite (nth_default_irrelevant P a (repeat 0 m)),
            (nth_default_irrelevant P b (repeat 0 m)),
            (nth_default_irrelevant cols a (repeat 0 m)),
            (nth_default_irrelevant cols b (repeat 0 m)) in H4 by lia.
    exact H4. }
  assert (Hcoef : veq (map (fun a => dot (nth k P []) a) cols)
                      (map (fun a => dot (nth l P []) a) cols)).
  { apply map_veq. intros a Ha. destruct (In_nth cols a [] Ha) as [b [Hb <-]].
    rewrite (Hsym k b Hk Hb), Hkl, <- (Hsym l b Hl Hb). reflexivity. }
  pose proof (pen2 _ _ _ HP) as H2. rewrite Forall_forall in H2.
  rewrite <- (H2 (nth k P [])) by (apply nth_In; lia).
  rewrite <- (H2 (nth l P [])) by (apply nth_In; lia).
  unfold apply_PA. now apply lincomb_coeffs.
Qed.

(** X5. After a least-squares fit the intercept equals [coefficients[0]]: the
    two columns of ones of the design matrix receive the same weight, one
    stored as the intercept, the other as the first coefficient. *)
Theorem fit_least_squares_intercept_twice :
  forall (w0 : world) (X : array2 Q) (y : list Q) (learning_rate : Q)
         (iterations : Z) (rnd : nat -> Q),
    length y = nrows X ->
    exists c0 coefs b out,
      fit (Arr2 X) y "least_squares" learning_rate iterations rnd w0
      = (ok tt, World (mk (Some (c0 :: coefs)) (Some b)) out) /\
      b == c0.
Proof.
  intros w0 X y lr it rnd Hy.
  destruct (fit_least_squares_stored w0 X y lr it rnd) as [Hex Hst].
  destruct (Hex Hy) as [w1 Hfit].
  destruct (Hst w1 Hfit) as [beta [b [Hne [Hg [Hlen ->]]]]].
  set (A := np_c_ones (np_insert_col0 1 X)) in *.
  destruct (normal_equation_explicit A y beta Hne) as [_ Hbeta].
  set (C := columns A) in *.
  set (P := greville (ncols A) (map (gram_column C) C)) in *.
  assert (HP : penrose (ncols A) (map (gram_column C) C) P)
    by apply greville_penrose, gram_columns_shape.
  assert (HC : length C = S (S (ncols X))) by apply columns_length.
  assert (HPl : length P = S (S (ncols X)))
    by (rewrite (pen_len _ _ _ HP), length_map; exact HC).
  assert (H01 : veq (nth 0 P []) (nth 1 P [])).
  { apply (penrose_equal_columns _ _ _ 0 1 HP); rewrite ?length_map; try lia.
    rewrite !(nth_map_default (gram_column C) C _ [] []) by lia.
    replace (nth 1 C []) with (nth 0 C []); [reflexivity|].
    unfold C, columns. cbn [A np_c_ones np_insert_col0 ncols rows seq map nth].
    unfold column. rewrite !map_map. reflexivity. }
  destruct P as [|p0 [|p1 P']]; try discriminate. cbn [nth] in H01.
  cbn [map] in Hbeta. subst beta. injection Hg as <-. cbn [skipn].
  eexists _, _, _, _. split; [exact Hfit|].
  apply dot_Proper; [|reflexivity].
  apply map_veq. intros r _. now rewrite H01.
Qed.

Lemma fit_least_squares_intercept_twice_witness :
  exists c0 coefs b out,
    fit (Arr2 (mk2 1 [[0]; [1]; [2]])) [1; 3; 4] "least_squares" 0.01 1000 (fun _ => 0)
        (World __init__ [])
    = (ok tt, World (mk (Some (c0 :: coefs)) (Some b)) out) /\
    b == c0.
Proof.
  apply (fit_least_squares_intercept_twice (World __init__ [])
           (mk2 1 [[0]; [1]; [2]]) [1; 3; 4] 0.01 1000 (fun _ => 0)).
  reflexivity.
Defined.

(* ----------------------------------------------------------------- *)
(** ** Gradient descent on an empty training set *)

(** X13. With no row and no target, [m] is 0 and the first epoch divides by it:
    [fit] with "gradient_descent" and at least one iteration raises
    [ZeroDivisionError], the model holding the initial draws. *)
Theorem fit_gradient_descent_no_rows_raises :
  forall (w0 : world) (p : nat) (learning_rate : Q) (iterations : Z)
         (rnd : nat -> Q),
    (0 < iterations)%Z ->
    fit (Arr2 (mk2 p [])) [] "gradient_descent" learning_rate iterations rnd w0
    = (raise ZeroDivisionError, World (gd_initial rnd p) (stdout w0)).
Proof.
  intros w0 p lr it rnd Hit. rewrite fit_gradient_descent_unfold.
  destruct (Z.to_nat it) as [|n] eqn:En; [lia|].
  cbn [seq for_each ncols]. apply bind_raise.
  unfold gd_epoch, gd_initial. rewrite drop_insert_col0.
  erewrite bind_ok
    by (apply predict_2d; cbn [ncols]; now rewrite length_map, length_seq).
  reflexivity.
Qed.

Lemma fit_gradient_descent_no_rows_raises_witness :
  fit (Arr2 (mk2 2 [])) [] "gradient_descent" 0.01 1000 (fun _ => 1) (World __init__ [])
  = (raise ZeroDivisionError, World (gd_initial (fun _ => 1) 2) []).
Proof.
  apply (fit_gradient_descent_no_rows_raises (World __init__ []) 2 0.01 1000 (fun _ => 1)).
  lia.
Defined.
